(** * backup-to-Google-Drive: a shallow embedding of [backup_to_google_drive/__main__.py]

    The development follows the layout of the script:

    - [PosixPath]: the [os.path] functions the script calls, on a POSIX host
      ([sys.platform] is not ["win32"], so [os.path] is [posixpath] and the
      separator chosen by [ZipMaker._validate_path] is ["/"]);
    - [LocalFS]: directory trees and [os.walk];
    - [Zip]: [ZipMaker] (traversal with exclusions, the one-shot generator
      held in [self.files], archive construction);
    - [Py]: the world the script acts on (local disk, Drive, transport
      failures, trace of log calls, pauses and requests) and a
      state-and-exception monad;
    - [ConfigMixin], [ZipRun], [Service], [ConnGoogleDrive]: reading the
      configuration, building the archive, the Drive service, and the
      connector (retry wrapper, upload, listing, pruning);
    - [Orchestrator]: [make_backup], the worker pool and [main];
    - [Observe], [Sample]: vocabulary for reading runs, and sample data;
    - [SetLogging], [Yaml]: the logging set-up, and [read_yaml_config] for
      any path;
    - [More]: vocabulary for the further properties.

    The facts follow, module by module, then the claims C1-C10, and then
    further properties of the script, X1-X28.

    Strings are [String.string]; Python lists are [list]; [None]-able values
    are [option]; Python truthiness is written out where the script relies
    on it. *)

From Stdlib Require Import String Ascii List Arith Bool Lia DecimalString Permutation.
Import ListNotations.
Local Open Scope string_scope.
Local Open Scope list_scope.

(** ** Python built-ins used by the script *)

Module PyStr.

(** [s.split(c)] for a one-character separator [c]. *)
Fixpoint split (c : ascii) (s : string) : list string :=
  match s with
  | EmptyString => [EmptyString]
  | String a s' =>
      if Ascii.eqb a c then EmptyString :: split c s'
      else match split c s' with
           | [] => [String a EmptyString]
           | h :: t => String a h :: t
           end
  end.

(** [x in l] for a list of strings. *)
Definition mem (x : string) (l : list string) : bool :=
  existsb (String.eqb x) l.

(** [c.join(l)]. *)
Fixpoint join_with (c : ascii) (l : list string) : string :=
  match l with
  | [] => EmptyString
  | [x] => x
  | x :: t => (x ++ String c (join_with c t))%string
  end.

(** Truthiness of a string: non-empty. *)
Definition truthy (s : string) : bool :=
  match s with EmptyString => false | _ => true end.

(** [x or y] where [x] is a string or [None] and [y] a string. *)
Definition or_else (x : option string) (y : string) : string :=
  match x with
  | Some s => if truthy s then s else y
  | None => y
  end.

(** [s.startswith(c)], [s.endswith(c)] for a one-character [c]. *)
Definition startswith (c : ascii) (s : string) : bool :=
  match s with
  | String a _ => Ascii.eqb a c
  | EmptyString => false
  end.

Fixpoint endswith (c : ascii) (s : string) : bool :=
  match s with
  | EmptyString => false
  | String a EmptyString => Ascii.eqb a c
  | String _ s' => endswith c s'
  end.

(** [c in s] for a character [c]. *)
Fixpoint has_char (c : ascii) (s : string) : bool :=
  match s with
  | EmptyString => false
  | String a s' => Ascii.eqb a c || has_char c s'
  end.

End PyStr.

(** ** [os.path] on a POSIX host *)

Module PosixPath.
Import PyStr.

Definition sep : ascii := "/"%char.

(** [os.path.join(a, b)]. *)
Definition join (a b : string) : string :=
  if startswith sep b then b
  else if negb (truthy a) || endswith sep a then (a ++ b)%string
  else (a ++ String sep b)%string.

(** [os.path.join(a, b, c)]. *)
Definition join3 (a b c : string) : string := join (join a b) c.

(** [os.path.basename(p)]: what follows the last separator. *)
Definition basename (p : string) : string :=
  last (split sep p) EmptyString.


(** [os.path.normpath]: the loop over the components. *)
Fixpoint norm_comps (rooted : bool) (acc comps : list string) : list string :=
  match comps with
  | [] => acc
  | comp :: rest =>
      if String.eqb comp "" || String.eqb comp "." then norm_comps rooted acc rest
      else if negb (String.eqb comp "..")
              || (negb rooted && match acc with [] => true | _ => false end)
              || String.eqb (last acc "") ".." && negb (match acc with [] => true | _ => false end)
      then norm_comps rooted (acc ++ [comp]) rest
      else norm_comps rooted (removelast acc) rest
  end.

Definition initial_slashes (p : string) : nat :=
  match p with
  | String a (String b (String c _)) =>
      if Ascii.eqb a sep then
        if Ascii.eqb b sep then (if Ascii.eqb c sep then 1 else 2) else 1
      else 0
  | String a (String b EmptyString) =>
      if Ascii.eqb a sep then (if Ascii.eqb b sep then 2 else 1) else 0
  | String a EmptyString => if Ascii.eqb a sep then 1 else 0
  | EmptyString => 0
  end.

Fixpoint slashes (n : nat) : string :=
  match n with 0 => EmptyString | S k => String sep (slashes k) end.

Definition normpath (p : string) : string :=
  if negb (truthy p) then "."
  else
    let n := initial_slashes p in
    let comps := norm_comps (negb (Nat.eqb n 0)) [] (split sep p) in
    let r := (slashes n ++ join_with sep comps)%string in
    if truthy r then r else ".".

(** [os.path.abspath(p)] when the working directory is [cwd]. *)
Definition abspath (cwd p : string) : string :=
  normpath (if startswith sep p then p else join cwd p).

Fixpoint common_prefix_len (a b : list string) : nat :=
  match a, b with
  | x :: a', y :: b' => if String.eqb x y then S (common_prefix_len a' b') else 0
  | _, _ => 0
  end.

Definition nonempty_comps (p : string) : list string :=
  filter truthy (split sep p).

(** [os.path.relpath(path, start=start)] when the working directory is
    [cwd]; [path] is never empty where the script calls it. *)
Definition relpath (cwd path start : string) : string :=
  let start_list := nonempty_comps (abspath cwd start) in
  let path_list := nonempty_comps (abspath cwd path) in
  let i := common_prefix_len start_list path_list in
  let rel_list := repeat ".." (length start_list - i) ++ skipn i path_list in
  match rel_list with
  | [] => "."
  | x :: t => fold_left join t x
  end.

End PosixPath.

(** ** Local directory trees and [os.walk] *)

Module LocalFS.
Import PyStr PosixPath.

(** What a file is when the archive is written: what [os.stat] and [open]
    give for it. ZIP stores modification times from 1980 to 2107. *)
Inductive FileState :=
| Present (content : string)   (* readable, modified between 1980 and 2107 *)
| Vanished                     (* removed after the walk: FileNotFoundError *)
| Denied                       (* unreadable: PermissionError *)
| Predated                     (* modified before 1980, readable or not *)
| Postdated (readable : bool). (* modified after 2107 *)

#[local] Unset Elimination Schemes.
Inductive Node :=
| File (name : string) (st : FileState)
| Dir (name : string) (children : list Node).
#[local] Set Elimination Schemes.

(** Induction on trees, with the hypothesis for every child. *)
Section NodeInduction.
Variable P : Node -> Prop.
Hypothesis HFile : forall f st, P (File f st).
Hypothesis HDir : forall d children, Forall P children -> P (Dir d children).

Fixpoint Node_ind' (n : Node) : P n :=
  match n with
  | File f st => HFile f st
  | Dir d children =>
      HDir d children
        ((fix go (l : list Node) : Forall P l :=
            match l with
            | [] => Forall_nil P
            | x :: t => Forall_cons x (Node_ind' x) (go t)
            end) children)
  end.
End NodeInduction.

(** The names of directory entries hold no separator. *)
Fixpoint wf_node (n : Node) : bool :=
  match n with
  | File f _ => negb (has_char sep f)
  | Dir d children => negb (has_char sep d) && forallb wf_node children
  end.

(** The directories and the other entries of a listing, by name. *)
Definition dirnames (l : list Node) : list string :=
  flat_map (fun n => match n with Dir d _ => [d] | File _ _ => [] end) l.

Definition filenames (l : list Node) : list string :=
  flat_map (fun n => match n with File f _ => [f] | Dir _ _ => [] end) l.

(** One triple [(address, dirs, files)] yielded by [os.walk]. *)
Definition WalkEntry : Type := string * list string * list string.

(** [os.walk] below [top], for one entry of [top]: a directory named [d]
    is visited at [join(top, d)], top-down, then its own directories. *)
Fixpoint walk_node (top : string) (n : Node) : list WalkEntry :=
  match n with
  | File _ _ => []
  | Dir d children =>
      let new_path := join top d in
      (new_path, dirnames children, filenames children)
        :: flat_map (walk_node new_path) children
  end.

(** [os.walk(top)] where [children] is the content of the directory [top]. *)
Definition walk_dir (top : string) (children : list Node) : list WalkEntry :=
  (top, dirnames children, filenames children)
    :: flat_map (walk_node top) children.

(** The local directories of the host, by the path they are reached at. *)
Definition FS : Type := list (string * list Node).

(** Every directory of the host is well formed. *)
Definition wf_fs (fs : FS) : bool :=
  forallb (fun e => forallb wf_node (snd e)) fs.

(** The content of the directory reached at [p]. *)
Fixpoint lookup_dir (fs : FS) (p : string) : option (list Node) :=
  match fs with
  | [] => None
  | (q, children) :: rest => if String.eqb q p then Some children else lookup_dir rest p
  end.

(** [os.walk(top)]: a directory that cannot be listed (or the empty path)
    yields nothing, since [onerror] is left at [None]. *)
Definition os_walk (fs : FS) (top : string) : list WalkEntry :=
  if negb (truthy top) then []
  else match lookup_dir fs top with
       | Some children => walk_dir top children
       | None => []
       end.

(** The files below a directory with the paths [os.walk] gives them. *)
Fixpoint files_of_node (top : string) (n : Node) : list (string * FileState) :=
  match n with
  | File f st => [(join top f, st)]
  | Dir d children => flat_map (files_of_node (join top d)) children
  end.

(** The files below the directory [top]. *)
Definition files_of_dir (top : string) (children : list Node) : list (string * FileState) :=
  flat_map (files_of_node top) children.

(** The state of the file reached at [p]. *)
Fixpoint assoc_file (l : list (string * FileState)) (p : string) : option FileState :=
  match l with
  | [] => None
  | (q, st) :: rest => if String.eqb q p then Some st else assoc_file rest p
  end.

(** Opening [path], a file below the directory [top], for reading. *)
Definition read_file (fs : FS) (top path : string) : FileState :=
  match lookup_dir fs top with
  | Some children =>
      match assoc_file (files_of_dir top children) path with
      | Some st => st
      | None => Vanished
      end
  | None => Vanished
  end.

End LocalFS.

(** ** Configuration ([config.yml]) *)

Record Config := {
  google_drive_backup_folder_id : option string;
  exclude_folder_names : option (list string);
  folders_for_backup : option (list string)
}.

(** ** [ZipMaker]: traversal *)

Module Zip.
Import PyStr PosixPath LocalFS.

Record PreparedFile := {
  absolute_filepath : string;
  filepath : string
}.

(** The generator object returned by calling the generator function
    [_prepare_folder_for_backup]: its body has not run yet, or it has run
    to its end. *)
Inductive Generator := Unstarted | Exhausted.

Record ZipMaker := {
  config : Config;
  folder : string;
  files : Generator;
  archive_name : string;
  _exclude_folder_names : option (list string)
}.

(** [ZipMaker.__init__], once [ConfigMixin.__init__] has read [cfg]. *)
Definition __init__ (cfg : Config) (folder : string) : ZipMaker :=
  {| config := cfg;
     folder := folder;
     files := Unstarted;
     archive_name := basename folder;
     _exclude_folder_names := exclude_folder_names cfg |}.

(** [_validate_path(path)]: a component of [path] is an excluded name. *)
Definition _validate_path (self : ZipMaker) (path : string) : bool :=
  match _exclude_folder_names self with
  | Some ((_ :: _) as names) =>
      existsb (fun folder => mem folder (split sep path)) names
  | _ => false
  end.

(** The local variables of [_prepare_folder_for_backup]. *)
Record Prep := {
  prepared_files : list PreparedFile;
  absolute_root_path : option string;
  root_path : option string
}.

(** Their values before the loop. *)
Definition prep0 : Prep :=
  {| prepared_files := []; absolute_root_path := None; root_path := None |}.

(** One turn of the loop over [os.walk(self.folder)]. *)
Definition prepare_step (cwd : string) (self : ZipMaker) (st : Prep) (e : WalkEntry) : Prep :=
  let '(address, _, names) := e in
  if _validate_path self address then st
  else
    let arp := or_else (absolute_root_path st) address in
    let rp := or_else (root_path st) (basename address) in
    let prepared file :=
      {| absolute_filepath := join address file;
         filepath :=
           if String.eqb address arp then join rp file
           else join3 rp (relpath cwd address arp) file |} in
    {| prepared_files := prepared_files st ++ map prepared names;
       absolute_root_path := Some arp;
       root_path := Some rp |}.

(** The body of the generator: everything it yields, in order. *)
Definition _prepare_folder_for_backup (fs : FS) (cwd : string) (self : ZipMaker)
  : list PreparedFile :=
  prepared_files (fold_left (prepare_step cwd self) (os_walk fs (folder self)) prep0).

(** [for file in self.files]: a full iteration of the stored generator.
    The body runs on the first iteration, against the disk as it is then. *)
Definition iterate_files (fs : FS) (cwd : string) (self : ZipMaker)
  : list PreparedFile * ZipMaker :=
  match files self with
  | Unstarted =>
      (_prepare_folder_for_backup fs cwd self,
       {| config := config self; folder := folder self; files := Exhausted;
          archive_name := archive_name self;
          _exclude_folder_names := _exclude_folder_names self |})
  | Exhausted => ([], self)
  end.

End Zip.

(** ** The world the script acts on *)

Module Py.
Import PyStr PosixPath LocalFS.

Inductive Exn :=
| HttpError (text : string)          (* [errors.HttpError]; [text] is [str(e)] *)
| FileNotFoundError (path : string)
| PermissionError (path : string)
| TypeError (msg : string)
| ValueError (msg : string)
| IndexError (msg : string)
| StructError (msg : string)         (* [struct.error] *)
| Exception (msg : string)
| SystemExit (code : nat).           (* raised by [exit(code)] *)

(** [isinstance(e, Exception)]: [SystemExit] derives from [BaseException] only. *)
Definition is_Exception (e : Exn) : bool :=
  match e with SystemExit _ => false | _ => true end.

(** An archive: the [(arcname, content)] entries written to it, in order. *)
Definition Archive : Type := list (string * string).

Record DriveObject := {
  obj_id : string;
  obj_name : string;
  obj_parents : list string;
  obj_media : Archive
}.

(** The requests the script builds on [self._drive_service]. *)
Inductive Request :=
| FilesCreate (name : string) (parents : option (list string)) (media : string)
| FilesList (parent : string) (pageToken : option nat)
| BatchDelete (iteration : nat) (fileIds : list string).
    (* [new_batch_http_request(callback=callback)] filled with
       [files().delete(fileId=...)]; [callback] reads [iteration] *)

Inductive Response :=
| RFile (id : string)                                  (* [{"id": id}] *)
| RList (ids : list string) (nextPageToken : option nat)
| RNone.

Inductive Event :=
| Log (level msg : string)      (* a call of [log.debug/info/warning/error] *)
| Sleep (seconds : nat)         (* [time.sleep(seconds)] *)
| SleepJitter (seconds : nat)   (* [time.sleep(seconds + random.random())] *)
| Execute (r : Request).        (* one invocation of [request.execute()] *)

Record World := {
  fs : FS;                               (* local directories *)
  cwd : string;                          (* [os.getcwd()] *)
  script_dir : string;                   (* [os.path.dirname(__file__)] *)
  now : string;                          (* [datetime.now().strftime(...)] *)
  config_file : option Config;           (* [config.yml]; [None] when missing *)
  token_file : bool;                     (* [.google_drive_token.json] exists *)
  staging : list (string * Archive);     (* archive files on the local disk *)
  locked : list string;                  (* files [os.remove] is refused on *)
  drive : list DriveObject;              (* objects held by Google Drive *)
  next_id : nat;                         (* source of fresh object IDs *)
  undeletable : list string;             (* IDs whose deletion Drive refuses *)
  faults : list (option Exn);            (* what successive [execute()] calls
                                            meet: [Some e] raises [e] *)
  schedule : list nat;                   (* choices of the pool's scheduler *)
  trace : list Event                     (* what has happened, oldest first *)
}.

(** Updating one field of the world. *)
Definition set_trace (t : list Event) (w : World) : World :=
  {| fs := fs w; cwd := cwd w; script_dir := script_dir w; now := now w;
     config_file := config_file w; token_file := token_file w;
     staging := staging w; locked := locked w; drive := drive w;
     next_id := next_id w; undeletable := undeletable w; faults := faults w;
     schedule := schedule w; trace := t |}.

Definition set_faults (f : list (option Exn)) (w : World) : World :=
  {| fs := fs w; cwd := cwd w; script_dir := script_dir w; now := now w;
     config_file := config_file w; token_file := token_file w;
     staging := staging w; locked := locked w; drive := drive w;
     next_id := next_id w; undeletable := undeletable w; faults := f;
     schedule := schedule w; trace := trace w |}.

Definition set_staging (s : list (string * Archive)) (w : World) : World :=
  {| fs := fs w; cwd := cwd w; script_dir := script_dir w; now := now w;
     config_file := config_file w; token_file := token_file w;
     staging := s; locked := locked w; drive := drive w;
     next_id := next_id w; undeletable := undeletable w; faults := faults w;
     schedule := schedule w; trace := trace w |}.

Definition set_drive (d : list DriveObject) (n : nat) (w : World) : World :=
  {| fs := fs w; cwd := cwd w; script_dir := script_dir w; now := now w;
     config_file := config_file w; token_file := token_file w;
     staging := staging w; locked := locked w; drive := d;
     next_id := n; undeletable := undeletable w; faults := faults w;
     schedule := schedule w; trace := trace w |}.

Definition set_token_file (b : bool) (w : World) : World :=
  {| fs := fs w; cwd := cwd w; script_dir := script_dir w; now := now w;
     config_file := config_file w; token_file := b;
     staging := staging w; locked := locked w; drive := drive w;
     next_id := next_id w; undeletable := undeletable w; faults := faults w;
     schedule := schedule w; trace := trace w |}.

(** *** Computations: state passing with exceptions *)

Inductive Result (A : Type) :=
| Ok (a : A)
| Raise (e : Exn)
| OutOfFuel.          (* a [while True] loop cut short by the embedding *)
Arguments Ok {A} a.
Arguments Raise {A} e.
Arguments OutOfFuel {A}.

Definition M (A : Type) : Type := World -> Result A * World.

(** [return a]. *)
Definition ret {A} (a : A) : M A := fun w => (Ok a, w).

(** [c] and then [k]: an exception in [c] skips [k]. *)
Definition bind {A B} (c : M A) (k : A -> M B) : M B :=
  fun w =>
    match c w with
    | (Ok a, w') => k a w'
    | (Raise e, w') => (Raise e, w')
    | (OutOfFuel, w') => (OutOfFuel, w')
    end.

(** [raise e]. *)
Definition raise {A} (e : Exn) : M A := fun w => (Raise e, w).

(** [try: c] with [except errors.HttpError as e: handler(str(e))]. *)
Definition try_except_HttpError {A} (c : M A) (handler : string -> M A) : M A :=
  fun w =>
    match c w with
    | (Raise (HttpError text), w') => handler text w'
    | other => other
    end.

(** [try: c] with [except FileNotFoundError: handler]. *)
Definition try_except_FileNotFoundError {A} (c : M A) (handler : M A) : M A :=
  fun w =>
    match c w with
    | (Raise (FileNotFoundError _), w') => handler w'
    | other => other
    end.

(** Recording an event. *)
Definition emit (e : Event) : M unit :=
  fun w => (Ok tt, set_trace (trace w ++ [e]) w).

(** [log.debug], [log.info], [log.warning], [log.error]. *)
Definition log (level msg : string) : M unit := emit (Log level msg).
(** [time.sleep(seconds)]. *)
Definition sleep (seconds : nat) : M unit := emit (Sleep seconds).

(** [str(n)]. *)
Definition decimal (n : nat) : string := NilEmpty.string_of_uint (Nat.to_uint n).

(** Reading a trace. *)
Definition is_execute (e : Event) : bool :=
  match e with Execute _ => true | _ => false end.

Definition is_pacing (e : Event) : bool :=
  match e with Execute _ | Sleep _ | SleepJitter _ => true | Log _ _ => false end.

(** How many times [execute()] has been invoked. *)
Definition invocations (t : list Event) : nat := length (filter is_execute t).

(** A transport that fails with the HTTP errors [texts], one per call. *)
Definition http_faults (texts : list string) : list (option Exn) :=
  map (fun text => Some (HttpError text)) texts.

End Py.

Declare Scope py_scope.
Delimit Scope py_scope with py.
Notation "x <- c ;; k" := (Py.bind c (fun x => k))
  (at level 61, c at next level, right associativity) : py_scope.
Notation "c ;; k" := (Py.bind c (fun _ => k))
  (at level 61, right associativity) : py_scope.

Local Open Scope py_scope.

(** ** [ConfigMixin] *)

Module ConfigMixin.
Import PyStr PosixPath Py.

(** The constants of the module and of [ConfigMixin]. *)
Definition CONFIG_FILENAME : string := "config.yml".

Definition CONFIG_FILEPATH (w : World) : string :=
  join (script_dir w) CONFIG_FILENAME.

(** [read_yaml_config(filepath=CONFIG_FILEPATH)]: the name ends in ["yml"],
    so the [TypeError] branch is not taken. *)
Definition read_yaml_config : M Config :=
  fun w =>
    match config_file w with
    | Some cfg => (Ok cfg, w)
    | None =>
        (log "ERROR" ("Config file not found: " ++ CONFIG_FILEPATH w) ;;
         raise (FileNotFoundError (CONFIG_FILEPATH w))) w
    end.

(** [ConfigMixin.__init__]. *)
Definition __init__ : M Config := read_yaml_config.

End ConfigMixin.

(** ** [ZipMaker]: building the archive *)

Module ZipRun.
Import PyStr PosixPath LocalFS Py Zip.

(** [ZipMaker(folder=folder)]. *)
Definition ZipMaker_new (folder : string) : M ZipMaker :=
  cfg <- ConfigMixin.__init__ ;;
  ret (Zip.__init__ cfg folder).

(** Writing the file at [path] on the local disk. *)
Fixpoint put_file (path : string) (a : Archive) (l : list (string * Archive))
  : list (string * Archive) :=
  match l with
  | [] => [(path, a)]
  | (q, b) :: rest =>
      if String.eqb q path then (path, a) :: rest else (q, b) :: put_file path a rest
  end.

(** The file at [path] on the local disk, if there is one. *)
Fixpoint get_file (path : string) (l : list (string * Archive)) : option Archive :=
  match l with
  | [] => None
  | (q, b) :: rest => if String.eqb q path then Some b else get_file path rest
  end.

(** [zipfile.ZipFile(zipfile_path, "w")]: an empty archive replaces
    whatever was at that path. *)
Definition zip_open (zipfile_path : string) : M unit :=
  fun w => (Ok tt, set_staging (put_file zipfile_path [] (staging w)) w).

(** [while arcname[0] in (os.sep, os.altsep): arcname = arcname[1:]];
    [None] when the string runs out, where [arcname[0]] raises. *)
Fixpoint lstrip_sep (s : string) : option string :=
  match s with
  | EmptyString => None
  | String a s' => if Ascii.eqb a sep then lstrip_sep s' else Some s
  end.

(** The name [ZipInfo.from_file] stores an entry under:
    [os.path.normpath(arcname)] without its leading separators. *)
Definition zip_arcname (arcname : string) : option string :=
  lstrip_sep (normpath arcname).

(** What [z.write] makes of a file: the entry it stores, or the exception it
    raises. [ZipInfo.from_file] calls [os.stat], normalises the name and
    refuses a date before 1980; the file is then opened for reading, and
    the entry's header is written, which fails for a date after 2107. *)
Definition zip_entry (disk : FS) (top filename arcname : string)
  : Exn + (string * string) :=
  match read_file disk top filename with
  | Vanished => inl (FileNotFoundError filename)
  | st =>
      match zip_arcname arcname with
      | None => inl (IndexError "string index out of range")
      | Some name =>
          match st with
          | Present content => inr (name, content)
          | Vanished => inl (FileNotFoundError filename)
          | Predated => inl (ValueError "ZIP does not support timestamps before 1980")
          | Denied | Postdated false => inl (PermissionError filename)
          | Postdated true =>
              inl (StructError "ushort format requires 0 <= number <= 65535")
          end
      end
  end.

(** [z.write(filename=..., arcname=..., compress_type=ZIP_DEFLATED)]. *)
Definition zip_write (top zipfile_path filename arcname : string) : M unit :=
  fun w =>
    match zip_entry (fs w) top filename arcname with
    | inr entry =>
        let a := match get_file zipfile_path (staging w) with
                 | Some a => a
                 | None => []
                 end in
        (Ok tt, set_staging (put_file zipfile_path (a ++ [entry]) (staging w)) w)
    | inl e => (Raise e, w)
    end.

(** [isinstance(e, FileNotFoundError)]. *)
Definition is_FileNotFoundError (e : Exn) : bool :=
  match e with FileNotFoundError _ => true | _ => false end.

(** The body of [for file in self.files] in [run]. *)
Definition write_entry (top zipfile_path : string) (file : PreparedFile) : M unit :=
  if String.eqb (absolute_filepath file) zipfile_path then ret tt
  else
    try_except_FileNotFoundError
      (zip_write top zipfile_path (absolute_filepath file) (filepath file))
      (log "WARNING" ("File missed: " ++ absolute_filepath file)).

Fixpoint write_entries (top zipfile_path : string) (l : list PreparedFile) : M unit :=
  match l with
  | [] => ret tt
  | file :: rest =>
      write_entry top zipfile_path file ;; write_entries top zipfile_path rest
  end.

(** [os.path.exists] on the script's own directory: it exists unless the
    script was started by a bare file name ([dirname] is then empty). *)
Definition temp_back_folder (w : World) : string :=
  if truthy (script_dir w) then script_dir w else abspath (cwd w) (script_dir w).

(** [f"{self.archive_name}_{now}.zip"]. *)
Definition zipfile_name (self : ZipMaker) (w : World) : string :=
  archive_name self ++ "_" ++ now w ++ ".zip".

(** [os.path.join(temp_back_folder, zipfile_name)]. *)
Definition zipfile_path_of (self : ZipMaker) (w : World) : string :=
  join (temp_back_folder w) (zipfile_name self w).

(** [ZipMaker.run]: returns the archive's path; the generator held by the
    object is used up, so the object is returned too. The [with] block
    closes the archive when an exception passes through it: what was
    written stays on disk. *)
Definition run (self : ZipMaker) : M (string * ZipMaker) :=
  fun w =>
    let zipfile_path := zipfile_path_of self w in
    (log "INFO" ("Creating " ++ zipfile_name self w ++ "...") ;;
     zip_open zipfile_path ;;
     (fun w1 =>
        let '(entries, self') := iterate_files (fs w1) (cwd w1) self in
        (write_entries (folder self) zipfile_path entries ;;
         log "INFO" (zipfile_name self w ++ " created") ;;
         ret (zipfile_path, self')) w1)) w.

End ZipRun.

(** ** The Google Drive service behind [self._drive_service] *)

Module Service.
Import PyStr Py.

(** The ID Drive gives to its [n]-th new object. *)
Definition fresh_id (n : nat) : string := "id" ++ decimal n.

(** The IDs of the objects matching the query [parents='parent']. *)
Definition children_of (parent : string) (d : list DriveObject) : list string :=
  map obj_id (filter (fun o => mem parent (obj_parents o)) d).

(** [pageSize=1000]. *)
Definition pageSize : nat := 1000.

(** The object has this ID. *)
Definition has_id (id : string) (o : DriveObject) : bool := String.eqb (obj_id o) id.

(** One [files().delete(fileId=id)] inside a batch, with the call of
    [callback(request_id, response, exception)] that follows it. *)
Definition delete_one (iteration request_id : nat) (id : string) : M unit :=
  fun w =>
    if mem id (undeletable w) || negb (existsb (has_id id) (drive w)) then
      log "WARNING" ("Request #" ++ decimal (iteration * 100 + request_id)
                       ++ " failed: " ++ id) w
    else
      (Ok tt, set_drive (filter (fun o => negb (has_id id o)) (drive w)) (next_id w) w).

(** The requests of a batch are numbered from 1. *)
Fixpoint delete_all (iteration request_id : nat) (ids : list string) : M unit :=
  match ids with
  | [] => ret tt
  | id :: rest =>
      delete_one iteration request_id id ;; delete_all iteration (S request_id) rest
  end.

(** What the service does with a request that reaches it. *)
Definition perform (r : Request) : M Response :=
  match r with
  | FilesCreate name parents media =>
      fun w =>
        let content := match ZipRun.get_file media (staging w) with
                       | Some a => a
                       | None => []
                       end in
        let id := fresh_id (next_id w) in
        let o := {| obj_id := id; obj_name := name;
                    obj_parents := match parents with Some l => l | None => ["root"] end;
                    obj_media := content |} in
        (Ok (RFile id), set_drive (drive w ++ [o]) (S (next_id w)) w)
  | FilesList parent pageToken =>
      fun w =>
        let all := children_of parent (drive w) in
        let start := match pageToken with Some t => t | None => 0 end in
        let next := if Nat.ltb (start + pageSize) (length all) then Some (start + pageSize) else None in
        (Ok (RList (firstn pageSize (skipn start all)) next), w)
  | BatchDelete iteration ids =>
      delete_all iteration 1 ids ;; ret RNone
  end.

(** [request.execute()]: the next entry of [faults] decides whether the
    call fails before reaching the service. *)
Definition execute (r : Request) : M Response :=
  emit (Execute r) ;;
  (fun w =>
     match faults w with
     | Some e :: rest => (Raise e, set_faults rest w)
     | None :: rest => perform r (set_faults rest w)
     | [] => perform r w
     end).

End Service.

(** ** [ConnGoogleDrive] *)

Module ConnGoogleDrive.
Import PyStr PosixPath Py Service.

Record t := {
  config : Config;
  google_drive_backup_folder : option string
}.

(** The exception raised when the token file is missing. *)
Definition no_token : Exn :=
  Exception "No Google OAuth2 token found. Fetch it using --fetch-token argument.".

(** Truthiness of a string or [None]. *)
Definition truthy_opt (x : option string) : bool :=
  match x with Some s => truthy s | None => false end.

Definition __init__ : M t :=
  cfg <- ConfigMixin.__init__ ;;
  (fun w => if token_file w then (Ok tt, w) else (Raise no_token, w)) ;;
  let folder := google_drive_backup_folder_id cfg in
  (if negb (truthy_opt folder) then
     log "WARNING" ("No Google Drive backup folder ID specified. "
                      ++ "The folders will be backed up to the Google Drive root folder")
   else ret tt) ;;
  ret {| config := cfg; google_drive_backup_folder := folder |}.

(** [check_token]. *)
Definition check_token : M unit :=
  fun w => if token_file w then (Ok tt, w) else (Raise no_token, w).

(** [fetch_token]: the interactive exchange ends with the token written. *)
Definition fetch_token : M unit :=
  fun w => if token_file w then (Ok tt, w) else (Ok tt, set_token_file true w).

(** [re.search(pat, s)] for a pattern without metacharacters. *)
Fixpoint contains (pat s : string) : bool :=
  String.prefix pat s
  || match s with
     | EmptyString => false
     | String _ s' => contains pat s'
     end.

(** [re.search(r"HttpError (500|503)", str(e))]. *)
Definition retryable (text : string) : bool :=
  contains "HttpError 500" text || contains "HttpError 503" text.

(** The message of the exhausted-retries error. *)
Definition error_text : string :=
  "Failed to complete request to Google Drive API in 5 attempts due to 500 or 503 error".

(** The turns [n :: rest] of [for n in range(0, 5)]. *)
Fixpoint backoff_loop (request : Request) (turns : list nat) : M Response :=
  match turns with
  | [] => ret RNone
  | n :: rest =>
      try_except_HttpError (execute request)
        (fun text =>
           if negb (retryable text) then
             log "ERROR" ("Failed to complete request to Google Drive API due to error: "
                            ++ text) ;;
             raise (HttpError text)
           else if Nat.eqb n 4 then
             log "ERROR" error_text ;;
             raise (Exception error_text)
           else
             log "DEBUG" ("HTTP error: " ++ substring 11 3 text
                            ++ ". Trying again. Attempt " ++ decimal (n + 1)) ;;
             emit (SleepJitter (2 ^ n)) ;;
             backoff_loop request rest)
  end.

(** [_exponential_backoff(request)]. *)
Definition _exponential_backoff (request : Request) : M Response :=
  backoff_loop request (seq 0 5).

Definition repr (r : Response) : string :=
  match r with
  | RFile id => "{'id': '" ++ id ++ "'}"
  | _ => "None"
  end.

(** [file["id"]]. *)
Definition subscript_id (r : Response) : M string :=
  match r with
  | RFile id => ret id
  | _ => raise (TypeError "object is not subscriptable")
  end.

(** [upload_file]; [MediaFileUpload] opens the file when it is built. The
    content type does not reach the model of the service. *)
Definition upload_file (self : t) (filepath : string) : M string :=
  let filename := basename filepath in
  log "INFO" ("Uploading " ++ filename ++ " to Google Drive...") ;;
  let parents := if truthy_opt (google_drive_backup_folder self)
                 then match google_drive_backup_folder self with
                      | Some f => Some [f]
                      | None => None
                      end
                 else None in
  (fun w => match ZipRun.get_file filepath (staging w) with
            | Some _ => (Ok tt, w)
            | None => (Raise (FileNotFoundError filepath), w)
            end) ;;
  file <- _exponential_backoff (FilesCreate filename parents filepath) ;;
  log "INFO" (filename ++ " uploaded to Google Drive: " ++ repr file) ;;
  subscript_id file.

(** The [while True] loop of [_get_files_in_folder], cut at [fuel] turns. *)
Fixpoint list_pages (fuel : nat) (folder_id : string) (page_token : option nat)
  (results : list string) : M (list string) :=
  match fuel with
  | 0 => fun w => (OutOfFuel, w)
  | S fuel' =>
      response <- _exponential_backoff (FilesList folder_id page_token) ;;
      match response with
      | RList ids next =>
          match next with
          | Some t => list_pages fuel' folder_id (Some t) (results ++ ids)
          | None => ret (results ++ ids)
          end
      | _ => raise (TypeError "response has no get")
      end
  end.

(** [_get_files_in_folder(folder_id)], consumed whole by its caller. *)
Definition _get_files_in_folder (fuel : nat) (folder_id : string) : M (list string) :=
  list_pages fuel folder_id None [].

(** [math.ceil(n / 100)]. *)
Definition ceil_div_100 (n : nat) : nat := (n + 99) / 100.

(** The IDs added to the batch of turn [iteration]:
    [files_to_del[i] for i in range(iteration * 100, min(range_to, len))]. *)
Definition batch_ids (files_to_del : list string) (iteration : nat) : list string :=
  let range_to := iteration * 100 + 100 in
  let stop := if Nat.ltb range_to (length files_to_del) then range_to else length files_to_del in
  map (fun i => nth i files_to_del "") (seq (iteration * 100) (stop - iteration * 100)).

(** The turns of [for iteration in range(iterations)]. *)
Fixpoint delete_loop (files_to_del : list string) (turns : list nat) : M unit :=
  match turns with
  | [] => ret tt
  | iteration :: rest =>
      sleep 2 ;;
      _exponential_backoff (BatchDelete iteration (batch_ids files_to_del iteration)) ;;
      delete_loop files_to_del rest
  end.

(** Lines 318-339: the deletion of [files_to_del]. *)
Definition delete_files (files_to_del : list string) : M unit :=
  let iterations := ceil_div_100 (length files_to_del) in
  delete_loop files_to_del (seq 0 iterations) ;;
  log "INFO" "Old backups files deleted from Google Drive".

(** [clean_backup_folder(actual_files)]. *)
Definition clean_backup_folder (fuel : nat) (self : t) (actual_files : list string) : M unit :=
  match google_drive_backup_folder self with
  | Some folder_id =>
      if truthy folder_id then
        log "INFO" "Deleting old backups files from backup folder in Google Drive..." ;;
        listed <- _get_files_in_folder fuel folder_id ;;
        let files_to_del := filter (fun f => negb (mem f actual_files)) listed in
        delete_files files_to_del
      else
        log "ERROR" "Can't clean backup folder due to non specified Google Drive backup folder id"
  | None =>
      log "ERROR" "Can't clean backup folder due to non specified Google Drive backup folder id"
  end.

End ConnGoogleDrive.

(** ** [make_backup], the worker pool and [main] *)

Module Orchestrator.
Import PyStr PosixPath Py.

(** [os.remove(path)]. *)
Definition os_remove (path : string) : M unit :=
  fun w =>
    match ZipRun.get_file path (staging w) with
    | None => (Raise (FileNotFoundError path), w)
    | Some _ =>
        if mem path (locked w) then (Raise (PermissionError path), w)
        else (Ok tt,
              set_staging (filter (fun e => negb (String.eqb (fst e) path)) (staging w)) w)
    end.

(** [make_backup(folder)]. [SetLogging(...).level(LOG_LEVEL)] only installs
    the log sinks and [log.complete()] only flushes them. *)
Definition make_backup (folder : string) : M string :=
  zm <- ZipRun.ZipMaker_new folder ;;
  r <- ZipRun.run zm ;;
  let zipfile_path := fst r in
  conn <- ConnGoogleDrive.__init__ ;;
  google_drive_file_id <- ConnGoogleDrive.upload_file conn zipfile_path ;;
  os_remove zipfile_path ;;
  ret google_drive_file_id.

(** The first two statements of [make_backup], and the next one. *)
Definition archive_step (folder : string) : M string :=
  zm <- ZipRun.ZipMaker_new folder ;;
  r <- ZipRun.run zm ;;
  ret (fst r).

Definition upload_step (zipfile_path : string) : M string :=
  conn <- ConnGoogleDrive.__init__ ;;
  ConnGoogleDrive.upload_file conn zipfile_path.

(** The order in which the pool's tasks complete: the scheduler picks, again
    and again, one of the tasks still to be reported. *)
Fixpoint pick_order {A} (n : nat) (choices : list nat) (l : list A) : list A :=
  match n with
  | 0 => []
  | S n' =>
      match l with
      | [] => []
      | x :: _ =>
          let k := hd 0 choices mod length l in
          nth k l x :: pick_order n' (tl choices) (firstn k l ++ skipn (S k) l)
      end
  end.

(** The completion order of the tasks [l] under the scheduler's choices. *)
Definition completion_order {A} (choices : list nat) (l : list A) : list A :=
  pick_order (length l) choices l.

(** Every task runs to its end whatever the others do; a task's exception
    is kept as its result. *)
Fixpoint run_tasks (task : string -> M string) (l : list string)
  : World -> list (string * Result string) * World :=
  fun w =>
    match l with
    | [] => ([], w)
    | x :: rest =>
        let '(r, w1) := task x w in
        let '(rs, w2) := run_tasks task rest w1 in
        ((x, r) :: rs, w2)
    end.

(** [pool.imap_unordered(make_backup, folders)] followed by [pool.close()]
    and [pool.join()]: the workers act on their own archives and requests,
    and are run here one after the other in completion order. *)
Definition pool_imap_unordered (task : string -> M string) (l : list string)
  : World -> list (string * Result string) * World :=
  fun w => run_tasks task (completion_order (schedule w) l) w.

(** [[file_id for file_id in result]]: taking a failed task's result from
    the iterator raises the task's exception. *)
Fixpoint collect (results : list (string * Result string)) : M (list string) :=
  match results with
  | [] => ret []
  | (_, Ok file_id) :: rest => ids <- collect rest ;; ret (file_id :: ids)
  | (_, Raise e) :: _ => raise e
  | (_, OutOfFuel) :: _ => fun w => (OutOfFuel, w)
  end.

Record Args := {
  folders : option (list string);     (* [-f/--folders], [nargs="+"] *)
  no_backup_clean : bool;
  fetch_token : bool
}.

(** [list(set(args.folders))]; the order of a set is not fixed, and the
    pool reports in an order of its own anyway. *)
Definition list_set (l : list string) : list string := nodup string_dec l.

(** The folders to back up: the command line first, the configuration else. *)
Definition resolve_folders (args : Args) : M (option (list string)) :=
  match folders args with
  | Some ((_ :: _) as l) => ret (Some (list_set l))
  | _ => cfg <- ConfigMixin.__init__ ;; ret (folders_for_backup cfg)
  end.

(** The body of [main], before [@log.catch]. *)
Definition main_body (fuel : nat) (args : Args) : M unit :=
  (if negb (fetch_token args) then ConnGoogleDrive.check_token
   else ConnGoogleDrive.fetch_token ;; raise (SystemExit 0)) ;;
  resolved <- resolve_folders args ;;
  match resolved with
  | Some ((_ :: _) as l) =>
      result <- (fun w => let '(rs, w') := pool_imap_unordered make_backup l w in (Ok rs, w')) ;;
      if no_backup_clean args then raise (SystemExit 0)
      else
        conn <- ConnGoogleDrive.__init__ ;;
        actual_files <- collect result ;;
        ConnGoogleDrive.clean_backup_folder fuel conn actual_files
  | _ => raise (Exception "No folders for backup")
  end.

(** The text [log.catch] gives for an exception. *)
Definition describe (e : Exn) : string :=
  match e with
  | HttpError text => text
  | FileNotFoundError path => "FileNotFoundError: " ++ path
  | PermissionError path => "PermissionError: " ++ path
  | TypeError msg => "TypeError: " ++ msg
  | ValueError msg => "ValueError: " ++ msg
  | IndexError msg => "IndexError: " ++ msg
  | StructError msg => "struct.error: " ++ msg
  | Exception msg => "Exception: " ++ msg
  | SystemExit code => "SystemExit: " ++ decimal code
  end.

(** [@log.catch] with its default arguments: an [Exception] raised by the
    function is logged at level ERROR and not raised again; the call
    returns [None]. *)
Definition log_catch (f : M unit) : M unit :=
  fun w =>
    match f w with
    | (Raise e, w') =>
        if is_Exception e then
          log "ERROR" ("An error has been caught in function 'main': " ++ describe e) w'
        else (Raise e, w')
    | other => other
    end.

(** [main], decorated. *)
Definition main (fuel : nat) (args : Args) : M unit :=
  log_catch (main_body fuel args).

(** Running the script: [main()] under [if __name__ == "__main__"], and the
    exit status of the process ([None] when the embedding ran out of fuel). *)
Definition run_script (fuel : nat) (args : Args) (w : World) : option nat * World :=
  match main fuel args w with
  | (Ok _, w') => (Some 0, w')
  | (Raise (SystemExit code), w') => (Some code, w')
  | (Raise _, w') => (Some 1, w')
  | (OutOfFuel, w') => (None, w')
  end.

End Orchestrator.

(** ** Reading runs of the script *)

Module Observe.
Import PyStr PosixPath LocalFS Zip Py ZipRun Service ConnGoogleDrive Orchestrator.

(** [isinstance(e, HttpError)] and the pattern matches [str(e)]. *)
Definition retryable_exn (e : Exn) : bool :=
  match e with
  | HttpError text => retryable text
  | _ => false
  end.

(** What one failed, retried attempt [n] leaves in the trace. *)
Definition retry_events (request : Request) (n : nat) (text : string) : list Event :=
  [Execute request;
   Log "DEBUG" ("HTTP error: " ++ substring 11 3 text
                  ++ ". Trying again. Attempt " ++ decimal (n + 1));
   SleepJitter (2 ^ n)].

(** What the failed attempts [n, n+1, ...] leave in the trace. *)
Fixpoint retries_events (request : Request) (n : nat) (texts : list string) : list Event :=
  match texts with
  | [] => []
  | text :: rest => retry_events request n text ++ retries_events request (S n) rest
  end.

(** The world after the attempts [n, n+1, ...] have failed with [texts]. *)
Definition after_retries (request : Request) (n : nat) (texts : list string)
  (rest : list (option Exn)) (w : World) : World :=
  set_faults rest (set_trace (trace w ++ retries_events request n texts) w).

(** The world in which the request reaches the service, the transport
    having let it through after the failures [texts]. *)
Definition reaching_service (request : Request) (texts : list string)
  (rest : list (option Exn)) (w : World) : World :=
  set_faults rest (set_trace (trace w ++ retries_events request 0 texts ++ [Execute request]) w).

(** The IDs submitted for deletion by the requests of a trace, in order. *)
Definition submitted (t : list Event) : list string :=
  flat_map (fun e => match e with
                     | Execute (BatchDelete _ ids) => ids
                     | _ => []
                     end) t.

(** The events of a trace that pace the requests. *)
Definition pacing (t : list Event) : list Event := filter is_pacing t.

(** The events that pace the loop over the batches. *)
Definition loop_pacing (ids : list string) (turns : list nat) : list Event :=
  flat_map (fun i => [Sleep 2; Execute (BatchDelete i (batch_ids ids i))]) turns.

(** The IDs of the batches of the loop, end to end. *)
Definition loop_ids (ids : list string) (turns : list nat) : list string :=
  List.concat (map (batch_ids ids) turns).

(** [c] takes every world to one related to it by [R], however it ends. *)
Definition preserves {A} (R : World -> World -> Prop) (c : M A) : Prop :=
  forall w r w', c w = (r, w') -> R w w'.

(** The local archives are the same in both worlds. *)
Definition same_staging (w w' : World) : Prop := staging w' = staging w.

(** Every object of the first world whose ID is to be kept is in the second. *)
Definition keeps_objects (keep : string -> Prop) (w w' : World) : Prop :=
  forall o, In o (drive w) -> keep (obj_id o) -> In o (drive w').

(** A request that deletes no ID to be kept. *)
Definition spares (keep : string -> Prop) (request : Request) : Prop :=
  match request with
  | BatchDelete _ ids => forall id, In id ids -> ~ keep id
  | _ => True
  end.

(** The offset a page token stands for. *)
Definition token_start (token : option nat) : nat :=
  match token with Some t => t | None => 0 end.


(** A file is on the local disk at [path]. *)
Definition has_file (path : string) (w : World) : Prop :=
  exists a, get_file path (staging w) = Some a.

(** [c] never stops for want of fuel. *)
Definition total {A} (c : M A) : Prop := forall w, fst (c w) <> OutOfFuel.




(** What [main] does once the pool has joined. *)
Definition after_pool (fuel : nat) (args : Args) (results : list (string * Result string))
  : M unit :=
  if no_backup_clean args then raise (SystemExit 0)
  else
    conn <- ConnGoogleDrive.__init__ ;;
    actual_files <- collect results ;;
    ConnGoogleDrive.clean_backup_folder fuel conn actual_files.

End Observe.

(** ** Sample data *)

Module Sample.
Import PyStr PosixPath LocalFS Zip Py.

Definition docs : list Node :=
  [File "a.txt" (Present "A"); Dir "skip" [File "b.txt" (Present "B")]].

Definition pics : list Node := [File "p.png" Denied].

Definition disk : FS :=
  [("docs", docs); ("/srv/pics", pics); ("/srv/skip/docs", [File "a.txt" (Present "A")])].

Definition cfg : Config :=
  {| google_drive_backup_folder_id := Some "F";
     exclude_folder_names := Some ["skip"];
     folders_for_backup := None |}.

Definition old_backup : DriveObject :=
  {| obj_id := "old"; obj_name := "docs_20231231_00-00-00.zip";
     obj_parents := ["F"]; obj_media := [] |}.

Definition world : World :=
  {| fs := disk; cwd := "/home/u"; script_dir := "/opt/backup";
     now := "20240101_00-00-00"; config_file := Some cfg; token_file := true;
     staging := []; locked := []; drive := [old_backup]; next_id := 0;
     undeletable := []; faults := []; schedule := []; trace := [] |}.

Definition with_faults (f : list (option Exn)) : World := set_faults f world.

(** The same host, where the archive of ["docs"] cannot be removed. *)
Definition locked_world : World :=
  {| fs := disk; cwd := "/home/u"; script_dir := "/opt/backup";
     now := "20240101_00-00-00"; config_file := Some cfg; token_file := true;
     staging := []; locked := ["/opt/backup/docs_20240101_00-00-00.zip"];
     drive := [old_backup]; next_id := 0;
     undeletable := []; faults := []; schedule := []; trace := [] |}.

Definition args_of (l : option (list string)) : Orchestrator.Args :=
  {| Orchestrator.folders := l;
     Orchestrator.no_backup_clean := false;
     Orchestrator.fetch_token := false |}.

(** The same host, the script started in [/home/skip] to back up the
    folder [docs] there. *)
Definition skip_cwd_world : World :=
  {| fs := disk; cwd := "/home/skip"; script_dir := "/opt/backup";
     now := "20240101_00-00-00"; config_file := Some cfg; token_file := true;
     staging := []; locked := []; drive := [old_backup]; next_id := 0;
     undeletable := []; faults := []; schedule := []; trace := [] |}.


(** 250 object IDs. *)
Definition ids250 : list string := map decimal (seq 0 250).

End Sample.

(** ** [SetLogging] *)

Module SetLogging.
Import PyStr PosixPath.

(** The exceptions of [SetLogging]: [ValueError] for a level that is not one
    of [LOG_LEVELS], the [Exception] raised for a log file that cannot be
    created, and the [OSError] of loguru when it cannot open the file of a
    sink it is given. *)
Inductive LogExn :=
| ValueError (log_level : string)
| InvalidLogFilepath (log_filepath : string)
| SinkOSError (log_filepath : string).

(** The handlers of loguru's logger. *)
Inductive Sink :=
| DefaultSink                                   (* the handler loguru starts with *)
| StreamSink (level format : string)            (* [log.add(sys.stdout, ...)] *)
| FileSink (path level format : string) (kwargs : list (string * string)).

(** What [SetLogging] acts on. *)
Record Logger := {
  handlers : list Sink;
  intercepted : bool;        (* [logging.basicConfig(handlers=[InterceptHandler()])] has run *)
  log_files : list string;   (* the regular files that exist *)
  unwritable : list string   (* the paths that cannot be opened for writing *)
}.

Record t := {
  log_to_output : bool;
  log_to_file : bool;
  log_filename : string;
  log_dir_path : string;
  log_to_file_kwargs : list (string * string)
}.

Definition LOG_LEVELS : list string := ["DEBUG"; "INFO"; "WARNING"; "ERROR"; "CRITICAL"].

Definition STREAM_FORMATTER : string := "[{process}] {message}".

Definition FILE_FORMATTER : string :=
  "{time} | {level:<8} | {process:<7} | {name}:{function}:{line} – {message}".

(** The module's [LOG_LEVEL] and [LOG_FILENAME]. *)
Definition LOG_LEVEL : string := "INFO".
Definition LOG_FILENAME : string := "log.log".

(** [_create_log_file]: an existing file is returned as it is. *)
Definition _create_log_file (self : t) (st : Logger) : (LogExn + string) * Logger :=
  let log_filepath := join (log_dir_path self) (log_filename self) in
  if mem log_filepath (log_files st) then (inr log_filepath, st)
  else if mem log_filepath (unwritable st) then (inl (InvalidLogFilepath log_filepath), st)
  else (inr log_filepath,
        {| handlers := handlers st; intercepted := intercepted st;
           log_files := log_filepath :: log_files st; unwritable := unwritable st |}).

(** [_validate_log_level]: the exception it raises, if any. *)
Definition _validate_log_level (log_level : string) : option LogExn :=
  if mem log_level LOG_LEVELS then None else Some (ValueError log_level).

(** The keyword arguments of the script's two calls. *)
Definition FILE_SINK_KWARGS : list (string * string) :=
  [("rotation", "20 MB"); ("backtrace", "True"); ("diagnose", "True")].

(** [log.add(path, level=..., format=..., enqueue=True, **kwargs)]: loguru
    opens the file when the sink is added, and the [OSError] of a file that
    cannot be opened for writing leaves [log.add]. The keyword arguments
    are taken to be ones that loguru accepts and that do not delay the
    opening, as [FILE_SINK_KWARGS] are. *)
Definition add_file_sink (path log_level format : string) (kwargs : list (string * string))
  (st : Logger) : (LogExn + unit) * Logger :=
  if mem path (unwritable st) then (inl (SinkOSError path), st)
  else (inr tt,
        {| handlers := handlers st ++ [FileSink path log_level format kwargs];
           intercepted := intercepted st;
           log_files := log_files st; unwritable := unwritable st |}).

(** [level(log_level)]. *)
Definition level (self : t) (log_level : string) (st : Logger) : (LogExn + unit) * Logger :=
  if negb (log_to_output self) && negb (log_to_file self) then (inr tt, st)
  else
    match _validate_log_level log_level with
    | Some e => (inl e, st)
    | None =>
        (* [logging.basicConfig(...)], then [log.remove()] *)
        let removed :=
          {| handlers := []; intercepted := true;
             log_files := log_files st; unwritable := unwritable st |} in
        let with_output :=
          if log_to_output self then
            {| handlers := handlers removed ++ [StreamSink log_level STREAM_FORMATTER];
               intercepted := true;
               log_files := log_files st; unwritable := unwritable st |}
          else removed in
        if log_to_file self then
          match _create_log_file self with_output with
          | (inl e, st') => (inl e, st')
          | (inr path, st') =>
              add_file_sink path log_level FILE_FORMATTER (log_to_file_kwargs self) st'
          end
        else (inr tt, with_output)
    end.

(** The object built by [main] and by every worker:
    [SetLogging(log_filename=LOG_FILENAME, rotation="20 MB", backtrace=True,
    diagnose=True)] in the script's directory. *)
Definition script_logging (script_dir : string) : t :=
  {| log_to_output := true; log_to_file := true;
     log_filename := LOG_FILENAME; log_dir_path := script_dir;
     log_to_file_kwargs := FILE_SINK_KWARGS |}.

End SetLogging.

(** ** [ConfigMixin.read_yaml_config] for any path *)

Module Yaml.
Import PyStr PosixPath Py.

(** [s.endswith(suffix)]. *)
Definition str_endswith (suffix s : string) : bool :=
  Nat.leb (String.length suffix) (String.length s)
  && String.eqb (substring (String.length s - String.length suffix)
                   (String.length suffix) s) suffix.

(** The double quote. *)
Definition dq : string := String (Ascii.ascii_of_nat 34) EmptyString.

Definition invalid_type_message : string :=
  "Invalid config file type. Only " ++ dq ++ ".yml" ++ dq ++ " or "
    ++ dq ++ ".yaml" ++ dq ++ " supported.".

Section ReadYaml.
(** The YAML files of the host: what [yaml.safe_load] gives for the file at
    a path, [None] when there is no file. *)
Variable yaml_at : string -> option Config.

(** [read_yaml_config(filepath)]. *)
Definition read_yaml_config (filepath : string) : M Config :=
  if negb (str_endswith "yml" (basename filepath) || str_endswith "yaml" (basename filepath))
  then raise (TypeError invalid_type_message)
  else
    match yaml_at filepath with
    | Some cfg => ret cfg
    | None =>
        (log "ERROR" ("Config file not found: " ++ filepath) ;;
         raise (FileNotFoundError filepath))%py
    end.

End ReadYaml.

End Yaml.

(** ** Vocabulary for the further properties *)

Module More.
Import PyStr PosixPath LocalFS Zip Py ZipRun Service ConnGoogleDrive Orchestrator.

(** [path] is a file listed by one of the walked directories. *)
Definition walked_path (entries : list WalkEntry) (path : string) : Prop :=
  exists address ds names file,
    In (address, ds, names) entries /\ In file names /\ path = join address file.

(** The files below a node are the files the walk lists. *)
Definition node_paths_agree (n : Node) : Prop :=
  forall top path,
    In path (map fst (files_of_node top n))
    <-> match n with
        | File f _ => path = join top f
        | Dir _ _ => walked_path (walk_node top n) path
        end.







(** The second world differs from the first in its local archives and its
    trace only, and no request was made in between. *)
Definition local_only (w w' : World) : Prop :=
  fs w' = fs w /\ cwd w' = cwd w /\ script_dir w' = script_dir w /\ now w' = now w
  /\ config_file w' = config_file w /\ token_file w' = token_file w
  /\ locked w' = locked w /\ drive w' = drive w /\ next_id w' = next_id w
  /\ undeletable w' = undeletable w /\ faults w' = faults w
  /\ schedule w' = schedule w
  /\ invocations (trace w') = invocations (trace w).

(** The [parents] entry of the metadata sent by [upload_file]. *)
Definition upload_parents (self : ConnGoogleDrive.t) : option (list string) :=
  match google_drive_backup_folder self with
  | Some f => if truthy f then Some [f] else None
  | None => None
  end.

(** The object Drive creates for an upload. *)
Definition uploaded_object (self : ConnGoogleDrive.t) (filepath : string) (w : World)
  : DriveObject :=
  {| obj_id := fresh_id (next_id w);
     obj_name := basename filepath;
     obj_parents := match upload_parents self with Some l => l | None => ["root"] end;
     obj_media := match get_file filepath (staging w) with Some a => a | None => [] end |}.

(** The number of list requests needed for [n] IDs still to be listed. *)
Definition pages_needed (n : nat) : nat := S ((n - 1) / pageSize).

(** The event is a list request for the folder. *)
Definition is_list_request (folder_id : string) (e : Event) : Prop :=
  exists token, e = Execute (FilesList folder_id token).

(** Drive holds the same objects, and refuses the same deletions. *)
Definition same_drive (w w' : World) : Prop :=
  drive w' = drive w /\ undeletable w' = undeletable w.

(** The hundred IDs (or fewer, at the end) of batch [i]. *)
Definition chunk (ids : list string) (i : nat) : list string :=
  firstn 100 (skipn (i * 100) ids).

(** The pauses with a random fraction found in a trace, by their whole part. *)
Definition jitters (t : list Event) : list nat :=
  flat_map (fun e => match e with SleepJitter n => [n] | _ => [] end) t.

(** The warnings that [callback] logs for a batch whose deletions Drive
    refuses for the IDs in [refused]; [request_id] numbers the first one. *)
Fixpoint refusals (iteration request_id : nat) (ids refused : list string) : list Event :=
  match ids with
  | [] => []
  | id :: rest =>
      (if mem id refused
       then [Log "WARNING" ("Request #" ++ decimal (iteration * 100 + request_id)
                              ++ " failed: " ++ id)]
       else [])
        ++ refusals iteration (S request_id) rest refused
  end.

End More.

(** * Facts about the embedding *)

(** ** Splitting and joining paths *)

Module PathFacts.
Import PyStr PosixPath.

Lemma split_not_nil c s : split c s <> [].
Proof.
  destruct s as [|a s]; simpl; [discriminate|].
  destruct (Ascii.eqb a c); [discriminate|].
  destruct (split c s); discriminate.
Qed.

Lemma split_app_sep c a b :
  split c (a ++ String c b) = split c a ++ split c b.
Proof.
  induction a as [|x a IH]; simpl.
  - rewrite Ascii.eqb_refl. reflexivity.
  - destruct (Ascii.eqb x c); [now rewrite IH|].
    rewrite IH. destruct (split c a) eqn:E; [destruct (split_not_nil _ _ E)|].
    reflexivity.
Qed.

Lemma split_no_sep c f : has_char c f = false -> split c f = [f].
Proof.
  induction f as [|x f IH]; simpl; intros H; [reflexivity|].
  apply orb_false_iff in H as [Hx Hf].
  rewrite Hx, (IH Hf). reflexivity.
Qed.

Lemma split_app_no_sep c a f :
  has_char c f = false ->
  split c (a ++ f) = removelast (split c a) ++ [(last (split c a) "" ++ f)%string].
Proof.
  intros Hf. induction a as [|x a IH]; simpl.
  - now apply split_no_sep.
  - destruct (Ascii.eqb x c).
    + rewrite IH. destruct (split c a) eqn:E; [destruct (split_not_nil _ _ E)|].
      reflexivity.
    + rewrite IH. destruct (split c a) as [|h t] eqn:E; [destruct (split_not_nil _ _ E)|].
      destruct t as [|h' t']; reflexivity.
Qed.

Lemma last_split_endswith c a :
  endswith c a = true -> last (split c a) "" = "".
Proof.
  induction a as [|x a IH]; simpl; [discriminate|].
  destruct a as [|y a'].
  - intros H. rewrite H. reflexivity.
  - intros H. specialize (IH H).
    destruct (Ascii.eqb x c).
    + destruct (split c (String y a')) eqn:E; [destruct (split_not_nil _ _ E)|].
      exact IH.
    + destruct (split c (String y a')) as [|h t] eqn:E; [destruct (split_not_nil _ _ E)|].
      destruct t; [|exact IH].
      simpl in IH. subst h. 
      (* the last component is empty, yet it starts with [x] *)
      exfalso. clear -E.
      simpl in E. destruct (Ascii.eqb y c).
      * injection E as E. destruct (split_not_nil _ _ E).
      * destruct (split c a'); discriminate.
Qed.

Lemma startswith_no_sep c f : has_char c f = false -> startswith c f = false.
Proof.
  destruct f as [|x f]; simpl; [reflexivity|].
  intros H. now apply orb_false_iff in H as [Hx _].
Qed.


Lemma In_last_or_removelast {A} (x d : A) l :
  In x l -> In x (removelast l) \/ x = last l d.
Proof.
  induction l as [|y l IH]; simpl; [tauto|].
  destruct l as [|z l].
  - intros [->|[]]. now right.
  - intros [->|H]; [left; now left|].
    destruct (IH H) as [H'|H']; [left; now right|now right].
Qed.

(** When [join] glues [a] and [b] without a separator, [a] is empty or
    ends with one: its last component is empty. *)
Lemma last_split_glued a :
  negb (truthy a) || endswith sep a = true -> last (split sep a) "" = "".
Proof.
  destruct a as [|x a]; [reflexivity|].
  intros H. apply last_split_endswith. exact H.
Qed.


(** A non-empty component of [a] is still a component of [join a d]. *)
Lemma split_join_keeps a d e :
  has_char sep d = false -> e <> "" ->
  In e (split sep a) -> In e (split sep (join a d)).
Proof.
  intros Hd He Hin. unfold join.
  rewrite (startswith_no_sep _ _ Hd).
  destruct (negb (truthy a) || endswith sep a) eqn:G.
  - rewrite (split_app_no_sep _ _ _ Hd).
    destruct (In_last_or_removelast e "" _ Hin) as [H|H].
    + apply in_or_app. now left.
    + rewrite (last_split_glued _ G) in H. contradiction.
  - rewrite split_app_sep. apply in_or_app. now left.
Qed.

End PathFacts.

(** ** The walk *)

Module WalkFacts.
Import PyStr PosixPath LocalFS PathFacts.

Lemma lookup_dir_wf fs p children :
  wf_fs fs = true -> lookup_dir fs p = Some children ->
  forallb wf_node children = true.
Proof.
  induction fs as [|[q c] fs IH]; simpl; [discriminate|].
  intros H. apply andb_true_iff in H as [Hc Hfs].
  destruct (String.eqb q p); [intros [= <-]; exact Hc|now apply IH].
Qed.

Lemma filenames_wf children f :
  forallb wf_node children = true -> In f (filenames children) ->
  has_char sep f = false.
Proof.
  unfold filenames. intros H Hin.
  apply in_flat_map in Hin as [n [Hn Hf]].
  rewrite forallb_forall in H. specialize (H n Hn).
  destruct n as [g st|d ch]; simpl in *; [|contradiction].
  destruct Hf as [->|[]]. now apply negb_true_iff in H.
Qed.

(** What [os.walk] yields below [top]: file names are well formed and the
    non-empty components of [top] are components of every address. *)
Lemma walk_node_spec n :
  forall top address ds names,
    wf_node n = true ->
    In (address, ds, names) (walk_node top n) ->
    (forall f, In f names -> has_char sep f = false)
    /\ (forall e, e <> "" -> In e (split sep top) -> In e (split sep address)).
Proof.
  induction n as [f st|d children IH] using Node_ind'; intros top address ds names Hwf Hin.
  - destruct Hin.
  - simpl in Hwf. apply andb_true_iff in Hwf as [Hd Hch].
    apply negb_true_iff in Hd.
    simpl in Hin. destruct Hin as [Heq|Hin].
    + injection Heq as <- <- <-. split.
      * intros f. now apply filenames_wf.
      * intros e He. now apply split_join_keeps.
    + apply in_flat_map in Hin as [n [Hn Hin]].
      rewrite Forall_forall in IH. rewrite forallb_forall in Hch.
      destruct (IH n Hn _ _ _ _ (Hch n Hn) Hin) as [H1 H2].
      split; [exact H1|].
      intros e He Htop. apply H2; [exact He|]. now apply split_join_keeps.
Qed.

Lemma os_walk_spec fs top address ds names :
  wf_fs fs = true ->
  In (address, ds, names) (os_walk fs top) ->
  (forall f, In f names -> has_char sep f = false)
  /\ (forall e, e <> "" -> In e (split sep top) -> In e (split sep address)).
Proof.
  intros Hwf. unfold os_walk.
  destruct (negb (truthy top)); [intros []|].
  destruct (lookup_dir fs top) as [children|] eqn:L; [|intros []].
  pose proof (lookup_dir_wf _ _ _ Hwf L) as Hch.
  unfold walk_dir. intros [Heq|Hin].
  - injection Heq as <- <- <-. split; [intros f; now apply filenames_wf|tauto].
  - apply in_flat_map in Hin as [n [Hn Hin]].
    rewrite forallb_forall in Hch.
    exact (walk_node_spec n _ _ _ _ (Hch n Hn) Hin).
Qed.

End WalkFacts.

(** ** Traversal with exclusions *)

Module TraversalFacts.
Import PyStr PosixPath LocalFS Zip PathFacts WalkFacts.

Lemma mem_In x l : mem x l = true <-> In x l.
Proof.
  unfold mem. rewrite existsb_exists. split.
  - intros [y [Hy E]]. apply String.eqb_eq in E. now subst.
  - intros H. exists x. split; [exact H|apply String.eqb_refl].
Qed.


Lemma validate_path_true self names path e :
  _exclude_folder_names self = Some names ->
  In e names -> In e (split sep path) ->
  _validate_path self path = true.
Proof.
  unfold _validate_path. intros -> He Hin.
  destruct names as [|n names]; [destruct He|].
  apply existsb_exists. exists e. split; [exact He|now apply mem_In].
Qed.

(** Where a prepared entry comes from. *)
Lemma prepared_origin cwd self l :
  forall st p,
    In p (prepared_files (fold_left (prepare_step cwd self) l st)) ->
    In p (prepared_files st)
    \/ exists address ds names file,
        In (address, ds, names) l
        /\ _validate_path self address = false
        /\ In file names
        /\ absolute_filepath p = join address file.
Proof.
  induction l as [|[[address ds] names] l IH]; intros st p H; [now left|].
  simpl in H. apply IH in H as [H|H].
  - unfold prepare_step in H.
    destruct (_validate_path self address) eqn:V; [now left|].
    simpl in H. apply in_app_or in H as [H|H]; [now left|].
    apply in_map_iff in H as [file [<- Hfile]].
    right. exists address, ds, names, file. simpl. auto.
  - right. destruct H as (a & d & n & f & Hin & Hrest).
    exists a, d, n, f. split; [now right|exact Hrest].
Qed.

(** When every walked directory is excluded the loop changes nothing. *)
Lemma all_excluded_fold cwd self l :
  Forall (fun e => _validate_path self (fst (fst e)) = true) l ->
  forall st, fold_left (prepare_step cwd self) l st = st.
Proof.
  induction 1 as [|[[address ds] names] l Hx _ IH]; intros st; [reflexivity|].
  simpl in *. rewrite Hx. apply IH.
Qed.

End TraversalFacts.

(** ** The retry wrapper *)

Module RetryFacts.
Import Observe.
Import PyStr Py Service ConnGoogleDrive.

Lemma seq_turns n : n <= 4 -> seq n (5 - n) = n :: seq (S n) (5 - S n).
Proof.
  intros H. replace (5 - n) with (S (5 - S n)) by lia. reflexivity.
Qed.

Lemma invocations_app t u : invocations (t ++ u) = invocations t + invocations u.
Proof. unfold invocations. now rewrite filter_app, length_app. Qed.

Lemma invocations_execute t r : invocations (t ++ [Execute r]) = invocations t + 1.
Proof. now rewrite invocations_app. Qed.

Lemma invocations_log t level msg : invocations (t ++ [Log level msg]) = invocations t.
Proof. rewrite invocations_app. apply Nat.add_0_r. Qed.

Lemma invocations_sleep t n : invocations (t ++ [Sleep n]) = invocations t.
Proof. rewrite invocations_app. apply Nat.add_0_r. Qed.

Lemma invocations_jitter t n : invocations (t ++ [SleepJitter n]) = invocations t.
Proof. rewrite invocations_app. apply Nat.add_0_r. Qed.

#[local] Arguments invocations : simpl never.

Create Rewrite HintDb trace_db.
#[export] Hint Rewrite invocations_execute invocations_log invocations_sleep
  invocations_jitter invocations_app : trace_db.

Ltac trace_simpl :=
  cbn [trace faults set_trace set_faults set_staging set_drive set_token_file];
  autorewrite with trace_db.

Lemma invocations_retries request n texts :
  invocations (retries_events request n texts) = length texts.
Proof.
  revert n. induction texts as [|t texts IH]; intros n; [reflexivity|].
  simpl. change (invocations (Execute request :: ?l)) with (S (invocations l)).
  unfold invocations in *. simpl. now rewrite IH.
Qed.

#[local] Arguments String.append : simpl never.
#[local] Arguments substring : simpl never.
#[local] Arguments decimal : simpl never.
#[local] Arguments Nat.pow : simpl never.

(** One retryable failure moves the loop to its next turn. *)
Lemma backoff_loop_retry request n turns text rest w :
  n <> 4 ->
  retryable text = true ->
  faults w = Some (HttpError text) :: rest ->
  backoff_loop request (n :: turns) w
  = backoff_loop request turns (after_retries request n [text] rest w).
Proof.
  intros Hn Ht Hf. simpl backoff_loop.
  unfold try_except_HttpError, execute, bind, emit. cbn. rewrite Hf. cbn. rewrite Ht. cbn.
  destruct (Nat.eqb_spec n 4) as [E|_]; [contradiction|].
  unfold bind, log, emit. cbn.
  f_equal. unfold after_retries, set_faults, set_trace. cbn.
  f_equal. now rewrite <- !app_assoc.
Qed.

Lemma after_retries_cons request n text texts rest mid w :
  after_retries request (S n) texts rest (after_retries request n [text] mid w)
  = after_retries request n (text :: texts) rest w.
Proof.
  unfold after_retries, set_faults, set_trace. cbn.
  f_equal. now rewrite <- app_assoc.
Qed.

(** Retryable failures move the loop on, one turn each. *)
Lemma backoff_loop_retries request texts :
  forall n w rest,
    n + length texts <= 4 ->
    Forall (fun t => retryable t = true) texts ->
    faults w = http_faults texts ++ rest ->
    backoff_loop request (seq n (5 - n)) w
    = backoff_loop request (seq (n + length texts) (5 - (n + length texts)))
        (after_retries request n texts rest w).
Proof.
  induction texts as [|t texts IH]; intros n w rest Hn Hall Hf.
  - simpl in *. rewrite Nat.add_0_r. unfold after_retries.
    simpl. rewrite app_nil_r. destruct w; simpl in *. now subst.
  - simpl in Hn. inversion Hall as [|? ? Ht Hall']; subst.
    rewrite seq_turns by lia.
    rewrite (backoff_loop_retry request n _ t (http_faults texts ++ rest) w)
      by (auto; lia).
    rewrite (IH (S n) _ rest) by (auto; lia).
    rewrite after_retries_cons.
    simpl length. now rewrite Nat.add_succ_r.
Qed.

(** The service answers every request that reaches it; it invokes nothing
    and leaves the transport's script alone. *)
Lemma delete_all_total iteration ids :
  forall request_id w,
  exists w',
    delete_all iteration request_id ids w = (Ok tt, w')
    /\ invocations (trace w') = invocations (trace w)
    /\ faults w' = faults w.
Proof.
  induction ids as [|id ids IH]; intros request_id w.
  - exists w. now repeat split.
  - simpl. unfold bind, delete_one.
    destruct (mem id (undeletable w) || negb (existsb (has_id id) (drive w))).
    + unfold log, emit.
      destruct (IH (S request_id)
                  (set_trace (trace w ++ [Log "WARNING"
                     ("Request #" ++ decimal (iteration * 100 + request_id)
                        ++ " failed: " ++ id)]) w))
        as (w' & E & Hi & Hf).
      exists w'. rewrite E. repeat split; [|exact Hf].
      rewrite Hi. now trace_simpl.
    + destruct (IH (S request_id)
                  (set_drive (filter (fun o => negb (has_id id o)) (drive w)) (next_id w) w))
        as (w' & E & Hi & Hf).
      exists w'. rewrite E. now repeat split.
Qed.

Lemma perform_total request w :
  exists v w',
    perform request w = (Ok v, w')
    /\ invocations (trace w') = invocations (trace w)
    /\ faults w' = faults w.
Proof.
  destruct request as [name parents media|parent token|iteration ids]; simpl.
  - eexists _, _. now repeat split.
  - eexists _, _. now repeat split.
  - unfold bind. destruct (delete_all_total iteration ids 1 w) as (w' & E & Hi & Hf).
    rewrite E. exists RNone, w'. now repeat split.
Qed.

Lemma backoff_loop_through request n turns rest w :
  faults w = None :: rest \/ (faults w = [] /\ rest = []) ->
  backoff_loop request (n :: turns) w
  = perform request (set_faults rest (set_trace (trace w ++ [Execute request]) w)).
Proof.
  intros Hf. simpl backoff_loop. unfold try_except_HttpError, execute, bind, emit. cbn.
  destruct Hf as [Hf|[Hf ->]]; rewrite Hf.
  - destruct (perform_total request
                (set_faults rest (set_trace (trace w ++ [Execute request]) w)))
      as (v & w' & E & _).
    now rewrite E.
  - replace (set_faults [] (set_trace (trace w ++ [Execute request]) w))
      with (set_trace (trace w ++ [Execute request]) w)
      by (unfold set_faults, set_trace; cbn; now rewrite Hf).
    destruct (perform_total request (set_trace (trace w ++ [Execute request]) w))
      as (v & w' & E & _).
    now rewrite E.
Qed.

(** A failure that is not retryable leaves the loop at once. *)
Lemma backoff_loop_terminal request n turns e rest w :
  retryable_exn e = false ->
  faults w = Some e :: rest ->
  exists w',
    backoff_loop request (n :: turns) w = (Raise e, w')
    /\ invocations (trace w') = invocations (trace w) + 1
    /\ faults w' = rest.
Proof.
  intros He Hf. simpl backoff_loop.
  unfold try_except_HttpError, execute, bind, emit. cbn. rewrite Hf.
  destruct e as [text| | | | | | | |]; simpl in He;
    try (eexists; split; [reflexivity|split; [|reflexivity]];
         now trace_simpl).
  rewrite He. cbn. unfold bind, log, emit, raise. cbn.
  eexists; split; [reflexivity|split; [|reflexivity]].
  now trace_simpl.
Qed.

(** A retryable failure on the last turn ends in the exhausted-retries error. *)
Lemma backoff_loop_exhausted request turns text rest w :
  retryable text = true ->
  faults w = Some (HttpError text) :: rest ->
  exists w',
    backoff_loop request (4 :: turns) w = (Raise (Exception error_text), w')
    /\ invocations (trace w') = invocations (trace w) + 1
    /\ faults w' = rest.
Proof.
  intros Ht Hf. simpl backoff_loop.
  unfold try_except_HttpError, execute, bind, emit. cbn. rewrite Hf. cbn.
  rewrite Ht. cbn. unfold bind, log, emit, raise. cbn.
  eexists; split; [reflexivity|split; [|reflexivity]].
  now trace_simpl.
Qed.

Lemma reaching_service_after request texts rest w :
  let w1 := after_retries request 0 texts (None :: rest) w in
  set_faults rest (set_trace (trace w1 ++ [Execute request]) w1)
  = reaching_service request texts rest w.
Proof.
  unfold reaching_service, after_retries, set_faults, set_trace. cbn.
  f_equal. now rewrite <- app_assoc.
Qed.

Lemma invocations_after_retries request n texts rest w :
  invocations (trace (after_retries request n texts rest w))
  = invocations (trace w) + length texts.
Proof.
  unfold after_retries. trace_simpl. now rewrite invocations_retries.
Qed.

Lemma faults_after_retries request n texts rest w :
  faults (after_retries request n texts rest w) = rest.
Proof. reflexivity. Qed.

(** The text of an [HttpError] starts with its status: ["<HttpError 500 ..."].
    Those of status 500 and 503 match the pattern. *)
Lemma retryable_status rest :
  retryable ("<HttpError 500 " ++ rest) = true
  /\ retryable ("<HttpError 503 " ++ rest) = true.
Proof.
  split; unfold retryable; cbn; [reflexivity|].
  apply orb_true_r.
Qed.

(** With a transport that never fails, the wrapper is one call. *)
Lemma exponential_backoff_no_faults request w :
  faults w = [] ->
  _exponential_backoff request w
  = perform request (set_trace (trace w ++ [Execute request]) w).
Proof.
  intros Hf. unfold _exponential_backoff. simpl seq.
  rewrite (backoff_loop_through request 0 _ [] w) by (right; now split).
  f_equal. unfold set_faults, set_trace. cbn. now rewrite Hf.
Qed.

End RetryFacts.

(** ** Batches of deletions *)

Module BatchFacts.
Import Observe.
Import PyStr Py Service ConnGoogleDrive RetryFacts.

#[local] Arguments String.append : simpl never.
#[local] Arguments decimal : simpl never.

Lemma map_nth_seq {A} (d : A) (l : list A) :
  forall a n, a + n <= length l ->
              map (fun i => nth i l d) (seq a n) = firstn n (skipn a l).
Proof.
  induction l as [|x l IH]; intros a n H.
  - simpl in H. assert (a = 0) by lia. assert (n = 0) by lia. now subst.
  - destruct a as [|a].
    + destruct n as [|n]; [reflexivity|].
      simpl. f_equal. rewrite <- seq_shift, map_map.
      simpl in H. apply (IH 0 n). lia.
    + rewrite <- seq_shift, map_map. simpl in *. apply IH. lia.
Qed.

(** A batch is the next hundred IDs, or what is left of them. *)
Lemma batch_ids_chunk ids iteration :
  iteration * 100 <= length ids ->
  batch_ids ids iteration = firstn 100 (skipn (iteration * 100) ids).
Proof.
  intros H. unfold batch_ids.
  destruct (Nat.ltb_spec (iteration * 100 + 100) (length ids)) as [L|L].
  - rewrite map_nth_seq by lia. f_equal. lia.
  - rewrite map_nth_seq by lia.
    rewrite !firstn_all2; [reflexivity| |]; rewrite length_skipn; lia.
Qed.

Lemma chunks_concat (ids : list string) :
  forall m, length ids <= m * 100 ->
    List.concat (map (fun i => firstn 100 (skipn (i * 100) ids)) (seq 0 m)) = ids.
Proof.
  intros m. revert ids. induction m as [|m IH]; intros ids H.
  - destruct ids; [reflexivity|simpl in H; lia].
  - rewrite <- cons_seq, <- seq_shift, map_cons, map_map, concat_cons.
    change (0 * 100) with 0. rewrite skipn_O.
    transitivity (firstn 100 ids ++ skipn 100 ids); [|apply firstn_skipn].
    f_equal.
    etransitivity; [|apply (IH (skipn 100 ids)); rewrite length_skipn; lia].
    f_equal. apply map_ext. intros i.
    rewrite skipn_skipn. replace (S i * 100) with (i * 100 + 100) by lia.
    reflexivity.
Qed.

Lemma pacing_app t u : pacing (t ++ u) = pacing t ++ pacing u.
Proof. apply filter_app. Qed.

(** What the deletions of one batch do. *)
Lemma delete_all_spec iteration ids :
  forall request_id w,
  exists w' logs,
    delete_all iteration request_id ids w = (Ok tt, w')
    /\ trace w' = trace w ++ logs
    /\ pacing logs = []
    /\ faults w' = faults w
    /\ undeletable w' = undeletable w
    /\ (forall o, In o (drive w') -> In o (drive w))
    /\ (forall o, In o (drive w) -> ~ In (obj_id o) ids -> In o (drive w'))
    /\ (forall o, In o (drive w') -> In (obj_id o) ids -> In (obj_id o) (undeletable w)).
Proof.
  induction ids as [|id ids IH]; intros request_id w.
  - exists w, []. simpl. rewrite app_nil_r. repeat apply conj; auto. intros o _ [].
  - simpl. unfold bind, delete_one.
    set (warning := Log "WARNING" ("Request #" ++ decimal (iteration * 100 + request_id)
                                     ++ " failed: " ++ id)).
    destruct (mem id (undeletable w) || negb (existsb (has_id id) (drive w))) eqn:G.
    + unfold log, emit. fold warning.
      destruct (IH (S request_id) (set_trace (trace w ++ [warning]) w))
        as (w' & logs & E & Ht & Hp & Hf & Hu & H1 & H2 & H3).
      rewrite E. exists w', (warning :: logs). cbn in *.
      rewrite Ht, <- app_assoc.
      repeat apply conj; [reflexivity|reflexivity|exact Hp|exact Hf|exact Hu|exact H1| |].
      * intros o Ho Hn. apply H2; tauto.
      * intros o Ho [Heq|Hin]; [|now apply H3].
        rewrite <- Heq.
        apply orb_true_iff in G as [G|G]; [now apply TraversalFacts.mem_In|].
        exfalso. apply negb_true_iff in G.
        assert (existsb (has_id id) (drive w) = true) as C.
        { apply existsb_exists. exists o. split; [now apply H1|].
          unfold has_id. rewrite Heq. apply String.eqb_refl. }
        congruence.
    + destruct (IH (S request_id)
                  (set_drive (filter (fun o => negb (has_id id o)) (drive w)) (next_id w) w))
        as (w' & logs & E & Ht & Hp & Hf & Hu & H1 & H2 & H3).
      rewrite E. exists w', logs. cbn in *.
      repeat apply conj; [reflexivity|exact Ht|exact Hp|exact Hf|exact Hu| | |].
      * intros o Ho. apply H1 in Ho. now apply filter_In in Ho.
      * intros o Ho Hn. apply H2; [|tauto]. apply filter_In. split; [exact Ho|].
        unfold has_id. apply negb_true_iff. apply String.eqb_neq.
        intros C. apply Hn. left. now symmetry.
      * intros o Ho [Heq|Hin]; [|now apply H3].
        apply H1 in Ho. apply filter_In in Ho as [_ Ho].
        unfold has_id in Ho. rewrite Heq, String.eqb_refl in Ho. discriminate.
Qed.

Lemma batch_ids_incl ids iteration x :
  In x (batch_ids ids iteration) -> In x ids.
Proof.
  unfold batch_ids. intros H. apply in_map_iff in H as [i [<- Hi]].
  apply in_seq in Hi. apply nth_In.
  destruct (Nat.ltb_spec (iteration * 100 + 100) (length ids)); lia.
Qed.

(** The loop over the batches when the transport never fails. *)
Lemma delete_loop_no_faults ids turns :
  forall w,
    faults w = [] ->
    exists w' evs,
      delete_loop ids turns w = (Ok tt, w')
      /\ trace w' = trace w ++ evs
      /\ pacing evs = loop_pacing ids turns
      /\ faults w' = []
      /\ undeletable w' = undeletable w
      /\ (forall o, In o (drive w') -> In o (drive w))
      /\ (forall o, In o (drive w) -> ~ In (obj_id o) ids -> In o (drive w'))
      /\ (forall o, In o (drive w') -> In (obj_id o) (loop_ids ids turns) ->
                    In (obj_id o) (undeletable w)).
Proof.
  induction turns as [|i turns IH]; intros w Hf.
  - exists w, []. simpl. rewrite app_nil_r.
    repeat apply conj; auto. intros o _ [].
  - simpl delete_loop. unfold bind at 1, sleep, emit.
    unfold bind at 1.
    rewrite exponential_backoff_no_faults by exact Hf.
    simpl perform. unfold bind at 1.
    destruct (delete_all_spec i (batch_ids ids i) 1
                (set_trace ((trace w ++ [Sleep 2])
                              ++ [Execute (BatchDelete i (batch_ids ids i))])
                   (set_trace (trace w ++ [Sleep 2]) w)))
      as (w1 & logs & E & Ht & Hp & Hf1 & Hu1 & A1 & A2 & A3).
    cbn [trace set_trace] in E. rewrite E. unfold ret.
    cbn [trace faults undeletable drive set_trace] in *.
    destruct (IH w1) as (w' & evs & E' & Ht' & Hp' & Hf' & Hu' & B1 & B2 & B3);
      [congruence|].
    rewrite E'.
    exists w', ([Sleep 2; Execute (BatchDelete i (batch_ids ids i))] ++ logs ++ evs).
    repeat apply conj.
    + reflexivity.
    + rewrite Ht', Ht. now rewrite <- !app_assoc.
    + rewrite !pacing_app, Hp, Hp'. reflexivity.
    + exact Hf'.
    + congruence.
    + auto.
    + intros o Ho Hn. apply B2; [|exact Hn]. apply A2; [exact Ho|].
      intros C. apply Hn. now apply batch_ids_incl in C.
    + intros o Ho Hin. unfold loop_ids in Hin. simpl in Hin.
      apply in_app_or in Hin as [Hin|Hin].
      * apply A3; [now apply B1|exact Hin].
      * rewrite <- Hu1. now apply B3.
Qed.

End BatchFacts.

(** ** What a computation leaves alone *)

Module FrameFacts.
Import Observe.
Import PyStr Py Service ConnGoogleDrive.

Section Frame.
Variable R : World -> World -> Prop.
Variable allowed : Request -> Prop.
Hypothesis R_refl : forall w, R w w.
Hypothesis R_trans : forall w1 w2 w3, R w1 w2 -> R w2 w3 -> R w1 w3.
Hypothesis R_trace : forall w t, R w (set_trace t w).
Hypothesis R_faults : forall w f, R w (set_faults f w).
Hypothesis R_perform : forall request, allowed request -> preserves R (perform request).

Lemma preserves_ret {A} (a : A) : preserves R (ret a).
Proof. intros w r w' [= _ <-]. apply R_refl. Qed.

Lemma preserves_raise {A} (e : Exn) : preserves R (@raise A e).
Proof. intros w r w' [= _ <-]. apply R_refl. Qed.

Lemma preserves_emit e : preserves R (emit e).
Proof. intros w r w' [= _ <-]. apply R_trace. Qed.

Lemma preserves_log level msg : preserves R (log level msg).
Proof. apply preserves_emit. Qed.

Lemma preserves_bind {A B} (c : M A) (k : A -> M B) :
  preserves R c -> (forall a, preserves R (k a)) -> preserves R (bind c k).
Proof.
  intros Hc Hk w r w' E. unfold bind in E.
  destruct (c w) as [[a|e|] w1] eqn:C.
  - eapply R_trans; [exact (Hc _ _ _ C)|exact (Hk a _ _ _ E)].
  - injection E as _ <-. exact (Hc _ _ _ C).
  - injection E as _ <-. exact (Hc _ _ _ C).
Qed.

Lemma preserves_try_http {A} (c : M A) (h : string -> M A) :
  preserves R c -> (forall text, preserves R (h text)) ->
  preserves R (try_except_HttpError c h).
Proof.
  intros Hc Hh w r w' E. unfold try_except_HttpError in E.
  destruct (c w) as [[a|e|] w1] eqn:C.
  - injection E as _ <-. exact (Hc _ _ _ C).
  - destruct e; try (injection E as _ <-; exact (Hc _ _ _ C)).
    eapply R_trans; [exact (Hc _ _ _ C)|exact (Hh _ _ _ _ E)].
  - injection E as _ <-. exact (Hc _ _ _ C).
Qed.

Lemma preserves_execute request : allowed request -> preserves R (execute request).
Proof.
  intros Ha. unfold execute. apply preserves_bind; [apply preserves_emit|].
  intros _ w r w' E.
  destruct (faults w) as [|[e|] rest].
  - exact (R_perform _ Ha _ _ _ E).
  - injection E as _ <-. apply R_faults.
  - eapply R_trans; [apply (R_faults w rest)|exact (R_perform _ Ha _ _ _ E)].
Qed.

Lemma preserves_backoff_loop request turns :
  allowed request -> preserves R (backoff_loop request turns).
Proof.
  intros Ha. induction turns as [|n turns IH]; simpl.
  - apply preserves_ret.
  - apply preserves_try_http; [now apply preserves_execute|].
    intros text. destruct (negb (retryable text)).
    + apply preserves_bind; [apply preserves_log|intros; apply preserves_raise].
    + destruct (Nat.eqb n 4).
      * apply preserves_bind; [apply preserves_log|intros; apply preserves_raise].
      * apply preserves_bind; [apply preserves_log|intros].
        apply preserves_bind; [apply preserves_emit|intros; exact IH].
Qed.

Lemma preserves_exponential_backoff request :
  allowed request -> preserves R (_exponential_backoff request).
Proof. apply preserves_backoff_loop. Qed.

Lemma preserves_list_pages fuel folder_id :
  (forall token, allowed (FilesList folder_id token)) ->
  forall token results, preserves R (list_pages fuel folder_id token results).
Proof.
  intros Ha. induction fuel as [|fuel IH]; intros token results; simpl.
  - intros w r w' [= _ <-]. apply R_refl.
  - apply preserves_bind; [apply preserves_exponential_backoff, Ha|].
    intros [id|ids [t|]|]; try apply preserves_raise; [apply IH|apply preserves_ret].
Qed.


End Frame.

(** A computation that ends well did so through each of its steps. *)
Lemma bind_ok_inv {A B} (c : M A) (k : A -> M B) w b w' :
  bind c k w = (Ok b, w') ->
  exists a w1, c w = (Ok a, w1) /\ k a w1 = (Ok b, w').
Proof.
  unfold bind. destruct (c w) as [[a|e|] w1]; try discriminate.
  intros E. now exists a, w1.
Qed.

(** *** The staging area is touched by no request *)

Lemma delete_all_same_staging iteration ids :
  forall request_id, preserves same_staging (delete_all iteration request_id ids).
Proof.
  induction ids as [|id ids IH]; intros request_id; simpl.
  - intros w r w' [= _ <-]. reflexivity.
  - apply preserves_bind; [unfold same_staging; congruence| |intros; apply IH].
    intros w r w' E. unfold delete_one in E.
    destruct (mem id (undeletable w) || negb (existsb (has_id id) (drive w)));
      injection E as _ <-; reflexivity.
Qed.

Lemma perform_same_staging request : preserves same_staging (perform request).
Proof.
  destruct request as [name parents media|parent token|iteration ids]; simpl.
  - intros w r w' [= _ <-]. reflexivity.
  - intros w r w' [= _ <-]. reflexivity.
  - apply preserves_bind; [unfold same_staging; congruence| |].
    + apply delete_all_same_staging.
    + intros _ w r w' [= _ <-]. reflexivity.
Qed.

Lemma exponential_backoff_same_staging request :
  preserves same_staging (_exponential_backoff request).
Proof.
  apply (preserves_exponential_backoff same_staging (fun _ => True));
    unfold same_staging; try congruence; try reflexivity; auto.
  intros r _. apply perform_same_staging.
Qed.

(** *** Objects whose ID is to be kept survive the requests that do not name it *)

Lemma perform_keeps_objects keep request :
  spares keep request -> preserves (keeps_objects keep) (perform request).
Proof.
  destruct request as [name parents media|parent token|iteration ids]; simpl; intros Hs.
  - intros w r w' [= _ <-] o Ho _. cbn. apply in_or_app. now left.
  - intros w r w' [= _ <-] o Ho _. exact Ho.
  - intros w r w' E o Ho Hk. unfold bind in E.
    destruct (BatchFacts.delete_all_spec iteration ids 1 w)
      as (w1 & logs & E1 & _ & _ & _ & _ & _ & Hframe & _).
    rewrite E1 in E. injection E as _ <-.
    apply Hframe; [exact Ho|]. intros C. exact (Hs _ C Hk).
Qed.

Section KeepsObjects.
Variable keep : string -> Prop.

Lemma keeps_objects_refl w : keeps_objects keep w w.
Proof. intros o Ho _. exact Ho. Qed.

Lemma keeps_objects_trans w1 w2 w3 :
  keeps_objects keep w1 w2 -> keeps_objects keep w2 w3 -> keeps_objects keep w1 w3.
Proof. intros H12 H23 o Ho Hk. apply H23; [now apply H12|exact Hk]. Qed.

Lemma exponential_backoff_keeps_objects request :
  spares keep request -> preserves (keeps_objects keep) (_exponential_backoff request).
Proof.
  apply (preserves_exponential_backoff (keeps_objects keep) (spares keep)).
  - apply keeps_objects_refl.
  - apply keeps_objects_trans.
  - intros w t o Ho _. exact Ho.
  - intros w f o Ho _. exact Ho.
  - apply perform_keeps_objects.
Qed.



End KeepsObjects.

End FrameFacts.

(** ** Listing and pruning *)

Module PruneFacts.
Import Observe.
Import PyStr Py Service ConnGoogleDrive RetryFacts BatchFacts FrameFacts.

#[local] Arguments String.append : simpl never.
#[local] Arguments decimal : simpl never.

Lemma submitted_app t u : submitted (t ++ u) = submitted t ++ submitted u.
Proof. apply flat_map_app. Qed.

Lemma submitted_pacing t : submitted (pacing t) = submitted t.
Proof.
  induction t as [|e t IH]; [reflexivity|].
  destruct e as [level msg|n|n|r]; simpl; try exact IH.
  unfold submitted in *. simpl. now rewrite IH.
Qed.

Lemma submitted_loop_pacing ids turns :
  submitted (loop_pacing ids turns) = loop_ids ids turns.
Proof.
  induction turns as [|i turns IH]; [reflexivity|].
  unfold loop_pacing, loop_ids in *. simpl. unfold submitted in *. simpl.
  now rewrite IH.
Qed.

Lemma ceil_div_100_spec n :
  n <= ceil_div_100 n * 100 /\ forall i, i < ceil_div_100 n -> i * 100 < n.
Proof.
  unfold ceil_div_100.
  pose proof (Nat.div_mod_eq (n + 99) 100) as D.
  pose proof (Nat.mod_upper_bound (n + 99) 100 ltac:(lia)) as U.
  split; [lia|]. intros i Hi. lia.
Qed.

(** All the batches of the loop, put end to end, are the IDs to delete. *)
Lemma loop_ids_all ids :
  loop_ids ids (seq 0 (ceil_div_100 (length ids))) = ids.
Proof.
  destruct (ceil_div_100_spec (length ids)) as [Hle Hlt].
  unfold loop_ids.
  rewrite (map_ext_in _ (fun i => firstn 100 (skipn (i * 100) ids))).
  - now apply chunks_concat.
  - intros i Hi. apply in_seq in Hi. apply batch_ids_chunk.
    specialize (Hlt i ltac:(lia)). lia.
Qed.





End PruneFacts.

(** ** Archive files *)

Module ArchiveFacts.
Import PyStr PosixPath LocalFS Zip Py ZipRun TraversalFacts.

Lemma get_put_same path a l : get_file path (put_file path a l) = Some a.
Proof.
  induction l as [|[q b] l IH]; simpl.
  - now rewrite String.eqb_refl.
  - destruct (String.eqb q path) eqn:E; simpl.
    + now rewrite String.eqb_refl.
    + now rewrite E.
Qed.

(** A used-up generator leaves [run] with nothing to write. *)
Lemma run_no_entries self w :
  fst (iterate_files (fs w) (cwd w) self) = [] ->
  exists self' w',
    run self w = (Ok (zipfile_path_of self w, self'), w')
    /\ get_file (zipfile_path_of self w) (staging w') = Some [].
Proof.
  intros H. unfold run, bind, log, emit, zip_open. cbn.
  destruct (iterate_files (fs w) (cwd w) self) as [entries self'] eqn:E.
  simpl in H. subst entries. cbn.
  eexists _, _. split; [reflexivity|]. cbn. apply get_put_same.
Qed.

End ArchiveFacts.

(** ** One folder's backup *)

Module BackupFacts.
Import Observe.
Import PyStr PosixPath LocalFS Zip Py ZipRun Service ConnGoogleDrive Orchestrator.
Import FrameFacts ArchiveFacts.

#[local] Arguments String.append : simpl never.

(** [make_backup] is its steps, one after the other. *)
Lemma make_backup_steps folder w :
  make_backup folder w
  = (zipfile_path <- archive_step folder ;;
     google_drive_file_id <- upload_step zipfile_path ;;
     os_remove zipfile_path ;;
     ret google_drive_file_id) w.
Proof.
  unfold make_backup, archive_step, upload_step, bind.
  destruct (ZipMaker_new folder w) as [[zm|e|] w0]; try reflexivity.
  destruct (run zm w0) as [[r|e|] w1]; try reflexivity.
  unfold ret.
  destruct (ConnGoogleDrive.__init__ w1) as [[conn|e|] w2]; reflexivity.
Qed.

Ltac exists_exn :=
  match goal with
  | |- exists e, inl ?x = inl e /\ _ => exists x; repeat split
  end.

(** The four ways one turn of the loop of [run] goes. *)
Lemma write_entry_cases top path file w :
  (String.eqb (absolute_filepath file) path = true
   /\ write_entry top path file w = (Ok tt, w))
  \/ (String.eqb (absolute_filepath file) path = false
      /\ ((exists entry,
              zip_entry (fs w) top (absolute_filepath file) (filepath file) = inr entry
              /\ write_entry top path file w
                 = (Ok tt,
                    set_staging
                      (put_file path
                         (match get_file path (staging w) with
                          | Some a => a
                          | None => []
                          end ++ [entry]) (staging w)) w))
          \/ (exists e,
                 zip_entry (fs w) top (absolute_filepath file) (filepath file) = inl e
                 /\ is_FileNotFoundError e = true
                 /\ write_entry top path file w
                    = (Ok tt,
                       set_trace
                         (trace w ++ [Log "WARNING" ("File missed: "
                                                       ++ absolute_filepath file)]) w))
          \/ (exists e,
                 zip_entry (fs w) top (absolute_filepath file) (filepath file) = inl e
                 /\ is_FileNotFoundError e = false
                 /\ write_entry top path file w = (Raise e, w)))).
Proof.
  unfold write_entry.
  destruct (String.eqb (absolute_filepath file) path); [left; now split|].
  right. split; [reflexivity|].
  unfold try_except_FileNotFoundError, zip_write.
  destruct (zip_entry (fs w) top (absolute_filepath file) (filepath file)) as [e|entry].
  - right. destruct e; [right|left|right|right|right|right|right|right|right];
      exists_exn.
  - left. now exists entry.
Qed.

Lemma write_entries_has_file top path l :
  forall w r w', write_entries top path l w = (r, w') -> has_file path w -> has_file path w'.
Proof.
  induction l as [|file l IH]; intros w r w' E H.
  - injection E as _ <-. exact H.
  - simpl in E. unfold bind in E.
    destruct (write_entry_cases top path file w)
      as [[_ W]|[_ [(entry & _ & W)|[(e & _ & _ & W)|(e & _ & _ & W)]]]];
      rewrite W in E.
    + exact (IH _ _ _ E H).
    + apply (IH _ _ _ E). eexists. cbn. apply get_put_same.
    + exact (IH _ _ _ E H).
    + injection E as _ <-. exact H.
Qed.

(** However [run] ends, the archive it opened is on disk. *)
Lemma run_leaves_archive self w r w' :
  run self w = (r, w') -> has_file (zipfile_path_of self w) w'.
Proof.
  unfold run, bind at 1, log, emit, bind at 1, zip_open.
  cbn [fs cwd staging set_trace set_staging].
  destruct (iterate_files (fs w) (cwd w) self) as [entries self'].
  set (path := zipfile_path_of self w).
  set (w1 := set_staging _ _).
  assert (has_file path w1) as H1.
  { eexists. cbn. apply get_put_same. }
  unfold bind at 1.
  destruct (write_entries (folder self) path entries w1) as [[u|e|] w2] eqn:W;
    pose proof (write_entries_has_file _ _ _ _ _ _ W H1) as H2.
  - unfold bind, log, emit, ret. intros [= _ <-]. exact H2.
  - intros [= _ <-]. exact H2.
  - intros [= _ <-]. exact H2.
Qed.

(** After [run] the generator held by the object is used up. *)
Lemma run_exhausts self w p self' w' :
  run self w = (Ok (p, self'), w') -> files self' = Exhausted.
Proof.
  unfold run, bind at 1, log, emit, bind at 1, zip_open.
  cbn [fs cwd staging set_trace set_staging].
  unfold iterate_files.
  destruct (files self) eqn:G.
  - unfold bind at 1.
    destruct (write_entries _ _ _ _) as [[u|e|] w2]; try discriminate.
    unfold bind, log, emit, ret. now intros [= _ <- _].
  - unfold bind at 1.
    destruct (write_entries _ _ _ _) as [[u|e|] w2]; try discriminate.
    unfold bind, log, emit, ret. now intros [= _ <- _].
Qed.

Lemma run_path self w p self' w' :
  run self w = (Ok (p, self'), w') -> p = zipfile_path_of self w.
Proof.
  unfold run, bind at 1, log, emit, bind at 1, zip_open.
  cbn [fs cwd staging set_trace set_staging].
  destruct (iterate_files (fs w) (cwd w) self) as [entries self''].
  unfold bind at 1.
  destruct (write_entries _ _ entries _) as [[u|e|] w2]; try discriminate.
  unfold bind, log, emit, ret. now intros [= <- _ _].
Qed.

(** The archive step leaves its archive on disk when it ends well. *)
Lemma archive_step_leaves_archive folder w path w' :
  archive_step folder w = (Ok path, w') -> has_file path w'.
Proof.
  unfold archive_step. intros E.
  apply bind_ok_inv in E as (zm & w0 & _ & E).
  apply bind_ok_inv in E as ([p zm'] & w1 & R & E).
  injection E as <- <-. simpl.
  rewrite (run_path _ _ _ _ _ R). exact (run_leaves_archive _ _ _ _ R).
Qed.

Lemma same_staging_trans w1 w2 w3 :
  same_staging w1 w2 -> same_staging w2 w3 -> same_staging w1 w3.
Proof. unfold same_staging. congruence. Qed.

Lemma conn_init_same_staging : preserves same_staging ConnGoogleDrive.__init__.
Proof.
  unfold ConnGoogleDrive.__init__.
  apply preserves_bind; [apply same_staging_trans| |intros cfg].
  - intros w r w' E. unfold ConfigMixin.__init__, ConfigMixin.read_yaml_config in E.
    destruct (config_file w); [injection E as _ <-; reflexivity|].
    unfold bind, log, emit, raise in E. injection E as _ <-. reflexivity.
  - apply preserves_bind; [apply same_staging_trans| |intros _].
    + intros w r w' E. destruct (token_file w); injection E as _ <-; reflexivity.
    + apply preserves_bind; [apply same_staging_trans| |intros _].
      * destruct (negb (truthy_opt (google_drive_backup_folder_id cfg)));
          intros w r w' [= _ <-]; reflexivity.
      * intros w r w' [= _ <-]. reflexivity.
Qed.

Lemma upload_file_same_staging self path : preserves same_staging (upload_file self path).
Proof.
  unfold upload_file.
  apply preserves_bind; [apply same_staging_trans| |intros _].
  { intros w r w' [= _ <-]. reflexivity. }
  apply preserves_bind; [apply same_staging_trans| |intros _].
  { intros w r w' E. destruct (get_file path (staging w)); injection E as _ <-; reflexivity. }
  apply preserves_bind; [apply same_staging_trans| |intros file].
  { apply exponential_backoff_same_staging. }
  apply preserves_bind; [apply same_staging_trans| |intros _].
  { intros w r w' [= _ <-]. reflexivity. }
  destruct file; intros w r w' [= _ <-]; reflexivity.
Qed.

(** The upload step, however it ends, leaves the local archives as they are. *)
Lemma upload_step_same_staging path : preserves same_staging (upload_step path).
Proof.
  unfold upload_step.
  apply preserves_bind; [apply same_staging_trans|apply conn_init_same_staging|].
  intros conn. apply upload_file_same_staging.
Qed.

(** An answer of the wrapper to an upload request names an object Drive holds. *)
Lemma backoff_loop_created name parents media turns :
  forall w v w',
    backoff_loop (FilesCreate name parents media) turns w = (Ok v, w') ->
    v = RNone \/ exists o id, In o (drive w') /\ obj_id o = id /\ v = RFile id.
Proof.
  induction turns as [|n turns IH]; intros w v w' E.
  - injection E as <- _. now left.
  - simpl in E. unfold try_except_HttpError in E.
    destruct (execute (FilesCreate name parents media) w) as [[v1|e|] w1] eqn:X.
    + injection E as <- <-. right.
      unfold execute, bind, emit in X. cbn in X.
      destruct (faults w) as [|[e|] rest]; try discriminate;
        injection X as <- <-; eexists _, _;
        (split; [cbn; apply in_or_app; right; left; reflexivity|]);
        split; reflexivity.
    + destruct e; try discriminate.
      destruct (negb (retryable text)).
      * unfold bind, log, emit, raise in E. discriminate.
      * destruct (Nat.eqb n 4).
        -- unfold bind, log, emit, raise in E. discriminate.
        -- unfold bind at 1, log, emit, bind at 1 in E. exact (IH _ _ _ E).
    + discriminate.
Qed.

(** When the upload step returns an ID, Drive holds an object with that ID. *)
Lemma upload_step_created path w id w' :
  upload_step path w = (Ok id, w') ->
  exists o, In o (drive w') /\ obj_id o = id.
Proof.
  unfold upload_step. intros E.
  apply bind_ok_inv in E as (conn & w1 & _ & E).
  unfold upload_file in E.
  apply bind_ok_inv in E as (u2 & w2 & _ & E).
  apply bind_ok_inv in E as (u3 & w3 & _ & E).
  apply bind_ok_inv in E as (file & w4 & B & E).
  apply bind_ok_inv in E as (u5 & w5 & L & E).
  unfold log, emit in L. injection L as _ L. subst w5.
  apply backoff_loop_created in B as [->|(o & id' & Ho & Hid & ->)]; [discriminate|].
  injection E as <- <-. exists o. split; [exact Ho|exact Hid].
Qed.

Lemma get_file_removed path l :
  get_file path (filter (fun e => negb (String.eqb (fst e) path)) l) = None.
Proof.
  induction l as [|[q a] l IH]; [reflexivity|].
  simpl. destruct (String.eqb q path) eqn:E; simpl; [exact IH|].
  now rewrite E.
Qed.

(** [os.remove] either removes the file or raises and changes nothing. *)
Lemma os_remove_spec path w r w' :
  os_remove path w = (r, w') ->
  (r = Ok tt /\ get_file path (staging w') = None /\ drive w' = drive w)
  \/ ((exists e, r = Raise e) /\ w' = w).
Proof.
  unfold os_remove.
  destruct (get_file path (staging w)).
  - destruct (mem path (locked w)).
    + intros [= <- <-]. right. split; [eauto|reflexivity].
    + intros [= <- <-]. left. repeat split. cbn. apply get_file_removed.
  - intros [= <- <-]. right. split; [eauto|reflexivity].
Qed.

End BackupFacts.

(** ** Computations that need no fuel *)

Module TotalFacts.
Import Observe.
Import PyStr PosixPath LocalFS Zip Py ZipRun Service ConnGoogleDrive Orchestrator.
Import RetryFacts.

Lemma total_ret {A} (a : A) : total (ret a).
Proof. intros w. discriminate. Qed.

Lemma total_raise {A} e : total (@raise A e).
Proof. intros w. discriminate. Qed.

Lemma total_emit e : total (emit e).
Proof. intros w. discriminate. Qed.

Lemma total_bind {A B} (c : M A) (k : A -> M B) :
  total c -> (forall a, total (k a)) -> total (bind c k).
Proof.
  intros Hc Hk w. unfold bind. specialize (Hc w).
  destruct (c w) as [[a|e|] w1]; simpl in *; [apply Hk|discriminate|contradiction].
Qed.

Lemma total_try_http {A} (c : M A) h :
  total c -> (forall text, total (h text)) -> total (try_except_HttpError c h).
Proof.
  intros Hc Hh w. unfold try_except_HttpError. specialize (Hc w).
  destruct (c w) as [[a|e|] w1]; simpl in *; [discriminate| |contradiction].
  destruct e; try discriminate. apply Hh.
Qed.

Lemma total_try_fnf {A} (c h : M A) :
  total c -> total h -> total (try_except_FileNotFoundError c h).
Proof.
  intros Hc Hh w. unfold try_except_FileNotFoundError. specialize (Hc w).
  destruct (c w) as [[a|e|] w1]; simpl in *; [discriminate| |contradiction].
  destruct e; try discriminate. apply Hh.
Qed.

Lemma total_execute request : total (execute request).
Proof.
  unfold execute. apply total_bind; [apply total_emit|].
  intros _ w. destruct (faults w) as [|[e|] rest]; try discriminate.
  - destruct (perform_total request w) as (v & w' & E & _). now rewrite E.
  - destruct (perform_total request (set_faults rest w)) as (v & w' & E & _).
    now rewrite E.
Qed.

Lemma total_backoff_loop request turns : total (backoff_loop request turns).
Proof.
  induction turns as [|n turns IH]; simpl; [apply total_ret|].
  apply total_try_http; [apply total_execute|].
  intros text. destruct (negb (retryable text)).
  - apply total_bind; [apply total_emit|intros; apply total_raise].
  - destruct (Nat.eqb n 4).
    + apply total_bind; [apply total_emit|intros; apply total_raise].
    + apply total_bind; [apply total_emit|intros].
      apply total_bind; [apply total_emit|intros; exact IH].
Qed.

Lemma total_config : total ConfigMixin.__init__.
Proof.
  intros w. unfold ConfigMixin.__init__, ConfigMixin.read_yaml_config.
  destruct (config_file w); discriminate.
Qed.

Lemma total_conn_init : total ConnGoogleDrive.__init__.
Proof.
  unfold ConnGoogleDrive.__init__.
  apply total_bind; [apply total_config|intros cfg].
  apply total_bind; [intros w; destruct (token_file w); discriminate|intros _].
  apply total_bind; [|intros; apply total_ret].
  destruct (negb _); [apply total_emit|apply total_ret].
Qed.

Lemma total_upload_file self path : total (upload_file self path).
Proof.
  unfold upload_file.
  apply total_bind; [apply total_emit|intros _].
  apply total_bind; [intros w; destruct (get_file path (staging w)); discriminate|intros _].
  apply total_bind; [apply total_backoff_loop|intros file].
  apply total_bind; [apply total_emit|intros _].
  destruct file; [apply total_ret|apply total_raise|apply total_raise].
Qed.

Lemma total_write_entries top path l : total (write_entries top path l).
Proof.
  induction l as [|file l IH]; simpl; [apply total_ret|].
  apply total_bind; [|intros; exact IH].
  unfold write_entry. destruct (String.eqb _ _); [apply total_ret|].
  apply total_try_fnf; [|apply total_emit].
  intros w. unfold zip_write. destruct (zip_entry _ _ _ _); discriminate.
Qed.

Lemma total_run self : total (run self).
Proof.
  intros w. unfold run, bind at 1, log, emit, bind at 1, zip_open.
  cbn [fs cwd staging set_trace set_staging].
  destruct (iterate_files (fs w) (cwd w) self) as [entries self'].
  apply total_bind; [apply total_write_entries|intros _].
  apply total_bind; [apply total_emit|intros; apply total_ret].
Qed.

Lemma total_os_remove path : total (os_remove path).
Proof.
  intros w. unfold os_remove.
  destruct (get_file path (staging w)); [destruct (mem path (locked w))|]; discriminate.
Qed.

(** A worker always reports: its ID or its exception. *)
Lemma total_make_backup folder : total (make_backup folder).
Proof.
  unfold make_backup.
  apply total_bind; [|intros zm].
  { unfold ZipMaker_new. apply total_bind; [apply total_config|intros; apply total_ret]. }
  apply total_bind; [apply total_run|intros r].
  apply total_bind; [apply total_conn_init|intros conn].
  apply total_bind; [apply total_upload_file|intros id].
  apply total_bind; [apply total_os_remove|intros; apply total_ret].
Qed.

End TotalFacts.

(** ** The pool and [main] *)

Module MainFacts.
Import Observe.
Import PyStr PosixPath LocalFS Zip Py ZipRun Service ConnGoogleDrive Orchestrator.
Import RetryFacts FrameFacts PruneFacts BackupFacts TotalFacts.

#[local] Arguments String.append : simpl never.

Lemma split_at {A} (d : A) l :
  forall k, k < length l -> l = firstn k l ++ nth k l d :: skipn (S k) l.
Proof.
  induction l as [|x l IH]; intros k Hk; [simpl in Hk; lia|].
  destruct k as [|k]; [reflexivity|].
  simpl. f_equal. apply IH. simpl in Hk. lia.
Qed.

(** Whatever the scheduler chooses, every task is reported, once. *)
Lemma pick_order_perm {A} n :
  forall choices (l : list A), length l = n -> Permutation (pick_order n choices l) l.
Proof.
  induction n as [|n IH]; intros choices l Hl.
  - destruct l; [constructor|discriminate].
  - destruct l as [|x l']; [discriminate|].
    cbn [pick_order].
    set (l := x :: l') in *.
    set (k := hd 0 choices mod length l).
    assert (k < length l) as Hk.
    { apply Nat.mod_upper_bound. unfold l. simpl. lia. }
    apply Permutation_trans with (nth k l x :: firstn k l ++ skipn (S k) l).
    + constructor. apply IH.
      rewrite length_app, length_firstn, length_skipn. lia.
    + eapply Permutation_trans; [apply Permutation_middle|].
      rewrite <- (split_at x l k Hk). reflexivity.
Qed.

Lemma completion_order_perm {A} choices (l : list A) :
  Permutation (completion_order choices l) l.
Proof. now apply pick_order_perm. Qed.

Lemma run_tasks_spec task l :
  forall w results w',
    run_tasks task l w = (results, w') ->
    map fst results = l
    /\ ((forall x, total (task x)) -> Forall (fun fr => snd fr <> OutOfFuel) results).
Proof.
  induction l as [|x l IH]; intros w results w' E.
  - injection E as <- _. split; [reflexivity|constructor].
  - simpl in E. destruct (task x w) as [r w1] eqn:T.
    destruct (run_tasks task l w1) as [rs w2] eqn:Rs.
    injection E as <- _. destruct (IH _ _ _ Rs) as [H1 H2].
    split; [simpl; now rewrite H1|].
    intros Ht. constructor; [|now apply H2].
    simpl. specialize (Ht x w). rewrite T in Ht. exact Ht.
Qed.

(** Every requested folder is worked on and reported, in some order. *)
Lemma pool_reports_all l w results w' :
  pool_imap_unordered make_backup l w = (results, w') ->
  Permutation (map fst results) l
  /\ Forall (fun fr => snd fr <> OutOfFuel) results.
Proof.
  unfold pool_imap_unordered. intros E.
  destruct (run_tasks_spec _ _ _ _ _ E) as [H1 H2].
  split; [rewrite H1; apply completion_order_perm|].
  apply H2. apply total_make_backup.
Qed.




(** Building the connector touches only the trace, and invokes nothing. *)
Lemma conn_init_spec w r w' :
  ConnGoogleDrive.__init__ w = (r, w') ->
  r <> OutOfFuel /\ drive w' = drive w /\ invocations (trace w') = invocations (trace w)
  /\ staging w' = staging w.
Proof.
  assert (forall level msg,
             invocations (trace (set_trace (trace w ++ [Log level msg]) w))
             = invocations (trace w)) as Hlog.
  { intros. cbn [trace set_trace]. apply invocations_log. }
  unfold ConnGoogleDrive.__init__, ConfigMixin.__init__, ConfigMixin.read_yaml_config, bind.
  destruct (config_file w) as [cfg|].
  - destruct (token_file w).
    + destruct (negb (truthy_opt (google_drive_backup_folder_id cfg))).
      * unfold log, emit, ret. intros [= <- <-].
        repeat apply conj; [discriminate|reflexivity|apply Hlog|reflexivity].
      * unfold ret. intros [= <- <-].
        repeat apply conj; [discriminate|reflexivity|reflexivity|reflexivity].
    + intros [= <- <-].
      repeat apply conj; [discriminate|reflexivity|reflexivity|reflexivity].
  - unfold log, emit, raise. intros [= <- <-].
    repeat apply conj; [discriminate|reflexivity|apply Hlog|reflexivity].
Qed.


Lemma main_body_after_pool fuel args w l w0 results w1 :
  fetch_token args = false ->
  token_file w = true ->
  resolve_folders args w = (Ok (Some l), w0) ->
  l <> [] ->
  pool_imap_unordered make_backup l w0 = (results, w1) ->
  main_body fuel args w = after_pool fuel args results w1.
Proof.
  intros Hft Htok Hres Hl Hpool. unfold main_body, after_pool.
  rewrite Hft. simpl negb. cbv iota.
  unfold bind at 1, check_token. rewrite Htok.
  unfold bind at 1. rewrite Hres.
  destruct l as [|x l]; [contradiction|].
  unfold bind at 1. rewrite Hpool. reflexivity.
Qed.



(** *** The configuration and the token are touched by no worker *)




















End MainFacts.

(** * The claims *)

Import PyStr PosixPath LocalFS Zip Py.
Import Service ConnGoogleDrive.
Import PathFacts WalkFacts TraversalFacts ArchiveFacts RetryFacts BatchFacts.
Import FrameFacts PruneFacts BackupFacts TotalFacts MainFacts.
Import Orchestrator Observe.



(** C7, as stated, fails: the second full iteration of the sequence held by
    a [ZipMaker] is empty although the disk has not changed. *)
Lemma restartable_counterexample :
  let zm := Zip.__init__ Sample.cfg "docs" in
  let first := iterate_files Sample.disk "/home/u" zm in
  let second := iterate_files Sample.disk "/home/u" (snd first) in
  fst first = [{| absolute_filepath := "docs/a.txt"; filepath := "docs/a.txt" |}]
  /\ fst second = []
  /\ fst second <> fst first.
Proof.
  repeat split; discriminate.
Qed.

(** C7, amended. The sequence held by a [ZipMaker] is a one-shot generator:
    its first full iteration walks the folder as the disk is at that moment
    and yields the prepared entries; every later iteration of the same
    object yields nothing, whatever the disk holds then: a second [run] of
    the object writes an archive with no file. A fresh sequence is obtained
    only from a new [ZipMaker]. *)
Theorem prepared_sequence_one_shot :
  forall (disk disk' : FS) (cwd cwd' folder : string) (cfg : Config),
    let zm := Zip.__init__ cfg folder in
    let first := iterate_files disk cwd zm in
    let second := iterate_files disk' cwd' (snd first) in
    fst first = _prepare_folder_for_backup disk cwd zm
    /\ fst second = []
    /\ snd second = snd first
    /\ fst (iterate_files disk' cwd' (Zip.__init__ cfg folder))
       = _prepare_folder_for_backup disk' cwd' zm
    /\ (forall w p zm' w1,
          ZipRun.run zm w = (Ok (p, zm'), w1) ->
          forall w2, exists zm'' w3,
            ZipRun.run zm' w2 = (Ok (ZipRun.zipfile_path_of zm' w2, zm''), w3)
            /\ ZipRun.get_file (ZipRun.zipfile_path_of zm' w2) (staging w3) = Some []).
Proof.
  intros. repeat apply conj; try reflexivity.
  intros w p zm' w1 Hrun w2.
  apply run_no_entries. unfold iterate_files.
  now rewrite (run_exhausts _ _ _ _ _ Hrun).
Qed.

Lemma prepared_sequence_one_shot_witness :
  let zm := Zip.__init__ Sample.cfg "docs" in
  exists zm' w1,
    ZipRun.run zm Sample.world = (Ok ("/opt/backup/docs_20240101_00-00-00.zip", zm'), w1)
    /\ ZipRun.get_file "/opt/backup/docs_20240101_00-00-00.zip" (staging w1)
       = Some [("docs/a.txt", "A")]
    /\ exists zm'' w3,
         ZipRun.run zm' w1 = (Ok ("/opt/backup/docs_20240101_00-00-00.zip", zm''), w3)
         /\ ZipRun.get_file "/opt/backup/docs_20240101_00-00-00.zip" (staging w3) = Some [].
Proof.
  intros zm.
  destruct (ZipRun.run zm Sample.world) as [r w1] eqn:R.
  vm_compute in R. injection R as <- <-.
  eexists _, _. split; [reflexivity|]. split; [reflexivity|].
  exact (proj2 (proj2 (proj2 (proj2
           (prepared_sequence_one_shot Sample.disk Sample.disk "/home/u" "/home/u"
              "docs" Sample.cfg))))
           Sample.world _ _ _ ltac:(vm_compute; reflexivity) _).
Defined.

(** C10, as stated, fails: the script is started in [/home/skip] to back up
    the folder [docs] of that directory, and [skip] is an excluded name.
    The folder's own absolute path, [/home/skip/docs], holds the excluded
    component, yet the walked path is [docs], as given: the code never
    makes it absolute. The directory is not excluded and its file is
    archived. *)
Lemma absolute_ancestor_counterexample :
  let w := Sample.skip_cwd_world in
  let zm := Zip.__init__ Sample.cfg "docs" in
  exclude_folder_names Sample.cfg = Some ["skip"]
  /\ abspath (cwd w) "docs" = "/home/skip/docs"
  /\ In "skip" (split sep (abspath (cwd w) "docs"))
  /\ map absolute_filepath (fst (iterate_files (fs w) (cwd w) zm)) = ["docs/a.txt"]
  /\ ZipRun.get_file "/opt/backup/docs_20240101_00-00-00.zip"
       (staging (snd (ZipRun.run zm w)))
     = Some [("docs/a.txt", "A")].
Proof.
  vm_compute. repeat split. tauto.
Qed.

(** C10, amended. Exclusion matching is applied to the walked path as
    [os.walk] yields it, which begins with the folder's path as it was
    given (it is never made absolute), ancestor directories named in that
    path included: on a disk whose entry names hold no separator, when a
    non-empty component of the backup folder's path as given is a
    configured excluded folder name, every walked directory is excluded,
    the entry sequence is empty and the archive that [run] leaves on disk
    holds no file. *)
Theorem excluded_ancestor_empties_archive :
  forall (w : World) (folder : string) (cfg : Config) (names : list string) (e : string),
    wf_fs (fs w) = true ->
    exclude_folder_names cfg = Some names ->
    In e names -> e <> "" ->
    In e (split sep folder) ->
    let zm := Zip.__init__ cfg folder in
    Forall (fun entry => _validate_path zm (fst (fst entry)) = true) (os_walk (fs w) folder)
    /\ fst (iterate_files (fs w) (cwd w) zm) = []
    /\ exists zm' w',
         ZipRun.run zm w = (Ok (ZipRun.zipfile_path_of zm w, zm'), w')
         /\ ZipRun.get_file (ZipRun.zipfile_path_of zm w) (staging w') = Some [].
Proof.
  intros w folder cfg names e Hwf Hcfg He Hne Hin zm.
  assert (Forall (fun entry => _validate_path zm (fst (fst entry)) = true)
            (os_walk (fs w) folder)) as Hall.
  { apply Forall_forall. intros [[address ds] fnames] Hw. simpl.
    destruct (os_walk_spec _ _ _ _ _ Hwf Hw) as [_ Hkeep].
    apply (validate_path_true zm names address e Hcfg He).
    now apply Hkeep. }
  assert (fst (iterate_files (fs w) (cwd w) zm) = []) as Hempty.
  { unfold iterate_files, _prepare_folder_for_backup. simpl.
    now rewrite (all_excluded_fold _ _ _ Hall). }
  split; [exact Hall|]. split; [exact Hempty|].
  now apply run_no_entries.
Qed.

(** C2. The retry wrapper. Let the transport fail the first calls with the
    retryable errors [texts] (HTTP 500 or 503).
    - If there are fewer than 4 of them and the next call goes through, the
      wrapper returns what the service answers to that call, after
      [length texts + 1] invocations.
    - If a fifth retryable failure follows four, the wrapper raises the
      exhausted-retries error after 5 invocations.
    - If the next call fails with an error that is not retryable, that error
      is raised at once: [length texts + 1] invocations, none after it.
    An [HttpError] of status 500 or 503 is retryable. *)
Theorem retry_wrapper_attempts :
  forall (request : Request) (w : World) (texts : list string) (rest : list (option Exn)),
    Forall (fun text => retryable text = true) texts ->
    (length texts < 4 ->
     faults w = http_faults texts ++ None :: rest ->
     exists v w',
       _exponential_backoff request w = (Ok v, w')
       /\ perform request (reaching_service request texts rest w) = (Ok v, w')
       /\ invocations (trace w') = invocations (trace w) + (length texts + 1))
    /\ (forall text5,
        length texts = 4 -> retryable text5 = true ->
        faults w = http_faults (texts ++ [text5]) ++ rest ->
        exists w',
          _exponential_backoff request w = (Raise (Exception error_text), w')
          /\ invocations (trace w') = invocations (trace w) + 5)
    /\ (forall e,
        length texts <= 4 -> retryable_exn e = false ->
        faults w = http_faults texts ++ Some e :: rest ->
        exists w',
          _exponential_backoff request w = (Raise e, w')
          /\ invocations (trace w') = invocations (trace w) + (length texts + 1))
    /\ (forall tail,
        retryable ("<HttpError 500 " ++ tail) = true
        /\ retryable ("<HttpError 503 " ++ tail) = true).
Proof.
  intros request w texts rest Hall.
  unfold _exponential_backoff. change (seq 0 5) with (seq 0 (5 - 0)).
  split; [|split; [|split; [|exact retryable_status]]].
  - intros Hk Hf.
    rewrite (backoff_loop_retries request texts 0 w (None :: rest)) by (auto; simpl; lia).
    simpl (0 + _). rewrite seq_turns by lia.
    rewrite (backoff_loop_through request _ _ rest) by (left; apply faults_after_retries).
    rewrite reaching_service_after.
    destruct (perform_total request (reaching_service request texts rest w))
      as (v & w' & E & Hi & _).
    exists v, w'. repeat split; [exact E|exact E|].
    rewrite Hi. unfold reaching_service. trace_simpl.
    rewrite invocations_retries. change (invocations [Execute request]) with 1. lia.
  - intros text5 Hk H5 Hf.
    unfold http_faults in Hf. rewrite map_app, <- app_assoc in Hf.
    rewrite (backoff_loop_retries request texts 0 w _ ltac:(simpl; lia) Hall Hf).
    simpl (0 + _). rewrite Hk.
    destruct (backoff_loop_exhausted request [] text5 rest
                (after_retries request 0 texts
                   (map (fun text => Some (HttpError text)) [text5] ++ rest) w)
                H5 eq_refl) as (w' & E & Hi & _).
    exists w'. split; [exact E|].
    rewrite Hi, invocations_after_retries. lia.
  - intros e Hk He Hf.
    rewrite (backoff_loop_retries request texts 0 w _ ltac:(simpl; lia) Hall Hf).
    simpl (0 + _). rewrite seq_turns by lia.
    destruct (backoff_loop_terminal request (length texts) (seq (S (length texts)) (5 - S (length texts)))
                e rest (after_retries request 0 texts (Some e :: rest) w)
                He eq_refl) as (w' & E & Hi & _).
    exists w'. split; [exact E|].
    rewrite Hi, invocations_after_retries. lia.
Qed.

Lemma retry_wrapper_attempts_witness :
  let e500 := "<HttpError 500 when requesting x>" in
  let e503 := "<HttpError 503 when requesting x>" in
  let e403 := HttpError "<HttpError 403 when requesting x>" in
  let request := FilesList "F" None in
  (exists v w',
      _exponential_backoff request (Sample.with_faults (http_faults [e500; e503] ++ [None]))
      = (Ok v, w')
      /\ invocations (trace w') = 3)
  /\ (exists w',
        _exponential_backoff request
          (Sample.with_faults (http_faults ([e500; e503; e500; e503] ++ [e500]) ++ []))
        = (Raise (Exception error_text), w')
        /\ invocations (trace w') = 5)
  /\ (exists w',
        _exponential_backoff request (Sample.with_faults (http_faults [e500] ++ [Some e403]))
        = (Raise e403, w')
        /\ invocations (trace w') = 2).
Proof.
  intros e500 e503 e403 request. repeat apply conj.
  - destruct (retry_wrapper_attempts request
                (Sample.with_faults (http_faults [e500; e503] ++ [None])) [e500; e503] [])
      as [H _]; [repeat constructor|].
    destruct H as (v & w' & E & _ & Hi); [simpl; lia|reflexivity|].
    exists v, w'. split; [exact E|exact Hi].
  - destruct (retry_wrapper_attempts request
                (Sample.with_faults (http_faults ([e500; e503; e500; e503] ++ [e500]) ++ []))
                [e500; e503; e500; e503] [])
      as (_ & H & _); [repeat constructor|].
    destruct (H e500 eq_refl eq_refl eq_refl) as (w' & E & Hi).
    exists w'. split; [exact E|exact Hi].
  - destruct (retry_wrapper_attempts request
                (Sample.with_faults (http_faults [e500] ++ [Some e403])) [e500] [])
      as (_ & _ & H & _); [repeat constructor|].
    destruct (H e403 ltac:(simpl; lia) eq_refl eq_refl) as (w' & E & Hi).
    exists w'. split; [exact E|exact Hi].
Defined.

(** C5, as stated, fails: with 250 IDs the first thing the deletion step does
    is pause, and it pauses three times; the pauses are not confined to the
    gaps between the three grouped requests. *)
Lemma batch_pacing_counterexample :
  let ids := Sample.ids250 in
  let t := pacing (trace (snd (delete_files ids Sample.world))) in
  t <> [Execute (BatchDelete 0 (firstn 100 ids)); Sleep 2;
        Execute (BatchDelete 1 (firstn 100 (skipn 100 ids))); Sleep 2;
        Execute (BatchDelete 2 (skipn 200 ids))]
  /\ hd_error t = Some (Sleep 2)
  /\ count_occ Nat.eq_dec (flat_map (fun e => match e with Sleep n => [n] | _ => [] end) t) 2 = 3.
Proof.
  vm_compute. repeat split; discriminate.
Qed.

(** C5, amended. For every input of 250 object IDs to delete, when the
    transport does not fail, the deletion step issues exactly 3 grouped
    requests covering the IDs in order with sizes 100, 100 and 50, and
    pauses 2 seconds before each of them, the first included: three pauses,
    one ahead of every grouped request and none after the last. *)
Theorem batch_deletion_pacing :
  forall (ids : list string) (w : World),
    length ids = 250 ->
    faults w = [] ->
    exists w' evs,
      delete_files ids w = (Ok tt, w')
      /\ trace w' = trace w ++ evs
      /\ pacing evs
         = [Sleep 2; Execute (BatchDelete 0 (firstn 100 ids));
            Sleep 2; Execute (BatchDelete 1 (firstn 100 (skipn 100 ids)));
            Sleep 2; Execute (BatchDelete 2 (skipn 200 ids))]
      /\ length (firstn 100 ids) = 100
      /\ length (firstn 100 (skipn 100 ids)) = 100
      /\ length (skipn 200 ids) = 50
      /\ firstn 100 ids ++ firstn 100 (skipn 100 ids) ++ skipn 200 ids = ids.
Proof.
  intros ids w Hlen Hf. unfold delete_files.
  rewrite Hlen. change (ceil_div_100 250) with 3.
  destruct (delete_loop_no_faults ids (seq 0 3) w Hf)
    as (w1 & evs & E & Ht & Hp & _).
  unfold bind. rewrite E. unfold log, emit.
  eexists _, (evs ++ [Log "INFO" "Old backups files deleted from Google Drive"]).
  repeat apply conj.
  - reflexivity.
  - cbn [trace set_trace]. now rewrite Ht, app_assoc.
  - rewrite pacing_app, Hp, app_nil_r. unfold loop_pacing. cbn [seq flat_map app].
    rewrite !batch_ids_chunk by lia.
    change (0 * 100) with 0. change (1 * 100) with 100. change (2 * 100) with 200.
    rewrite skipn_O. do 5 f_equal.
    rewrite firstn_all2; [reflexivity|rewrite length_skipn; lia].
  - rewrite length_firstn. lia.
  - rewrite length_firstn, length_skipn. lia.
  - rewrite length_skipn. lia.
  - transitivity (firstn 100 ids ++ skipn 100 ids); [f_equal|apply firstn_skipn].
    replace (skipn 200 ids) with (skipn 100 (skipn 100 ids))
      by (now rewrite skipn_skipn).
    apply firstn_skipn.
Qed.

Lemma batch_deletion_pacing_witness :
  length Sample.ids250 = 250 /\ faults Sample.world = []
  /\ exists w' evs,
       delete_files Sample.ids250 Sample.world = (Ok tt, w')
       /\ trace w' = trace Sample.world ++ evs
       /\ length (pacing evs) = 6.
Proof.
  split; [reflexivity|]. split; [reflexivity|].
  destruct (batch_deletion_pacing Sample.ids250 Sample.world eq_refl eq_refl)
    as (w' & evs & E & Ht & Hp & _).
  exists w', evs. split; [exact E|]. split; [exact Ht|]. now rewrite Hp.
Defined.

Lemma excluded_ancestor_empties_archive_witness :
  wf_fs (fs Sample.world) = true
  /\ In "skip" (split sep "/srv/skip/docs")
  /\ fst (iterate_files (fs Sample.world) (cwd Sample.world)
            (Zip.__init__ Sample.cfg "/srv/skip/docs")) = [].
Proof.
  split; [reflexivity|]. split; [simpl; tauto|].
  refine (proj1 (proj2 (excluded_ancestor_empties_archive Sample.world "/srv/skip/docs"
                          Sample.cfg ["skip"] "skip" eq_refl eq_refl _ _ _))).
  - simpl. tauto.
  - discriminate.
  - simpl. tauto.
Defined.




(** C4, as stated, fails: when the upload ends in a terminal error (here an
    HTTP 403) [make_backup] raises and the staged archive is still on disk. *)
Lemma staging_archive_counterexample :
  let w := Sample.with_faults [Some (HttpError "<HttpError 403 when requesting x>")] in
  let out := make_backup "docs" w in
  fst out = Raise (HttpError "<HttpError 403 when requesting x>")
  /\ ZipRun.get_file "/opt/backup/docs_20240101_00-00-00.zip" (staging (snd out))
     = Some [("docs/a.txt", "A")].
Proof.
  vm_compute. split; reflexivity.
Qed.

(** C4, amended. For every backup folder whose archive has been built: when
    the upload succeeds, the [os.remove] that follows deletes the staged
    archive before [make_backup] returns the ID, unless the removal itself
    is refused, in which case its [PermissionError] leaves [make_backup]
    and the staged archive stays on disk; when the upload fails terminally,
    the error leaves [make_backup] before the deletion and the staged
    archive stays on disk. *)
Theorem staging_archive_lifetime :
  forall (folder : string) (w : World) (path : string) (w1 : World),
    archive_step folder w = (Ok path, w1) ->
    (forall id w2,
        upload_step path w1 = (Ok id, w2) ->
        (mem path (locked w2) = false ->
         exists w3,
           make_backup folder w = (Ok id, w3)
           /\ ZipRun.get_file path (staging w3) = None)
        /\ (mem path (locked w2) = true ->
            make_backup folder w = (Raise (PermissionError path), w2)
            /\ exists a, ZipRun.get_file path (staging w2) = Some a))
    /\ (forall e w2,
        upload_step path w1 = (Raise e, w2) ->
        make_backup folder w = (Raise e, w2)
        /\ exists a, ZipRun.get_file path (staging w2) = Some a).
Proof.
  intros folder w path w1 Ha.
  pose proof (archive_step_leaves_archive _ _ _ _ Ha) as [a Hfile].
  split.
  - intros id w2 Hu.
    assert (ZipRun.get_file path (staging w2) = Some a) as Hfile2.
    { rewrite (upload_step_same_staging _ _ _ _ Hu). exact Hfile. }
    split; intros Hlock.
    + eexists. rewrite make_backup_steps. unfold bind. rewrite Ha, Hu.
      unfold os_remove. rewrite Hfile2, Hlock.
      split; [reflexivity|]. cbn [staging set_staging]. apply get_file_removed.
    + rewrite make_backup_steps. unfold bind. rewrite Ha, Hu.
      unfold os_remove. rewrite Hfile2, Hlock.
      split; [reflexivity|]. now exists a.
  - intros e w2 Hu.
    rewrite make_backup_steps. unfold bind. rewrite Ha, Hu.
    split; [reflexivity|].
    exists a. rewrite (upload_step_same_staging _ _ _ _ Hu). exact Hfile.
Qed.

Lemma staging_archive_lifetime_witness :
  exists w1,
    archive_step "docs" Sample.world = (Ok "/opt/backup/docs_20240101_00-00-00.zip", w1)
    /\ exists w3,
         make_backup "docs" Sample.world = (Ok "id0", w3)
         /\ ZipRun.get_file "/opt/backup/docs_20240101_00-00-00.zip" (staging w3) = None.
Proof.
  eexists. split; [vm_compute; reflexivity|].
  refine (proj1 (proj1 (staging_archive_lifetime "docs" Sample.world _ _ _) "id0" _ _) _).
  - vm_compute. reflexivity.
  - vm_compute. reflexivity.
  - vm_compute. reflexivity.
Defined.

(** C8, as stated, fails: the archive is uploaded, its removal is refused,
    and [make_backup] raises instead of returning the uploaded object's ID. *)
Lemma best_effort_removal_counterexample :
  let out := make_backup "docs" Sample.locked_world in
  fst out = Raise (PermissionError "/opt/backup/docs_20240101_00-00-00.zip")
  /\ fst out <> Ok "id0"
  /\ existsb (fun o => String.eqb (obj_id o) "id0") (drive (snd out)) = true.
Proof.
  vm_compute. repeat split. discriminate.
Qed.

(** C8, amended. For every folder whose archive has been uploaded
    successfully, a failure of the local file deletion is not caught: it
    leaves [make_backup] as an exception, the uploaded object's ID is not
    returned, and the uploaded object stays on Drive. *)
Theorem removal_failure_propagates :
  forall (folder : string) (w : World) (path : string) (w1 : World)
         (id : string) (w2 : World) (e : Exn) (w3 : World),
    archive_step folder w = (Ok path, w1) ->
    upload_step path w1 = (Ok id, w2) ->
    os_remove path w2 = (Raise e, w3) ->
    make_backup folder w = (Raise e, w2)
    /\ w3 = w2
    /\ exists o, In o (drive w2) /\ obj_id o = id.
Proof.
  intros folder w path w1 id w2 e w3 Ha Hu Hr.
  destruct (os_remove_spec _ _ _ _ Hr) as [(C & _)|(_ & ->)]; [discriminate|].
  rewrite make_backup_steps. unfold bind. rewrite Ha, Hu, Hr.
  repeat split. exact (upload_step_created _ _ _ _ Hu).
Qed.

Lemma removal_failure_propagates_witness :
  exists w2,
    make_backup "docs" Sample.locked_world
    = (Raise (PermissionError "/opt/backup/docs_20240101_00-00-00.zip"), w2)
    /\ exists o, In o (drive w2) /\ obj_id o = "id0".
Proof.
  eexists.
  destruct (removal_failure_propagates "docs" Sample.locked_world
              "/opt/backup/docs_20240101_00-00-00.zip" _ "id0" _
              (PermissionError "/opt/backup/docs_20240101_00-00-00.zip") _
              ltac:(vm_compute; reflexivity)
              ltac:(vm_compute; reflexivity)
              ltac:(vm_compute; reflexivity)) as (E & _ & Ho).
  split; [exact E|exact Ho].
Defined.

(** C9, as stated, fails: with no folder on the command line and none
    configured, the exception raised in [main] is caught by [@log.catch]
    and the process ends with exit status 0. *)
Lemma no_folders_counterexample :
  let args := Sample.args_of None in
  fst (main_body 1 args Sample.world) = Raise (Exception "No folders for backup")
  /\ fst (run_script 1 args Sample.world) = Some 0.
Proof.
  vm_compute. split; reflexivity.
Qed.

(** C9, amended. When no backup folders are resolved (no [-f/--folders]
    arguments and no [folders_for_backup] list configured), the body of
    [main] raises ["No folders for backup"] before any backup work begins;
    [@log.catch] logs the exception and does not raise it again, and the
    process ends with exit status 0, the world untouched but for the log. *)
Theorem no_folders_is_logged :
  forall (fuel : nat) (args : Args) (w : World) (cfg : Config),
    fetch_token args = false ->
    token_file w = true ->
    folders args = None \/ folders args = Some [] ->
    config_file w = Some cfg ->
    folders_for_backup cfg = None \/ folders_for_backup cfg = Some [] ->
    main_body fuel args w = (Raise (Exception "No folders for backup"), w)
    /\ run_script fuel args w
       = (Some 0,
          set_trace
            (trace w ++ [Log "ERROR" "An error has been caught in function 'main': Exception: No folders for backup"])
            w).
Proof.
  intros fuel args w cfg Hft Htok Hargs Hcfg Hnone.
  assert (main_body fuel args w = (Raise (Exception "No folders for backup"), w)) as Hbody.
  { unfold main_body. rewrite Hft. simpl negb. cbv iota.
    unfold bind at 1, check_token. rewrite Htok.
    unfold bind at 1.
    assert (resolve_folders args w = (Ok (folders_for_backup cfg), w)) as ->.
    { unfold resolve_folders.
      destruct Hargs as [-> | ->];
        unfold bind, ConfigMixin.__init__, ConfigMixin.read_yaml_config;
        now rewrite Hcfg. }
    destruct Hnone as [-> | ->]; reflexivity. }
  split; [exact Hbody|].
  unfold run_script, main, log_catch. rewrite Hbody. reflexivity.
Qed.

Lemma no_folders_is_logged_witness :
  fst (run_script 1 (Sample.args_of None) Sample.world) = Some 0.
Proof.
  rewrite (proj2 (no_folders_is_logged 1 (Sample.args_of None) Sample.world Sample.cfg
                    eq_refl eq_refl (or_introl eq_refl) eq_refl (or_introl eq_refl))).
  reflexivity.
Defined.




(** * Further properties of the script *)

(** ** Traversal *)

Module TraversalMore.
Import PyStr PosixPath LocalFS Zip Py More.
Import PathFacts WalkFacts TraversalFacts.

Lemma filenames_In children f :
  In f (filenames children) <-> exists st, In (File f st) children.
Proof.
  unfold filenames. rewrite in_flat_map. split.
  - intros [n [Hn Hf]]. destruct n as [g st|d ch]; [|destruct Hf].
    destruct Hf as [<-|[]]. now exists st.
  - intros [st H]. exists (File f st). split; [exact H|now left].
Qed.

Lemma In_map_fst_flat_map {A} (f : A -> list (string * FileState)) l path :
  In path (map fst (flat_map f l)) <-> exists c, In c l /\ In path (map fst (f c)).
Proof.
  rewrite in_map_iff. split.
  - intros [[p st] [<- H]]. apply in_flat_map in H as [c [Hc H]].
    exists c. split; [exact Hc|]. apply in_map_iff. now exists (p, st).
  - intros [c [Hc H]]. apply in_map_iff in H as [[p st] [<- H]].
    exists (p, st). split; [reflexivity|]. apply in_flat_map. now exists c.
Qed.

Lemma dir_paths_agree children :
  Forall node_paths_agree children ->
  forall top path,
    In path (map fst (files_of_dir top children))
    <-> walked_path (walk_dir top children) path.
Proof.
  intros Hall top path. rewrite Forall_forall in Hall.
  unfold files_of_dir. rewrite In_map_fst_flat_map. split.
  - intros [c [Hc H]]. apply (Hall c Hc) in H.
    destruct c as [f st|d ch].
    + exists top, (dirnames children), (filenames children), f.
      split; [now left|]. split; [|exact H].
      apply filenames_In. now exists st.
    + destruct H as (address & ds & names & file & Hw & Hf & ->).
      exists address, ds, names, file. split; [|now split].
      right. apply in_flat_map. now exists (Dir d ch).
  - intros (address & ds & names & file & Hw & Hf & ->).
    destruct Hw as [Heq|Hw].
    + injection Heq as <- _ <-. apply filenames_In in Hf as [st Hst].
      exists (File file st). split; [exact Hst|]. apply (Hall _ Hst). reflexivity.
    + apply in_flat_map in Hw as [c [Hc Hw]].
      exists c. split; [exact Hc|]. apply (Hall c Hc).
      destruct c as [f st|d ch]; [destruct Hw|].
      now exists address, ds, names, file.
Qed.

Lemma all_nodes_agree n : node_paths_agree n.
Proof.
  induction n as [f st|d children IH] using Node_ind'; intros top path.
  - simpl. split; [intros [<-|[]]; reflexivity|intros ->; now left].
  - change (files_of_node top (Dir d children))
      with (files_of_dir (join top d) children).
    change (walk_node top (Dir d children)) with (walk_dir (join top d) children).
    now apply dir_paths_agree.
Qed.

(** [os.walk] reaches exactly the files below the directory. *)
Lemma os_walk_files disk top children path :
  truthy top = true ->
  lookup_dir disk top = Some children ->
  In path (map fst (files_of_dir top children)) <-> walked_path (os_walk disk top) path.
Proof.
  intros Ht Hl. unfold os_walk. rewrite Ht, Hl. simpl negb. cbv iota.
  apply dir_paths_agree. apply Forall_forall. intros n _. apply all_nodes_agree.
Qed.

(** The loop only adds to the entries it has prepared. *)
Lemma fold_prepared_grows cwd self l :
  forall st p,
    In p (prepared_files st) ->
    In p (prepared_files (fold_left (prepare_step cwd self) l st)).
Proof.
  induction l as [|[[address ds] names] l IH]; intros st p H; [exact H|].
  simpl. apply IH. unfold prepare_step.
  destruct (_validate_path self address); [exact H|].
  simpl. apply in_or_app. now left.
Qed.

(** Every file of a walked directory that is not excluded is prepared. *)
Lemma prepared_complete cwd self l :
  forall st address ds names file,
    In (address, ds, names) l ->
    _validate_path self address = false ->
    In file names ->
    exists p, In p (prepared_files (fold_left (prepare_step cwd self) l st))
              /\ absolute_filepath p = join address file.
Proof.
  induction l as [|[[a d] n] l IH]; intros st address ds names file Hin Hv Hf; [destruct Hin|].
  destruct Hin as [Heq|Hin].
  - injection Heq as -> -> ->. simpl.
    assert (exists p, In p (prepared_files (prepare_step cwd self st (address, ds, names)))
                      /\ absolute_filepath p = join address file) as (p & Hp & Ha).
    { unfold prepare_step. rewrite Hv. eexists. split.
      - simpl. apply in_or_app. right.
        apply in_map_iff. exists file. split; [reflexivity|exact Hf].
      - reflexivity. }
    exists p. split; [now apply fold_prepared_grows|exact Ha].
  - simpl. now apply (IH _ address ds names file).
Qed.

(** The prepared paths are the files of the walked directories that are let
    through. *)
Lemma prepared_paths_iff (disk : FS) (cwd : string) (self : ZipMaker) (path : string) :
  In path (map absolute_filepath (_prepare_folder_for_backup disk cwd self))
  <-> exists address ds names file,
      In (address, ds, names) (os_walk disk (folder self))
      /\ _validate_path self address = false
      /\ In file names
      /\ path = join address file.
Proof.
  rewrite in_map_iff. split.
  - intros [p [<- Hp]].
    apply prepared_origin in Hp as [[]|(address & ds & names & file & H1 & H2 & H3 & H4)].
    now exists address, ds, names, file.
  - intros (address & ds & names & file & H1 & H2 & H3 & ->).
    destruct (prepared_complete cwd self _ prep0 _ _ _ _ H1 H2 H3) as (p & Hp & Ha).
    now exists p.
Qed.

End TraversalMore.

Import TraversalMore.

(** X1. [_validate_path] answers true exactly when a configured excluded name
    is equal to a whole component of the path; with no list configured, or
    an empty one, it therefore answers false for every path. *)
Theorem validate_path_components :
  forall (self : ZipMaker) (path : string),
    _validate_path self path = true
    <-> exists names e,
        _exclude_folder_names self = Some names
        /\ In e names /\ In e (split sep path).
Proof.
  intros self path. split.
  - unfold _validate_path.
    destruct (_exclude_folder_names self) as [[|n names]|] eqn:E; try discriminate.
    intros H. apply existsb_exists in H as [e [He Hm]].
    exists (n :: names), e. split; [reflexivity|]. split; [exact He|now apply mem_In].
  - intros (names & e & Hn & He & Hp). exact (validate_path_true self names path e Hn He Hp).
Qed.

(** X2. The entries prepared for a folder are exactly the files of the walked
    directories that are not excluded: a path is some entry's
    [absolute_filepath] if and only if it is [os.path.join(address, file)]
    for a directory [address] yielded by [os.walk] that [_validate_path]
    lets through and a file name [file] listed in it. *)
Theorem prepared_paths_characterised :
  forall (disk : FS) (cwd : string) (self : ZipMaker) (path : string),
    In path (map absolute_filepath (_prepare_folder_for_backup disk cwd self))
    <-> exists address ds names file,
        In (address, ds, names) (os_walk disk (folder self))
        /\ _validate_path self address = false
        /\ In file names
        /\ path = join address file.
Proof. exact prepared_paths_iff. Qed.

(** X3. With no exclusion configured, the entries prepared for an existing
    folder are exactly the files below it, at any depth. *)
Theorem no_exclusion_prepares_every_file :
  forall (disk : FS) (cwd folder : string) (cfg : Config) (children : list Node)
         (path : string),
    truthy folder = true ->
    lookup_dir disk folder = Some children ->
    exclude_folder_names cfg = None \/ exclude_folder_names cfg = Some [] ->
    (In path (map absolute_filepath
                (_prepare_folder_for_backup disk cwd (Zip.__init__ cfg folder)))
     <-> In path (map fst (files_of_dir folder children))).
Proof.
  intros disk cwd folder cfg children path Ht Hl Hex.
  rewrite prepared_paths_iff.
  change (Zip.folder (Zip.__init__ cfg folder)) with folder.
  rewrite (os_walk_files disk folder children path Ht Hl).
  assert (forall address, _validate_path (Zip.__init__ cfg folder) address = false) as Hv.
  { intros address. unfold _validate_path. simpl _exclude_folder_names.
    now destruct Hex as [-> | ->]. }
  split.
  - intros (address & ds & names & file & H1 & _ & H3 & ->).
    now exists address, ds, names, file.
  - intros (address & ds & names & file & H1 & H3 & ->).
    exists address, ds, names, file. now repeat split.
Qed.

Lemma no_exclusion_prepares_every_file_witness :
  let cfg := {| google_drive_backup_folder_id := Some "F";
                exclude_folder_names := None;
                folders_for_backup := None |} in
  In "docs/skip/b.txt"
    (map absolute_filepath (_prepare_folder_for_backup Sample.disk "/home/u"
                              (Zip.__init__ cfg "docs"))).
Proof.
  intros cfg.
  apply (no_exclusion_prepares_every_file Sample.disk "/home/u" "docs" cfg Sample.docs
           "docs/skip/b.txt" eq_refl eq_refl (or_introl eq_refl)).
  simpl. tauto.
Defined.

(** X4. The files that lie directly in the backed-up folder are prepared
    under the folder's base name: when the folder exists and its own path is
    not excluded, each of them is yielded as a [PreparedFile] with
    [absolute_filepath = join(folder, file)] and
    [filepath = join(basename(folder), file)], the name handed to
    [z.write] as [arcname]. *)
Theorem root_files_named_after_folder :
  forall (disk : FS) (cwd folder : string) (cfg : Config) (children : list Node)
         (file : string),
    truthy folder = true ->
    lookup_dir disk folder = Some children ->
    _validate_path (Zip.__init__ cfg folder) folder = false ->
    In file (filenames children) ->
    In {| absolute_filepath := join folder file;
          filepath := join (basename folder) file |}
       (_prepare_folder_for_backup disk cwd (Zip.__init__ cfg folder)).
Proof.
  intros disk cwd folder cfg children file Ht Hl Hv Hf.
  unfold _prepare_folder_for_backup, os_walk. simpl Zip.folder.
  rewrite Ht, Hl. simpl negb. cbv iota. unfold walk_dir. simpl fold_left.
  apply fold_prepared_grows.
  unfold prepare_step. rewrite Hv. simpl.
  rewrite String.eqb_refl.
  apply in_map_iff. exists file. split; [reflexivity|exact Hf].
Qed.

Lemma root_files_named_after_folder_witness :
  In {| absolute_filepath := "/srv/pics/p.png"; filepath := "pics/p.png" |}
     (_prepare_folder_for_backup Sample.disk "/home/u"
        (Zip.__init__ Sample.cfg "/srv/pics")).
Proof.
  apply (root_files_named_after_folder Sample.disk "/home/u" "/srv/pics" Sample.cfg
           Sample.pics "p.png" eq_refl eq_refl eq_refl).
  simpl. tauto.
Defined.

(** ** Building the archive *)

Module ArchiveMore.
Import PyStr PosixPath LocalFS Zip Py ZipRun More.
Import RetryFacts ArchiveFacts.

#[local] Arguments String.append : simpl never.






End ArchiveMore.

Import More ArchiveMore.





(** X7. A folder that cannot be listed (it does not exist, or its path is
    empty) is no error for [run]: [os.walk] yields nothing and an archive
    with no file is written. *)
Theorem run_on_missing_folder :
  forall (w : World) (cfg : Config) (folder : string),
    lookup_dir (fs w) folder = None \/ folder = "" ->
    let zm := Zip.__init__ cfg folder in
    exists zm' w',
      ZipRun.run zm w = (Ok (ZipRun.zipfile_path_of zm w, zm'), w')
      /\ ZipRun.get_file (ZipRun.zipfile_path_of zm w) (staging w') = Some [].
Proof.
  intros w cfg folder H zm. apply run_no_entries.
  unfold iterate_files, _prepare_folder_for_backup, os_walk. simpl.
  destruct H as [H | ->]; [|reflexivity].
  rewrite H. now destruct (negb (truthy folder)).
Qed.

Lemma run_on_missing_folder_witness :
  exists zm' w',
    ZipRun.run (Zip.__init__ Sample.cfg "/nowhere") Sample.world
    = (Ok ("/opt/backup/nowhere_20240101_00-00-00.zip", zm'), w')
    /\ ZipRun.get_file "/opt/backup/nowhere_20240101_00-00-00.zip" (staging w') = Some [].
Proof.
  exact (run_on_missing_folder Sample.world Sample.cfg "/nowhere" (or_introl eq_refl)).
Defined.

(** ** Local steps and the upload *)

Module UploadMore.
Import PyStr PosixPath LocalFS Zip Py ZipRun Service ConnGoogleDrive Orchestrator.
Import Observe More RetryFacts FrameFacts ArchiveFacts BackupFacts.

#[local] Arguments String.append : simpl never.
#[local] Arguments invocations : simpl never.

Lemma local_only_refl w : local_only w w.
Proof. unfold local_only. now repeat split. Qed.

Lemma local_only_trans w1 w2 w3 :
  local_only w1 w2 -> local_only w2 w3 -> local_only w1 w3.
Proof. unfold local_only. intuition congruence. Qed.

Lemma local_only_log w level msg :
  local_only w (set_trace (trace w ++ [Log level msg]) w).
Proof.
  unfold local_only. cbn [fs cwd script_dir now config_file token_file locked drive
                            next_id undeletable faults schedule trace set_trace].
  repeat split. apply invocations_log.
Qed.

Lemma local_only_staging w s : local_only w (set_staging s w).
Proof. unfold local_only. now repeat split. Qed.

Lemma log_local level msg : preserves local_only (log level msg).
Proof. intros w r w' [= _ <-]. apply local_only_log. Qed.

Lemma config_local : preserves local_only ConfigMixin.__init__.
Proof.
  intros w r w' E. unfold ConfigMixin.__init__, ConfigMixin.read_yaml_config in E.
  destruct (config_file w).
  - injection E as _ <-. apply local_only_refl.
  - unfold bind, log, emit, raise in E. injection E as _ <-. apply local_only_log.
Qed.

Lemma write_entry_local top path file : preserves local_only (write_entry top path file).
Proof.
  intros w r w' E.
  destruct (write_entry_cases top path file w)
    as [[_ W]|[_ [(entry & _ & W)|[(e & _ & _ & W)|(e & _ & _ & W)]]]];
    rewrite W in E; injection E as _ <-.
  - apply local_only_refl.
  - apply local_only_staging.
  - apply local_only_log.
  - apply local_only_refl.
Qed.

Lemma write_entries_local top path l : preserves local_only (write_entries top path l).
Proof.
  induction l as [|file l IH]; simpl.
  - intros w r w' [= _ <-]. apply local_only_refl.
  - apply preserves_bind; [apply local_only_trans|apply write_entry_local|intros; exact IH].
Qed.

Lemma run_local self : preserves local_only (run self).
Proof.
  intros w r w' E. unfold run, bind at 1, log, emit, bind at 1, zip_open in E.
  cbn [fs cwd staging set_trace set_staging] in E.
  destruct (iterate_files (fs w) (cwd w) self) as [entries self'].
  set (w1 := set_staging _ _) in E.
  assert (local_only w w1) as H1.
  { eapply local_only_trans; [apply (local_only_log w)|apply local_only_staging]. }
  eapply local_only_trans; [exact H1|].
  revert E. generalize w1. clear.
  change (forall w1 : World,
             (write_entries (folder self) (zipfile_path_of self w) entries ;;
              log "INFO" (zipfile_name self w ++ " created") ;;
              ret (zipfile_path_of self w, self'))%py w1 = (r, w') -> local_only w1 w').
  intros w1. revert w1 r w'.
  apply preserves_bind; [apply local_only_trans|apply write_entries_local|intros _].
  apply preserves_bind; [apply local_only_trans|apply log_local|intros _].
  intros w1 r w' [= _ <-]. apply local_only_refl.
Qed.

(** The archive step works on the local disk only. *)
Lemma archive_step_local folder : preserves local_only (archive_step folder).
Proof.
  unfold archive_step.
  apply preserves_bind; [apply local_only_trans| |intros zm].
  { unfold ZipMaker_new.
    apply preserves_bind; [apply local_only_trans|apply config_local|intros cfg].
    intros w r w' [= _ <-]. apply local_only_refl. }
  apply preserves_bind; [apply local_only_trans|apply run_local|intros r0].
  intros w r w' [= _ <-]. apply local_only_refl.
Qed.

Lemma parents_expr self :
  (if truthy_opt (google_drive_backup_folder self)
   then match google_drive_backup_folder self with
        | Some f => Some [f]
        | None => None
        end
   else None) = upload_parents self.
Proof.
  unfold upload_parents, truthy_opt.
  destruct (google_drive_backup_folder self) as [f|]; [|reflexivity].
  now destruct (truthy f).
Qed.

(** [upload_file] when the transport does not fail. *)
Lemma upload_file_no_faults self path w a :
  faults w = [] ->
  get_file path (staging w) = Some a ->
  exists w',
    upload_file self path w = (Ok (fresh_id (next_id w)), w')
    /\ drive w' = drive w ++ [uploaded_object self path w]
    /\ trace w'
       = trace w
           ++ [Log "INFO" ("Uploading " ++ basename path ++ " to Google Drive...");
               Execute (FilesCreate (basename path) (upload_parents self) path);
               Log "INFO" (basename path ++ " uploaded to Google Drive: "
                             ++ repr (RFile (fresh_id (next_id w))))]
    /\ staging w' = staging w /\ locked w' = locked w /\ faults w' = [].
Proof.
  intros Hf Ha. unfold upload_file. rewrite parents_expr.
  unfold bind at 1, log, emit. unfold bind at 1.
  cbn [staging set_trace]. rewrite Ha.
  unfold bind at 1.
  rewrite exponential_backoff_no_faults by exact Hf.
  cbn [perform]. cbn [staging drive next_id trace set_trace].
  unfold bind, log, emit, subscript_id, ret.
  eexists. split; [reflexivity|].
  cbn [drive trace staging locked faults set_trace set_drive].
  unfold uploaded_object. rewrite Ha.
  repeat apply conj; try reflexivity; [|exact Hf].
  now rewrite <- !app_assoc.
Qed.


(** No step of a worker removes an object from Drive. *)
Lemma local_keeps keep w w' : local_only w w' -> keeps_objects keep w w'.
Proof.
  intros H o Ho _. unfold local_only in H.
  destruct H as (_ & _ & _ & _ & _ & _ & _ & Hd & _). now rewrite Hd.
Qed.

Lemma upload_step_keeps keep path : preserves (keeps_objects keep) (upload_step path).
Proof.
  assert (forall level msg, preserves (keeps_objects keep) (log level msg)) as Hlog.
  { intros level msg w r w' [= _ <-] o Ho _. exact Ho. }
  unfold upload_step.
  apply preserves_bind; [apply keeps_objects_trans| |intros conn].
  { intros w r w' E o Ho _.
    destruct (MainFacts.conn_init_spec _ _ _ E) as (_ & Hd & _). now rewrite Hd. }
  unfold upload_file.
  apply preserves_bind; [apply keeps_objects_trans|apply Hlog|intros _].
  apply preserves_bind; [apply keeps_objects_trans| |intros _].
  { intros w r w' E o Ho _.
    destruct (get_file path (staging w)); injection E as _ <-; exact Ho. }
  apply preserves_bind; [apply keeps_objects_trans| |intros file].
  { apply exponential_backoff_keeps_objects. exact I. }
  apply preserves_bind; [apply keeps_objects_trans|apply Hlog|intros _].
  destruct file; intros w r w' [= _ <-] o Ho _; exact Ho.
Qed.

Lemma make_backup_keeps keep folder : preserves (keeps_objects keep) (make_backup folder).
Proof.
  intros w r w' E. rewrite make_backup_steps in E. revert w r w' E.
  apply preserves_bind; [apply keeps_objects_trans| |intros path].
  { intros w r w' E. apply local_keeps. exact (archive_step_local folder w r w' E). }
  apply preserves_bind; [apply keeps_objects_trans|apply upload_step_keeps|intros id].
  apply preserves_bind; [apply keeps_objects_trans| |intros _].
  { intros w r w' E o Ho _.
    destruct (os_remove_spec _ _ _ _ E) as [(_ & _ & Hd)|(_ & ->)];
      [now rewrite Hd|exact Ho]. }
  intros w r w' [= _ <-] o Ho _. exact Ho.
Qed.

End UploadMore.

Import UploadMore.

(** X8. Building the archive is a local affair: however [ZipMaker(folder).run()]
    ends, it has made no request, and it has changed nothing but the local
    archive files and the log (Drive, the token, the configuration and the
    source folders are as before). *)
Theorem archive_step_is_local :
  forall (folder : string) (w : World),
    local_only w (snd (archive_step folder w)).
Proof.
  intros folder w. destruct (archive_step folder w) as [r w'] eqn:E.
  exact (archive_step_local folder w r w' E).
Qed.

(** X9. [upload_file] on a path where there is no file raises
    [FileNotFoundError] when it builds the media object, before any request
    is made: Drive is not contacted and holds what it held. *)
Theorem upload_missing_file :
  forall (self : ConnGoogleDrive.t) (filepath : string) (w : World),
    ZipRun.get_file filepath (staging w) = None ->
    exists w',
      upload_file self filepath w = (Raise (FileNotFoundError filepath), w')
      /\ invocations (trace w') = invocations (trace w)
      /\ drive w' = drive w.
Proof.
  intros self filepath w H. unfold upload_file, bind, log, emit.
  cbn [staging set_trace]. rewrite H.
  eexists. split; [reflexivity|]. split; [|reflexivity].
  cbn [trace set_trace]. apply invocations_log.
Qed.

Lemma upload_missing_file_witness :
  exists w',
    upload_file {| ConnGoogleDrive.config := Sample.cfg;
                   google_drive_backup_folder := Some "F" |}
                "/opt/backup/none.zip" Sample.world
    = (Raise (FileNotFoundError "/opt/backup/none.zip"), w')
    /\ invocations (trace w') = 0.
Proof.
  destruct (upload_missing_file {| ConnGoogleDrive.config := Sample.cfg;
                                   google_drive_backup_folder := Some "F" |}
              "/opt/backup/none.zip" Sample.world eq_refl) as (w' & E & Hi & _).
  exists w'. split; [exact E|exact Hi].
Defined.

(** X10. When the transport does not fail, [upload_file] makes one create
    request and returns the ID of the object Drive creates for it: the
    object is named after the file's base name, holds the file's content,
    and has the configured destination folder as its only parent (the
    request names no parent when no folder is configured). The local file
    is left in place. *)
Theorem upload_creates_one_object :
  forall (self : ConnGoogleDrive.t) (filepath : string) (w : World) (a : Archive),
    faults w = [] ->
    ZipRun.get_file filepath (staging w) = Some a ->
    exists w',
      upload_file self filepath w = (Ok (fresh_id (next_id w)), w')
      /\ drive w'
         = drive w
             ++ [{| obj_id := fresh_id (next_id w);
                    obj_name := basename filepath;
                    obj_parents := match upload_parents self with
                                   | Some l => l
                                   | None => ["root"]
                                   end;
                    obj_media := a |}]
      /\ filter is_execute (skipn (length (trace w)) (trace w'))
         = [Execute (FilesCreate (basename filepath) (upload_parents self) filepath)]
      /\ staging w' = staging w.
Proof.
  intros self filepath w a Hf Ha.
  destruct (upload_file_no_faults self filepath w a Hf Ha)
    as (w' & E & Hd & Ht & Hs & _).
  exists w'. repeat apply conj; [exact E| | |exact Hs].
  - rewrite Hd. unfold uploaded_object. now rewrite Ha.
  - rewrite Ht, skipn_app, Nat.sub_diag, skipn_all. reflexivity.
Qed.

Lemma upload_creates_one_object_witness :
  let self := {| ConnGoogleDrive.config := Sample.cfg;
                 google_drive_backup_folder := Some "F" |} in
  let w := set_staging [("/opt/backup/x.zip", [("x/a", "A")])] Sample.world in
  exists w',
    upload_file self "/opt/backup/x.zip" w = (Ok "id0", w')
    /\ map obj_id (drive w') = ["old"; "id0"].
Proof.
  intros self w.
  destruct (upload_creates_one_object self "/opt/backup/x.zip" w [("x/a", "A")]
              eq_refl eq_refl) as (w' & E & Hd & _).
  exists w'. split; [exact E|]. rewrite Hd. reflexivity.
Defined.

(** X11. A worker never removes anything from Drive: whatever the transport
    does and however [make_backup] ends, every object Drive held before is
    still there afterwards. *)
Theorem make_backup_never_deletes :
  forall (folder : string) (w : World) (o : DriveObject),
    In o (drive w) -> In o (drive (snd (make_backup folder w))).
Proof.
  intros folder w o Ho. destruct (make_backup folder w) as [r w'] eqn:E.
  exact (make_backup_keeps (fun _ => True) folder w r w' E o Ho I).
Qed.

Lemma make_backup_never_deletes_witness :
  In Sample.old_backup (drive (snd (make_backup "docs" Sample.world))).
Proof.
  apply make_backup_never_deletes. simpl. tauto.
Defined.



(** ** Listing, batches and pauses *)

Module PruneMore.
Import PyStr PosixPath LocalFS Zip Py ZipRun Service ConnGoogleDrive Orchestrator.
Import Observe More RetryFacts BatchFacts FrameFacts PruneFacts.

#[local] Arguments String.append : simpl never.
#[local] Arguments decimal : simpl never.
#[local] Arguments invocations : simpl never.

Lemma pages_needed_last n : n <= pageSize -> pages_needed n = 1.
Proof.
  intros H. unfold pages_needed. rewrite Nat.div_small; [reflexivity|].
  unfold pageSize in *. lia.
Qed.

Lemma pages_needed_next n : pageSize < n -> pages_needed n = S (pages_needed (n - pageSize)).
Proof.
  intros H. unfold pages_needed. f_equal.
  replace (n - 1) with ((n - pageSize - 1) + 1 * pageSize) by (unfold pageSize in *; lia).
  rewrite Nat.div_add by (unfold pageSize; lia). lia.
Qed.

(** The listing loop, request by request, when the transport never fails. *)
Lemma list_pages_requests folder_id fuel :
  forall token results w,
    faults w = [] ->
    0 < fuel ->
    length (children_of folder_id (drive w)) <= token_start token + fuel * pageSize ->
    exists w' evs,
      list_pages fuel folder_id token results w
      = (Ok (results ++ skipn (token_start token) (children_of folder_id (drive w))), w')
      /\ trace w' = trace w ++ evs
      /\ Forall (is_list_request folder_id) evs
      /\ length evs
         = pages_needed (length (children_of folder_id (drive w)) - token_start token)
      /\ faults w' = [] /\ same_drive w w'.
Proof.
  induction fuel as [|fuel IH]; intros token results w Hf Hfuel Hlen; [lia|].
  simpl list_pages. unfold bind at 1.
  rewrite exponential_backoff_no_faults by exact Hf.
  cbn [perform]. cbn [drive set_trace].
  fold (token_start token).
  set (all := children_of folder_id (drive w)) in *.
  set (w1 := set_trace (trace w ++ [Execute (FilesList folder_id token)]) w).
  assert (is_list_request folder_id (Execute (FilesList folder_id token))) as Hreq.
  { now exists token. }
  destruct (Nat.ltb_spec (token_start token + pageSize) (length all)) as [L|L].
  - destruct (IH (Some (token_start token + pageSize))
                (results ++ firstn pageSize (skipn (token_start token) all)) w1)
      as (w' & evs & E & Ht & Hall & Hn & Hf' & Hd & Hu).
    + exact Hf.
    + unfold pageSize in *. lia.
    + cbn [token_start drive w1 set_trace]. fold all. unfold pageSize in *. lia.
    + cbn [drive w1 set_trace token_start] in E, Hn. fold all in E, Hn. rewrite E.
      exists w', (Execute (FilesList folder_id token) :: evs).
      repeat apply conj.
      * f_equal. f_equal. rewrite <- app_assoc. f_equal.
        rewrite <- (firstn_skipn pageSize (skipn (token_start token) all)) at 2.
        f_equal. rewrite skipn_skipn. f_equal. lia.
      * rewrite Ht. cbn [trace w1 set_trace]. now rewrite <- app_assoc.
      * now constructor.
      * simpl length. rewrite Hn.
        rewrite (pages_needed_next (length all - token_start token)) by lia.
        f_equal. f_equal. lia.
      * exact Hf'.
      * exact Hd.
      * exact Hu.
  - exists w1, [Execute (FilesList folder_id token)].
    repeat apply conj; try reflexivity.
    + unfold ret. f_equal. f_equal. f_equal.
      apply firstn_all2. rewrite length_skipn. lia.
    + now constructor.
    + simpl length. symmetry. apply pages_needed_last. lia.
    + exact Hf.
Qed.

(** Listing changes nothing on Drive, whatever the transport does. *)
Lemma list_pages_same_drive fuel folder_id token results :
  preserves same_drive (list_pages fuel folder_id token results).
Proof.
  apply (preserves_list_pages same_drive
           (fun r => exists p t, r = FilesList p t)).
  - intros w. now split.
  - intros w1 w2 w3 [A B] [C D]. split; congruence.
  - intros w t. now split.
  - intros w f. now split.
  - intros request (p & t & ->) w r w' E. simpl in E. injection E as _ <-. now split.
  - intros t. now exists folder_id, t.
Qed.

(** A batch over distinct IDs that Drive holds: the refused deletions are
    reported, the others are carried out. *)
Lemma delete_all_refusals iteration ids :
  forall request_id w,
    NoDup ids ->
    (forall id, In id ids -> existsb (has_id id) (drive w) = true) ->
    exists w',
      delete_all iteration request_id ids w = (Ok tt, w')
      /\ trace w' = trace w ++ refusals iteration request_id ids (undeletable w)
      /\ (forall o, In o (drive w')
                    <-> In o (drive w)
                        /\ (In (obj_id o) ids -> In (obj_id o) (undeletable w))).
Proof.
  induction ids as [|id ids IH]; intros request_id w Hnd Hall.
  - exists w. simpl. rewrite app_nil_r. repeat apply conj; [reflexivity|reflexivity|].
    intros o. tauto.
  - inversion Hnd as [|? ? Hnotin Hnd']; subst.
    simpl delete_all. unfold bind, delete_one.
    rewrite (Hall id (or_introl eq_refl)). simpl negb. rewrite orb_false_r.
    simpl refusals.
    destruct (mem id (undeletable w)) eqn:U.
    + unfold log, emit.
      set (w1 := set_trace _ w).
      destruct (IH (S request_id) w1 Hnd') as (w' & E & Ht & Hd).
      { intros id' Hin. apply Hall. now right. }
      rewrite E. exists w'. unfold w1 in *. cbn [trace drive undeletable set_trace] in *.
      repeat apply conj; [reflexivity|now rewrite Ht, <- app_assoc|].
      intros o. rewrite Hd. split.
      * intros [Ho Hi]. split; [exact Ho|].
        intros [<-|Hin]; [now apply TraversalFacts.mem_In|now apply Hi].
      * intros [Ho Hi]. split; [exact Ho|]. intros Hin. apply Hi. now right.
    + set (w1 := set_drive _ _ w).
      destruct (IH (S request_id) w1 Hnd') as (w' & E & Ht & Hd).
      { intros id' Hin. unfold w1. cbn [drive set_drive].
        specialize (Hall id' (or_intror Hin)).
        apply existsb_exists in Hall as [o [Ho Hid]].
        apply existsb_exists. exists o. split; [|exact Hid].
        apply filter_In. split; [exact Ho|].
        unfold has_id in *. apply String.eqb_eq in Hid.
        apply negb_true_iff. apply String.eqb_neq. intros C.
        apply Hnotin. congruence. }
      rewrite E. exists w'. unfold w1 in *. cbn [trace drive undeletable set_drive] in *.
      repeat apply conj; [reflexivity|exact Ht|].
      intros o. rewrite Hd, filter_In. unfold has_id. split.
      * intros [[Ho Hne] Hi]. split; [exact Ho|].
        intros [Heq|Hin]; [|now apply Hi].
        rewrite Heq, String.eqb_refl in Hne. discriminate.
      * intros [Ho Hi]. split; [split; [exact Ho|]|].
        -- apply negb_true_iff. apply String.eqb_neq. intros C.
           assert (In (obj_id o) (undeletable w)) as Hu by (apply Hi; now left).
           apply TraversalFacts.mem_In in Hu. rewrite C in Hu. congruence.
        -- intros Hin. apply Hi. now right.
Qed.

(** The loop over the batches, whatever the IDs. *)
Lemma delete_files_no_faults ids w :
  faults w = [] ->
  exists w' evs,
    delete_files ids w = (Ok tt, w')
    /\ trace w' = trace w ++ evs
    /\ pacing evs
       = flat_map (fun i => [Sleep 2; Execute (BatchDelete i (chunk ids i))])
           (seq 0 (ceil_div_100 (length ids)))
    /\ submitted evs = ids.
Proof.
  intros Hf. unfold delete_files.
  destruct (delete_loop_no_faults ids (seq 0 (ceil_div_100 (length ids))) w Hf)
    as (w1 & evs & E & Ht & Hp & _).
  unfold bind. rewrite E. unfold log, emit.
  eexists _, (evs ++ [Log "INFO" "Old backups files deleted from Google Drive"]).
  repeat apply conj.
  - reflexivity.
  - cbn [trace set_trace]. now rewrite Ht, app_assoc.
  - rewrite pacing_app, Hp, app_nil_r. unfold loop_pacing.
    rewrite !flat_map_concat_map. f_equal.
    apply map_ext_in. intros i Hi. apply in_seq in Hi.
    rewrite batch_ids_chunk; [reflexivity|].
    destruct (ceil_div_100_spec (length ids)) as [_ Hlt].
    specialize (Hlt i ltac:(lia)). lia.
  - rewrite submitted_app, app_nil_r, <- submitted_pacing, Hp, submitted_loop_pacing.
    apply loop_ids_all.
Qed.

Lemma stale_nil actual_files listed :
  (forall id, In id listed -> In id actual_files) ->
  filter (fun f => negb (mem f actual_files)) listed = [].
Proof.
  induction listed as [|x l IH]; intros H; [reflexivity|].
  simpl. rewrite (proj2 (TraversalFacts.mem_In x actual_files) (H x (or_introl eq_refl))).
  simpl. apply IH. intros id Hid. apply H. now right.
Qed.

Lemma chunk_size ids i :
  i < ceil_div_100 (length ids) -> 0 < length (chunk ids i) <= 100.
Proof.
  intros Hi. unfold chunk. rewrite length_firstn, length_skipn.
  destruct (ceil_div_100_spec (length ids)) as [_ Hlt].
  specialize (Hlt i Hi). lia.
Qed.

(** *** The pauses of the retry wrapper *)

Lemma jitters_app t u : jitters (t ++ u) = jitters t ++ jitters u.
Proof. apply flat_map_app. Qed.

Lemma jitters_no_pacing t : pacing t = [] -> jitters t = [].
Proof.
  induction t as [|e t IH]; [reflexivity|].
  unfold pacing. simpl. destruct e; simpl; try discriminate. exact IH.
Qed.

Lemma jitters_retries request texts :
  forall n, jitters (retries_events request n texts)
            = map (fun i => 2 ^ i) (seq n (length texts)).
Proof.
  induction texts as [|t texts IH]; intros n; [reflexivity|].
  change (retries_events request n (t :: texts))
    with (retry_events request n t ++ retries_events request (S n) texts).
  rewrite jitters_app, IH. reflexivity.
Qed.

Lemma sum_powers k : list_sum (map (fun i => 2 ^ i) (seq 0 k)) = 2 ^ k - 1.
Proof.
  induction k as [|k IH]; [reflexivity|].
  rewrite seq_S, map_app, list_sum_app, IH. simpl.
  pose proof (Nat.pow_nonzero 2 k ltac:(lia)). lia.
Qed.

(** What the service adds to the trace: log lines only. *)
Lemma perform_trace request w :
  exists v w' logs,
    perform request w = (Ok v, w') /\ trace w' = trace w ++ logs /\ pacing logs = [].
Proof.
  destruct request as [name parents media|parent token|iteration ids]; simpl.
  - eexists _, _, []. cbn. rewrite app_nil_r. now repeat split.
  - eexists _, _, []. cbn. rewrite app_nil_r. now repeat split.
  - unfold bind.
    destruct (delete_all_spec iteration ids 1 w) as (w' & logs & E & Ht & Hp & _).
    rewrite E. exists RNone, w', logs. now repeat split.
Qed.

(** The last turn of the loop, failing once more. *)
Lemma backoff_loop_exhausted_trace request turns text rest w :
  retryable text = true ->
  faults w = Some (HttpError text) :: rest ->
  exists w',
    backoff_loop request (4 :: turns) w = (Raise (Exception error_text), w')
    /\ trace w' = trace w ++ [Execute request; Log "ERROR" error_text].
Proof.
  intros Ht Hf. simpl backoff_loop.
  unfold try_except_HttpError, execute, bind, emit. cbn. rewrite Hf. cbn.
  rewrite Ht. cbn. unfold bind, log, emit, raise. cbn.
  eexists. split; [reflexivity|]. cbn. now rewrite <- app_assoc.
Qed.

End PruneMore.

Import PruneMore.

(** X13. Listing a folder changes nothing on Drive, whatever the transport
    does. When the transport does not fail (and the embedding's loop has a
    turn for every page), it returns every ID under the folder, once each
    and in Drive's order, having followed the page tokens to the end: one
    list request per page of 1000 IDs, and one request even for an empty
    folder. *)
Theorem listing_returns_every_id :
  forall (fuel : nat) (folder_id : string) (w : World),
    same_drive w (snd (_get_files_in_folder fuel folder_id w))
    /\ (faults w = [] ->
        0 < fuel ->
        length (children_of folder_id (drive w)) <= fuel * pageSize ->
        exists w' evs,
          _get_files_in_folder fuel folder_id w
          = (Ok (children_of folder_id (drive w)), w')
          /\ trace w' = trace w ++ evs
          /\ Forall (is_list_request folder_id) evs
          /\ length evs = pages_needed (length (children_of folder_id (drive w)))).
Proof.
  intros fuel folder_id w. split.
  - unfold _get_files_in_folder.
    destruct (list_pages fuel folder_id None [] w) as [r w'] eqn:E.
    exact (list_pages_same_drive fuel folder_id None [] w r w' E).
  - intros Hf Hfuel Hlen.
    destruct (list_pages_requests folder_id fuel None [] w Hf Hfuel Hlen)
      as (w' & evs & E & Ht & Hall & Hn & _).
    exists w', evs. unfold _get_files_in_folder. rewrite E.
    cbn [token_start skipn app] in *. rewrite Nat.sub_0_r in Hn.
    now repeat split.
Qed.

Lemma listing_returns_every_id_witness :
  exists w' evs,
    _get_files_in_folder 1 "F" Sample.world = (Ok ["old"], w')
    /\ trace w' = trace Sample.world ++ evs
    /\ length evs = 1.
Proof.
  destruct (proj2 (listing_returns_every_id 1 "F" Sample.world))
    as (w' & evs & E & Ht & _ & Hn); [reflexivity|lia|simpl; lia|].
  exists w', evs. now repeat split.
Defined.

(** X14. Whatever the number of IDs to delete, when the transport does not
    fail the deletion step cuts them, in order, into batches of 100 with a
    shorter last one: there are ceil(n/100) grouped requests, none for an
    empty list, none empty and none above 100 IDs, each preceded by a pause
    of 2 seconds, and together they submit exactly the given IDs. *)
Theorem deletion_in_batches_of_100 :
  forall (ids : list string) (w : World),
    faults w = [] ->
    exists w' evs,
      delete_files ids w = (Ok tt, w')
      /\ trace w' = trace w ++ evs
      /\ pacing evs
         = flat_map (fun i => [Sleep 2; Execute (BatchDelete i (chunk ids i))])
             (seq 0 (ceil_div_100 (length ids)))
      /\ submitted evs = ids
      /\ (forall i, i < ceil_div_100 (length ids) -> 0 < length (chunk ids i) <= 100)
      /\ (ids = [] -> pacing evs = []).
Proof.
  intros ids w Hf.
  destruct (delete_files_no_faults ids w Hf) as (w' & evs & E & Ht & Hp & Hs).
  exists w', evs. repeat apply conj; try assumption.
  - intros i Hi. now apply chunk_size.
  - intros ->. rewrite Hp. reflexivity.
Qed.

Lemma deletion_in_batches_of_100_witness :
  exists w' evs,
    delete_files ["a"; "b"] Sample.world = (Ok tt, w')
    /\ trace w' = trace Sample.world ++ evs
    /\ pacing evs = [Sleep 2; Execute (BatchDelete 0 ["a"; "b"])].
Proof.
  destruct (deletion_in_batches_of_100 ["a"; "b"] Sample.world eq_refl)
    as (w' & evs & E & Ht & Hp & _).
  exists w', evs. now repeat split.
Defined.

(** X15. Without a destination folder (none configured, or an empty ID),
    [clean_backup_folder] does not prune: it logs an error and returns
    normally, having listed and deleted nothing. *)
Theorem prune_needs_destination_folder :
  forall (fuel : nat) (self : ConnGoogleDrive.t) (actual_files : list string) (w : World),
    google_drive_backup_folder self = None \/ google_drive_backup_folder self = Some "" ->
    exists w',
      clean_backup_folder fuel self actual_files w = (Ok tt, w')
      /\ trace w'
         = trace w ++ [Log "ERROR" "Can't clean backup folder due to non specified Google Drive backup folder id"]
      /\ drive w' = drive w
      /\ invocations (trace w') = invocations (trace w).
Proof.
  intros fuel self actual_files w H. unfold clean_backup_folder.
  destruct H as [-> | ->]; simpl; unfold log, emit;
    (eexists; split; [reflexivity|]); cbn [trace drive set_trace];
    (repeat split); apply invocations_log.
Qed.

Lemma prune_needs_destination_folder_witness :
  exists w',
    clean_backup_folder 1 {| ConnGoogleDrive.config := Sample.cfg;
                             google_drive_backup_folder := None |} [] Sample.world
    = (Ok tt, w')
    /\ drive w' = [Sample.old_backup].
Proof.
  destruct (prune_needs_destination_folder 1
              {| ConnGoogleDrive.config := Sample.cfg; google_drive_backup_folder := None |}
              [] Sample.world (or_introl eq_refl)) as (w' & E & _ & Hd & _).
  exists w'. split; [exact E|exact Hd].
Defined.

(** X16. When every object under the destination folder was uploaded by this
    run, the prune step only lists: with a transport that does not fail it
    ends normally without a pause and without a grouped delete request, and
    Drive holds what it held. *)
Theorem prune_with_nothing_stale :
  forall (fuel : nat) (self : ConnGoogleDrive.t) (folder_id : string)
         (actual_files : list string) (w : World),
    google_drive_backup_folder self = Some folder_id ->
    truthy folder_id = true ->
    faults w = [] ->
    0 < fuel ->
    length (children_of folder_id (drive w)) <= fuel * pageSize ->
    (forall id, In id (children_of folder_id (drive w)) -> In id actual_files) ->
    exists w' evs,
      clean_backup_folder fuel self actual_files w = (Ok tt, w')
      /\ trace w' = trace w ++ evs
      /\ Forall (is_list_request folder_id) (pacing evs)
      /\ drive w' = drive w.
Proof.
  intros fuel self folder_id actual_files w Hfolder Htruthy Hf Hfuel Hlen Hall.
  unfold clean_backup_folder. rewrite Hfolder, Htruthy.
  unfold bind at 1, log, emit.
  set (w0 := set_trace _ w).
  destruct (list_pages_requests folder_id fuel None [] w0 Hf Hfuel Hlen)
    as (w1 & evs1 & E1 & Ht1 & Hreq & _ & Hf1 & Hd1 & _).
  unfold _get_files_in_folder, bind at 1. rewrite E1.
  cbn [token_start skipn app drive w0 set_trace] in *.
  assert (filter (fun f => negb (mem f actual_files)) (children_of folder_id (drive w)) = [])
    as ->.
  { now apply stale_nil. }
  unfold delete_files, bind, log, emit. simpl.
  eexists _, (_ :: evs1 ++ [_]). repeat apply conj.
  - reflexivity.
  - cbn [trace set_trace]. rewrite Ht1. unfold w0. cbn [trace set_trace].
    rewrite <- !app_assoc. reflexivity.
  - unfold pacing. simpl. rewrite filter_app. simpl. rewrite app_nil_r.
    apply Forall_forall. intros e He. apply filter_In in He as [He _].
    rewrite Forall_forall in Hreq. now apply Hreq.
  - cbn [drive set_trace]. exact Hd1.
Qed.

Lemma prune_with_nothing_stale_witness :
  exists w' evs,
    clean_backup_folder 1 {| ConnGoogleDrive.config := Sample.cfg;
                             google_drive_backup_folder := Some "F" |}
      ["old"] Sample.world = (Ok tt, w')
    /\ trace w' = trace Sample.world ++ evs
    /\ drive w' = [Sample.old_backup].
Proof.
  destruct (prune_with_nothing_stale 1
              {| ConnGoogleDrive.config := Sample.cfg;
                 google_drive_backup_folder := Some "F" |}
              "F" ["old"] Sample.world eq_refl eq_refl eq_refl)
    as (w' & evs & E & Ht & _ & Hd); [lia|simpl; lia|simpl; tauto|].
  exists w', evs. now repeat split.
Defined.

(** X17. Inside a grouped request each deletion stands alone. For a batch of
    distinct IDs that Drive holds, sent over a transport that does not
    fail: the call returns normally; every object of the batch is deleted
    except those whose deletion Drive refuses; each refusal is logged as a
    warning numbered [iteration * 100 + k], [k] being the ID's place in the
    batch counted from 1; objects outside the batch are untouched. *)
Theorem batch_deletions_are_independent :
  forall (iteration : nat) (ids : list string) (w : World),
    faults w = [] ->
    NoDup ids ->
    (forall id, In id ids -> existsb (has_id id) (drive w) = true) ->
    exists w',
      _exponential_backoff (BatchDelete iteration ids) w = (Ok RNone, w')
      /\ trace w'
         = trace w ++ Execute (BatchDelete iteration ids)
                        :: refusals iteration 1 ids (undeletable w)
      /\ (forall o, In o (drive w')
                    <-> In o (drive w)
                        /\ (In (obj_id o) ids -> In (obj_id o) (undeletable w))).
Proof.
  intros iteration ids w Hf Hnd Hall.
  rewrite exponential_backoff_no_faults by exact Hf.
  simpl perform. unfold bind.
  destruct (delete_all_refusals iteration ids 1
              (set_trace (trace w ++ [Execute (BatchDelete iteration ids)]) w) Hnd Hall)
    as (w' & E & Ht & Hd).
  rewrite E. exists w'. cbn [trace drive undeletable set_trace] in *.
  repeat apply conj; [reflexivity| |exact Hd].
  rewrite Ht, <- app_assoc. reflexivity.
Qed.

Lemma batch_deletions_are_independent_witness :
  let keep := {| obj_id := "keep"; obj_name := "k.zip"; obj_parents := ["F"];
                 obj_media := [] |} in
  let w := {| fs := []; cwd := "/"; script_dir := "/opt/backup"; now := "t";
              config_file := Some Sample.cfg; token_file := true; staging := [];
              locked := []; drive := [Sample.old_backup; keep]; next_id := 0;
              undeletable := ["keep"]; faults := []; schedule := []; trace := [] |} in
  exists w',
    _exponential_backoff (BatchDelete 2 ["old"; "keep"]) w = (Ok RNone, w')
    /\ trace w' = [Execute (BatchDelete 2 ["old"; "keep"]);
                   Log "WARNING" "Request #202 failed: keep"]
    /\ drive w' = [keep].
Proof.
  intros keep w.
  destruct (batch_deletions_are_independent 2 ["old"; "keep"] w eq_refl) as (w' & E & Ht & _).
  - repeat constructor; simpl; intuition discriminate.
  - intros id [<-|[<-|[]]]; reflexivity.
  - exists w'. split; [exact E|]. split; [exact Ht|].
    rewrite exponential_backoff_no_faults in E by reflexivity.
    vm_compute in E. now injection E as <-.
Defined.

(** X18. The pauses of the retry wrapper double each time: after the
    retryable failure of attempt [n] (counted from 0) it sleeps [2 ^ n]
    seconds plus a random fraction, and it never sleeps after the last
    attempt. A call that goes through after [k] retryable failures has
    waited [1 + 2 + ... + 2^(k-1) = 2^k - 1] whole seconds; a call given up
    after five failures has waited 1, 2, 4 and 8. *)
Theorem backoff_pauses_double :
  forall (request : Request) (w : World) (texts : list string) (rest : list (option Exn)),
    Forall (fun text => retryable text = true) texts ->
    (length texts <= 4 ->
     faults w = http_faults texts ++ None :: rest ->
     exists v w' evs,
       _exponential_backoff request w = (Ok v, w')
       /\ trace w' = trace w ++ evs
       /\ jitters evs = map (fun n => 2 ^ n) (seq 0 (length texts))
       /\ list_sum (jitters evs) = 2 ^ length texts - 1)
    /\ (forall text5,
        length texts = 4 -> retryable text5 = true ->
        faults w = http_faults (texts ++ [text5]) ++ rest ->
        exists w' evs,
          _exponential_backoff request w = (Raise (Exception error_text), w')
          /\ trace w' = trace w ++ evs
          /\ jitters evs = [1; 2; 4; 8]).
Proof.
  intros request w texts rest Hall.
  unfold _exponential_backoff. change (seq 0 5) with (seq 0 (5 - 0)).
  split.
  - intros Hk Hf.
    rewrite (backoff_loop_retries request texts 0 w (None :: rest)) by (auto; simpl; lia).
    simpl (0 + _). rewrite seq_turns by lia.
    rewrite (backoff_loop_through request _ _ rest) by (left; apply faults_after_retries).
    rewrite reaching_service_after.
    destruct (perform_trace request (reaching_service request texts rest w))
      as (v & w' & logs & E & Ht & Hp).
    exists v, w', (retries_events request 0 texts ++ [Execute request] ++ logs).
    assert (jitters (retries_events request 0 texts ++ [Execute request] ++ logs)
            = map (fun n => 2 ^ n) (seq 0 (length texts))) as Hj.
    { rewrite !jitters_app, jitters_retries, (jitters_no_pacing logs Hp).
      simpl. now rewrite app_nil_r. }
    repeat apply conj.
    + exact E.
    + rewrite Ht. unfold reaching_service. cbn [trace set_trace set_faults].
      now rewrite <- !app_assoc.
    + exact Hj.
    + rewrite Hj. apply sum_powers.
  - intros text5 Hk H5 Hf.
    unfold http_faults in Hf. rewrite map_app, <- app_assoc in Hf.
    rewrite (backoff_loop_retries request texts 0 w _ ltac:(simpl; lia) Hall Hf).
    simpl (0 + _). rewrite Hk.
    destruct (backoff_loop_exhausted_trace request [] text5 rest
                (after_retries request 0 texts
                   (map (fun text => Some (HttpError text)) [text5] ++ rest) w)
                H5 eq_refl) as (w' & E & Ht).
    exists w', (retries_events request 0 texts ++ [Execute request; Log "ERROR" error_text]).
    repeat apply conj.
    + exact E.
    + rewrite Ht. unfold after_retries. cbn [trace set_trace set_faults].
      now rewrite <- app_assoc.
    + rewrite jitters_app, jitters_retries, Hk. reflexivity.
Qed.

Lemma backoff_pauses_double_witness :
  let e500 := "<HttpError 500 when requesting x>" in
  let e503 := "<HttpError 503 when requesting x>" in
  exists v w' evs,
    _exponential_backoff (FilesList "F" None)
      (Sample.with_faults (http_faults [e500; e503; e500] ++ [None])) = (Ok v, w')
    /\ trace w' = evs
    /\ jitters evs = [1; 2; 4].
Proof.
  intros e500 e503.
  destruct (proj1 (backoff_pauses_double (FilesList "F" None)
                     (Sample.with_faults (http_faults [e500; e503; e500] ++ [None]))
                     [e500; e503; e500] [] ltac:(repeat constructor)))
    as (v & w' & evs & E & Ht & Hj & _); [simpl; lia|reflexivity|].
  exists v, w', evs. now repeat split.
Defined.

(** ** [main] *)

Module MainMore.
Import PyStr PosixPath LocalFS Zip Py ZipRun Service ConnGoogleDrive Orchestrator.
Import Observe More FrameFacts UploadMore MainFacts.

(** The pool removes nothing from Drive. *)
Lemma run_tasks_keep l :
  forall w results w',
    run_tasks make_backup l w = (results, w') ->
    forall o, In o (drive w) -> In o (drive w').
Proof.
  induction l as [|x l IH]; intros w results w' E o Ho.
  - injection E as _ <-. exact Ho.
  - simpl in E. destruct (make_backup x w) as [r w1] eqn:T.
    destruct (run_tasks make_backup l w1) as [rs w2] eqn:Rs.
    injection E as _ <-. apply (IH _ _ _ Rs).
    exact (make_backup_keeps (fun _ => True) x w r w1 T o Ho I).
Qed.

Lemma list_set_In l f : In f (list_set l) <-> In f l.
Proof. unfold list_set. apply nodup_In. Qed.

Lemma list_set_NoDup l : NoDup (list_set l).
Proof. unfold list_set. apply NoDup_nodup. Qed.

End MainMore.

Import MainMore.

(** X19. The connector is built in this order: the configuration is read
    (a missing file is logged and raises [FileNotFoundError]), then the
    token file is opened (a missing one raises the exception that tells to
    use [--fetch-token]); a missing or empty destination folder ID is only
    a warning, and the connector then has no destination folder. No request
    is made in any case. *)
Theorem connector_construction :
  forall (w : World),
    match config_file w with
    | None =>
        ConnGoogleDrive.__init__ w
        = (Raise (FileNotFoundError (ConfigMixin.CONFIG_FILEPATH w)),
           set_trace (trace w ++ [Log "ERROR" ("Config file not found: "
                                                 ++ ConfigMixin.CONFIG_FILEPATH w)]) w)
    | Some cfg =>
        if token_file w then
          exists w',
            ConnGoogleDrive.__init__ w
            = (Ok {| ConnGoogleDrive.config := cfg;
                     google_drive_backup_folder := google_drive_backup_folder_id cfg |}, w')
            /\ invocations (trace w') = invocations (trace w)
            /\ drive w' = drive w
            /\ (upload_parents {| ConnGoogleDrive.config := cfg;
                                  google_drive_backup_folder := google_drive_backup_folder_id cfg |}
                = None
                <-> exists msg, trace w' = trace w ++ [Log "WARNING" msg])
        else ConnGoogleDrive.__init__ w = (Raise no_token, w)
    end.
Proof.
  intros w.
  unfold ConnGoogleDrive.__init__, ConfigMixin.__init__, ConfigMixin.read_yaml_config, bind.
  destruct (config_file w) as [cfg|]; [|reflexivity].
  destruct (token_file w); [|reflexivity].
  unfold upload_parents, truthy_opt. cbn [google_drive_backup_folder].
  destruct (google_drive_backup_folder_id cfg) as [f|].
  - destruct (truthy f); simpl negb; cbv iota.
    + unfold ret. exists w.
      split; [reflexivity|]. split; [reflexivity|]. split; [reflexivity|].
      split; [discriminate|]. intros [msg H].
      apply (f_equal (@length Event)) in H. rewrite length_app in H. simpl in H. lia.
    + unfold log, emit, ret. eexists. split; [reflexivity|].
      cbn [trace drive set_trace].
      split; [apply RetryFacts.invocations_log|]. split; [reflexivity|].
      split; [intros _; eexists; reflexivity|intros _; reflexivity].
  - simpl negb. cbv iota. unfold log, emit, ret. eexists. split; [reflexivity|].
    cbn [trace drive set_trace].
    split; [apply RetryFacts.invocations_log|]. split; [reflexivity|].
    split; [intros _; eexists; reflexivity|intros _; reflexivity].
Qed.

(** X20. Without the token file and without [--fetch-token], [main] does
    nothing: its body raises the missing-token exception before it resolves
    any folder, [@log.catch] logs it, the process ends with exit status 0,
    and the world is as before but for that log line. *)
Theorem missing_token_stops_main :
  forall (fuel : nat) (args : Args) (w : World),
    fetch_token args = false ->
    token_file w = false ->
    main_body fuel args w = (Raise no_token, w)
    /\ run_script fuel args w
       = (Some 0,
          set_trace (trace w ++ [Log "ERROR" ("An error has been caught in function 'main': "
                                                ++ describe no_token)]) w).
Proof.
  intros fuel args w Hft Htok.
  assert (main_body fuel args w = (Raise no_token, w)) as Hbody.
  { unfold main_body. rewrite Hft. simpl negb. cbv iota.
    unfold bind at 1, check_token. now rewrite Htok. }
  split; [exact Hbody|].
  unfold run_script, main, log_catch. rewrite Hbody. reflexivity.
Qed.

Lemma missing_token_stops_main_witness :
  fst (run_script 1 (Sample.args_of (Some ["docs"])) (set_token_file false Sample.world))
  = Some 0.
Proof.
  rewrite (proj2 (missing_token_stops_main 1 (Sample.args_of (Some ["docs"]))
                    (set_token_file false Sample.world) eq_refl eq_refl)).
  reflexivity.
Defined.

(** X21. With [--fetch-token] and a token file already there, [main] asks for
    nothing and backs up nothing, whatever folders are given: it exits with
    status 0 and the world is unchanged. *)
Theorem fetch_token_only :
  forall (fuel : nat) (args : Args) (w : World),
    fetch_token args = true ->
    token_file w = true ->
    main_body fuel args w = (Raise (SystemExit 0), w)
    /\ run_script fuel args w = (Some 0, w).
Proof.
  intros fuel args w Hft Htok.
  assert (main_body fuel args w = (Raise (SystemExit 0), w)) as Hbody.
  { unfold main_body. rewrite Hft. simpl negb. cbv iota.
    unfold bind, ConnGoogleDrive.fetch_token. now rewrite Htok. }
  split; [exact Hbody|].
  unfold run_script, main, log_catch. rewrite Hbody. reflexivity.
Qed.

Lemma fetch_token_only_witness :
  run_script 1 {| folders := Some ["docs"]; no_backup_clean := false; fetch_token := true |}
    Sample.world
  = (Some 0, Sample.world).
Proof.
  exact (proj2 (fetch_token_only 1
                  {| folders := Some ["docs"]; no_backup_clean := false; fetch_token := true |}
                  Sample.world eq_refl eq_refl)).
Defined.

(** X22. With [--no-backup-clean] the results of the workers are never
    looked at: once the pool has joined, [main] exits with status 0 even if
    workers failed, no prune step runs, and every object that Drive held
    before the run is still there. *)
Theorem no_backup_clean_skips_prune :
  forall (fuel : nat) (args : Args) (w : World) (l : list string) (w0 : World)
         (results : list (string * Result string)) (w1 : World),
    fetch_token args = false ->
    no_backup_clean args = true ->
    token_file w = true ->
    resolve_folders args w = (Ok (Some l), w0) ->
    l <> [] ->
    pool_imap_unordered make_backup l w0 = (results, w1) ->
    main_body fuel args w = (Raise (SystemExit 0), w1)
    /\ run_script fuel args w = (Some 0, w1)
    /\ (forall o, In o (drive w0) -> In o (drive w1)).
Proof.
  intros fuel args w l w0 results w1 Hft Hclean Htok Hres Hl Hpool.
  assert (main_body fuel args w = (Raise (SystemExit 0), w1)) as Hbody.
  { rewrite (main_body_after_pool fuel args w l w0 results w1 Hft Htok Hres Hl Hpool).
    unfold after_pool. now rewrite Hclean. }
  split; [exact Hbody|]. split.
  - unfold run_script, main, log_catch. rewrite Hbody. reflexivity.
  - unfold pool_imap_unordered in Hpool. exact (run_tasks_keep _ _ _ _ Hpool).
Qed.

Lemma no_backup_clean_skips_prune_witness :
  let args := {| folders := Some ["/srv/pics"]; no_backup_clean := true;
                 fetch_token := false |} in
  exists w1,
    run_script 1 args Sample.world = (Some 0, w1)
    /\ In Sample.old_backup (drive w1).
Proof.
  intros args.
  destruct (pool_imap_unordered make_backup ["/srv/pics"] Sample.world) as [results w1] eqn:P.
  destruct (no_backup_clean_skips_prune 1 args Sample.world ["/srv/pics"] Sample.world
              results w1 eq_refl eq_refl eq_refl eq_refl ltac:(discriminate) P)
    as (_ & E & Hk).
  exists w1. split; [exact E|]. apply Hk. simpl. tauto.
Defined.

(** X23. Folders named on the command line take precedence over the
    configured list and are deduplicated, without the configuration being
    read: every distinct folder is handed to the pool and reported exactly
    once. With no folder on the command line the configured list is used
    as it stands. *)
Theorem folders_resolution :
  forall (args : Args) (w : World),
    (forall l,
        folders args = Some l -> l <> [] ->
        resolve_folders args w = (Ok (Some (list_set l)), w)
        /\ NoDup (list_set l)
        /\ (forall f, In f (list_set l) <-> In f l)
        /\ forall results w',
            pool_imap_unordered make_backup (list_set l) w = (results, w') ->
            Permutation (map fst results) (list_set l) /\ NoDup (map fst results))
    /\ (forall cfg,
           folders args = None -> config_file w = Some cfg ->
           resolve_folders args w = (Ok (folders_for_backup cfg), w)).
Proof.
  intros args w. split.
  - intros l Hl Hne. unfold resolve_folders. rewrite Hl.
    destruct l as [|x l]; [contradiction|].
    split; [reflexivity|]. split; [apply list_set_NoDup|].
    split; [intros f; apply list_set_In|].
    intros results w' H.
    destruct (pool_reports_all _ _ _ _ H) as [Hp _]. split; [exact Hp|].
    apply (Permutation_NoDup (Permutation_sym Hp)). apply list_set_NoDup.
  - intros cfg Hn Hc. unfold resolve_folders. rewrite Hn.
    unfold bind, ConfigMixin.__init__, ConfigMixin.read_yaml_config. now rewrite Hc.
Qed.

Lemma folders_resolution_witness :
  resolve_folders (Sample.args_of (Some ["docs"; "/srv/pics"; "docs"])) Sample.world
  = (Ok (Some ["/srv/pics"; "docs"]), Sample.world).
Proof.
  exact (proj1 (proj1 (folders_resolution
                         (Sample.args_of (Some ["docs"; "/srv/pics"; "docs"])) Sample.world)
                  ["docs"; "/srv/pics"; "docs"] eq_refl ltac:(discriminate))).
Defined.

(** ** Names, the configuration file and logging *)

Module NameMore.
Import PyStr PosixPath LocalFS Zip Py ZipRun PathFacts.

Lemma has_char_app c a b :
  has_char c (a ++ b)%string = has_char c a || has_char c b.
Proof.
  induction a as [|x a IH]; simpl; [reflexivity|].
  now rewrite IH, orb_assoc.
Qed.

(** No component of a split path holds the separator. *)
Lemma split_components c s :
  forall e, In e (split c s) -> has_char c e = false.
Proof.
  induction s as [|x s IH]; simpl.
  - intros e [<-|[]]. reflexivity.
  - destruct (Ascii.eqb x c) eqn:X.
    + intros e [<-|H]; [reflexivity|now apply IH].
    + destruct (split c s) as [|h t] eqn:E; [destruct (split_not_nil _ _ E)|].
      intros e [<-|H].
      * simpl. rewrite X. apply IH. now left.
      * apply IH. now right.
Qed.

Lemma last_In {A} (l : list A) (d : A) : l <> [] -> In (last l d) l.
Proof.
  induction l as [|x l IH]; [congruence|]. intros _.
  destruct l as [|y l]; [now left|].
  right. apply IH. discriminate.
Qed.

Lemma basename_no_sep p : has_char sep (basename p) = false.
Proof.
  unfold basename. apply (split_components sep p).
  apply last_In, split_not_nil.
Qed.

(** [basename(join(d, f)) = f] for a name [f] without separator. *)
Lemma basename_join d f :
  has_char sep f = false -> basename (join d f) = f.
Proof.
  intros Hf. unfold basename, join.
  rewrite (startswith_no_sep _ _ Hf).
  destruct (negb (truthy d) || endswith sep d) eqn:G.
  - rewrite (split_app_no_sep _ _ _ Hf), last_last.
    now rewrite (last_split_glued _ G).
  - rewrite split_app_sep, (split_no_sep _ _ Hf), last_last. reflexivity.
Qed.

Lemma length_app_string (a b : string) :
  String.length (a ++ b) = String.length a + String.length b.
Proof. induction a as [|x a IH]; simpl; [reflexivity|now rewrite IH]. Qed.

Lemma substring_all (s : string) : substring 0 (String.length s) s = s.
Proof. induction s as [|x s IH]; simpl; [reflexivity|now rewrite IH]. Qed.

Lemma substring_skip (a b : string) (k : nat) :
  substring (String.length a) k (a ++ b) = substring 0 k b.
Proof. induction a as [|x a IH]; simpl; [reflexivity|exact IH]. Qed.

(** A string is what comes before an offset and what follows it. *)
Lemma substring_cut (s : string) :
  forall m, m <= String.length s ->
    s = (substring 0 m s ++ substring m (String.length s - m) s)%string.
Proof.
  induction s as [|x s IH]; intros m Hm.
  - simpl in Hm. assert (m = 0) as -> by lia. reflexivity.
  - destruct m as [|m].
    + simpl. now rewrite substring_all.
    + simpl in Hm. simpl. f_equal. apply IH. lia.
Qed.

(** [s.endswith(suffix)] holds exactly when [s] is some stem followed by
    [suffix]. *)
Lemma str_endswith_iff suffix s :
  Yaml.str_endswith suffix s = true <-> exists stem, s = (stem ++ suffix)%string.
Proof.
  unfold Yaml.str_endswith. split.
  - intros H. apply andb_true_iff in H as [Hl He].
    apply Nat.leb_le in Hl. apply String.eqb_eq in He.
    exists (substring 0 (String.length s - String.length suffix) s).
    pose proof (substring_cut s (String.length s - String.length suffix)) as Hc.
    replace (String.length s - (String.length s - String.length suffix))
      with (String.length suffix) in Hc by lia.
    rewrite He in Hc. apply Hc. lia.
  - intros [stem ->]. rewrite length_app_string.
    apply andb_true_iff. split; [apply Nat.leb_le; lia|].
    replace (String.length stem + String.length suffix - String.length suffix)
      with (String.length stem) by lia.
    rewrite substring_skip, substring_all. apply String.eqb_refl.
Qed.

End NameMore.

Import NameMore.

(** X24. The archive of a folder, and so the Drive object made from it, is
    named after the last component of the folder's path and the time of the
    run: [<basename(folder)>_<timestamp>.zip], in the script's directory.
    A folder given with a trailing separator has an empty last component,
    and its archive is named [_<timestamp>.zip]. *)
Theorem archive_named_after_folder :
  forall (cfg : Config) (folder : string) (w : World),
    has_char sep (now w) = false ->
    let zm := Zip.__init__ cfg folder in
    ZipRun.zipfile_path_of zm w
    = join (ZipRun.temp_back_folder w) (basename folder ++ "_" ++ now w ++ ".zip")
    /\ basename (ZipRun.zipfile_path_of zm w) = (basename folder ++ "_" ++ now w ++ ".zip")%string
    /\ (endswith sep folder = true ->
        basename (ZipRun.zipfile_path_of zm w) = ("_" ++ now w ++ ".zip")%string).
Proof.
  intros cfg folder w Hnow zm.
  assert (basename (ZipRun.zipfile_path_of zm w)
          = (basename folder ++ "_" ++ now w ++ ".zip")%string) as Hb.
  { unfold ZipRun.zipfile_path_of, ZipRun.zipfile_name. simpl archive_name.
    apply basename_join.
    rewrite !has_char_app, basename_no_sep, Hnow. reflexivity. }
  split; [reflexivity|]. split; [exact Hb|].
  intros He. rewrite Hb. unfold basename at 1.
  now rewrite (last_split_endswith _ _ He).
Qed.

Lemma archive_named_after_folder_witness :
  basename (ZipRun.zipfile_path_of (Zip.__init__ Sample.cfg "/srv/pics/") Sample.world)
  = "_20240101_00-00-00.zip".
Proof.
  exact (proj2 (proj2 (archive_named_after_folder Sample.cfg "/srv/pics/" Sample.world
                         eq_refl)) eq_refl).
Defined.

(** X25. [read_yaml_config] judges the file type by the name alone: for a
    file name without separator in any directory, it raises [TypeError]
    exactly when the name does not end in the letters [yml] or [yaml] (no
    dot is asked for), and it then raises before the file is opened:
    nothing is logged and the world is as before, whether or not the file
    exists. *)
Theorem yaml_type_check_by_suffix :
  forall (yaml_at : string -> option Config) (dir name : string) (w : World),
    has_char sep name = false ->
    (fst (Yaml.read_yaml_config yaml_at (join dir name) w)
     = Raise (TypeError Yaml.invalid_type_message)
     <-> ~ exists stem, name = (stem ++ "yml")%string \/ name = (stem ++ "yaml")%string)
    /\ (fst (Yaml.read_yaml_config yaml_at (join dir name) w)
        = Raise (TypeError Yaml.invalid_type_message) ->
        snd (Yaml.read_yaml_config yaml_at (join dir name) w) = w).
Proof.
  intros yaml_at dir name w Hname. unfold Yaml.read_yaml_config.
  rewrite (basename_join dir name Hname).
  destruct (Yaml.str_endswith "yml" name) eqn:E1.
  - simpl orb. simpl negb. cbv iota. split.
    + split.
      * destruct (yaml_at (join dir name)); unfold ret, bind, log, emit, raise; simpl;
          discriminate.
      * intros H. exfalso. apply H. apply str_endswith_iff in E1 as [stem ->].
        exists stem. now left.
    + destruct (yaml_at (join dir name)); unfold ret, bind, log, emit, raise; simpl;
        discriminate.
  - destruct (Yaml.str_endswith "yaml" name) eqn:E2.
    + simpl orb. simpl negb. cbv iota. split.
      * split.
        -- destruct (yaml_at (join dir name)); unfold ret, bind, log, emit, raise; simpl;
             discriminate.
        -- intros H. exfalso. apply H. apply str_endswith_iff in E2 as [stem ->].
           exists stem. now right.
      * destruct (yaml_at (join dir name)); unfold ret, bind, log, emit, raise; simpl;
          discriminate.
    + simpl orb. simpl negb. cbv iota. unfold raise. simpl fst. simpl snd.
      split; [|reflexivity]. split; [|reflexivity].
      intros _ [stem [H|H]].
      * assert (Yaml.str_endswith "yml" name = true) as H1
          by (apply str_endswith_iff; now exists stem).
        congruence.
      * assert (Yaml.str_endswith "yaml" name = true) as H1
          by (apply str_endswith_iff; now exists stem).
        congruence.
Qed.

Lemma yaml_type_check_by_suffix_witness :
  fst (Yaml.read_yaml_config (fun _ => Some Sample.cfg) (join "/opt/backup" "config.json")
         Sample.world)
  = Raise (TypeError Yaml.invalid_type_message)
  /\ fst (Yaml.read_yaml_config (fun _ => Some Sample.cfg) (join "/opt/backup" "notyml")
            Sample.world)
     <> Raise (TypeError Yaml.invalid_type_message).
Proof.
  split.
  - apply (proj1 (yaml_type_check_by_suffix (fun _ => Some Sample.cfg) "/opt/backup"
                    "config.json" Sample.world eq_refl)).
    intros [stem [H|H]].
    + assert (Yaml.str_endswith "yml" "config.json" = true) as H1
        by (apply str_endswith_iff; now exists stem).
      vm_compute in H1. discriminate H1.
    + assert (Yaml.str_endswith "yaml" "config.json" = true) as H1
        by (apply str_endswith_iff; now exists stem).
      vm_compute in H1. discriminate H1.
  - intros H.
    apply (proj1 (yaml_type_check_by_suffix (fun _ => Some Sample.cfg) "/opt/backup"
                    "notyml" Sample.world eq_refl)) in H.
    apply H. exists "not". now left.
Defined.

(** X26. The path [ConfigMixin.__init__] reads, [CONFIG_FILEPATH], passes
    the type check whatever the script's directory is: reading it with
    [read_yaml_config] never raises [TypeError], and gives the
    configuration when the file is there, and a logged [FileNotFoundError]
    when it is not. *)
Theorem config_path_passes_type_check :
  forall (yaml_at : string -> option Config) (w : World),
    yaml_at (ConfigMixin.CONFIG_FILEPATH w) = config_file w ->
    Yaml.read_yaml_config yaml_at (ConfigMixin.CONFIG_FILEPATH w) w
    = ConfigMixin.read_yaml_config w
    /\ forall msg, fst (ConfigMixin.read_yaml_config w) <> Raise (TypeError msg).
Proof.
  intros yaml_at w H. split.
  - unfold Yaml.read_yaml_config, ConfigMixin.CONFIG_FILEPATH.
    rewrite (basename_join (script_dir w) ConfigMixin.CONFIG_FILENAME eq_refl).
    change (Yaml.str_endswith "yml" ConfigMixin.CONFIG_FILENAME) with true.
    simpl orb. simpl negb. cbv iota.
    fold (ConfigMixin.CONFIG_FILEPATH w). rewrite H.
    unfold ConfigMixin.read_yaml_config. now destruct (config_file w).
  - intros msg. unfold ConfigMixin.read_yaml_config.
    destruct (config_file w); unfold ret, bind, log, emit, raise; simpl; discriminate.
Qed.

Lemma config_path_passes_type_check_witness :
  Yaml.read_yaml_config (fun _ => Some Sample.cfg) "/opt/backup/config.yml" Sample.world
  = (Ok Sample.cfg, Sample.world).
Proof.
  exact (proj1 (config_path_passes_type_check (fun _ => Some Sample.cfg) Sample.world
                  eq_refl)).
Defined.

(** ** Logging *)

Module LoggingMore.
Import PyStr PosixPath SetLogging.

Lemma mem_head p l : mem p (p :: l) = true.
Proof. unfold mem. simpl. now rewrite String.eqb_refl. Qed.

Lemma mem_tail p q l : mem p l = true -> mem p (q :: l) = true.
Proof. unfold mem. simpl. intros ->. apply orb_true_r. Qed.

(** The file branch of [level], by whether the log file exists. *)
Ltac logging_file_cases path st Hu :=
  let Hm := fresh "Hm" in
  cbn [SetLogging.log_files SetLogging.unwritable SetLogging.handlers
         SetLogging.intercepted app];
  destruct (mem path (SetLogging.log_files st)) eqn:Hm;
  cbn [SetLogging.log_files SetLogging.unwritable SetLogging.handlers
         SetLogging.intercepted app];
  rewrite ?Hu;
  cbn [SetLogging.log_files SetLogging.unwritable SetLogging.handlers
         SetLogging.intercepted app];
  rewrite ?Hu;
  (eexists; split; [reflexivity|]);
  cbn [SetLogging.log_files SetLogging.unwritable SetLogging.handlers
         SetLogging.intercepted app];
  rewrite ?Hm, ?mem_head, ?Hu;
  cbn [SetLogging.log_files SetLogging.unwritable SetLogging.handlers
         SetLogging.intercepted app];
  rewrite ?Hu;
  (split; [reflexivity|]); (split; [reflexivity|]);
  (split; [|reflexivity]);
  first [intros p; apply mem_tail | tauto].

End LoggingMore.

Import LoggingMore.

(** X27. Setting up logging with a valid level and the script's sink
    options, when the log file can be opened for writing (or file logging
    is disabled), ends normally and replaces the handlers: whatever
    handlers were installed before, the logger then has exactly the stream
    handler (if output is enabled) followed by the file handler (if file
    logging is enabled), the log file exists, no existing file is lost, and
    setting up logging again in the resulting state changes nothing. With
    both sinks disabled nothing is touched. *)
Theorem logging_setup_replaces_handlers :
  forall (self : SetLogging.t) (log_level : string) (st : SetLogging.Logger),
    let path := join (SetLogging.log_dir_path self) (SetLogging.log_filename self) in
    SetLogging.log_to_file_kwargs self = SetLogging.FILE_SINK_KWARGS ->
    mem log_level SetLogging.LOG_LEVELS = true ->
    (SetLogging.log_to_file self = true ->
     mem path (SetLogging.unwritable st) = false) ->
    exists st',
      SetLogging.level self log_level st = (inr tt, st')
      /\ (if SetLogging.log_to_output self || SetLogging.log_to_file self then
            SetLogging.handlers st'
            = (if SetLogging.log_to_output self
               then [SetLogging.StreamSink log_level SetLogging.STREAM_FORMATTER] else [])
              ++ (if SetLogging.log_to_file self
                  then [SetLogging.FileSink path log_level SetLogging.FILE_FORMATTER
                          SetLogging.FILE_SINK_KWARGS]
                  else [])
          else st' = st)
      /\ (SetLogging.log_to_file self = true -> mem path (SetLogging.log_files st') = true)
      /\ (forall p, mem p (SetLogging.log_files st) = true ->
                    mem p (SetLogging.log_files st') = true)
      /\ SetLogging.level self log_level st' = (inr tt, st').
Proof.
  intros self log_level st path Hkw Hlevel Hfile.
  unfold SetLogging.level, SetLogging._validate_log_level, SetLogging._create_log_file,
    SetLogging.add_file_sink.
  rewrite Hlevel, Hkw. fold path.
  destruct (SetLogging.log_to_output self) eqn:Ho;
    destruct (SetLogging.log_to_file self) eqn:Hf; simpl negb; simpl andb; simpl orb; cbv iota.
  - pose proof (Hfile eq_refl) as Hu. logging_file_cases path st Hu.
  - eexists. split; [reflexivity|].
    cbn [SetLogging.log_files SetLogging.unwritable SetLogging.handlers
           SetLogging.intercepted app].
    split; [reflexivity|]. split; [discriminate|]. split; [tauto|reflexivity].
  - pose proof (Hfile eq_refl) as Hu. logging_file_cases path st Hu.
  - exists st. split; [reflexivity|]. split; [reflexivity|].
    split; [discriminate|]. split; [tauto|reflexivity].
Qed.

Lemma logging_setup_replaces_handlers_witness :
  let st := {| SetLogging.handlers := [SetLogging.DefaultSink];
               SetLogging.intercepted := false;
               SetLogging.log_files := []; SetLogging.unwritable := [] |} in
  exists st',
    SetLogging.level (SetLogging.script_logging "/opt/backup") SetLogging.LOG_LEVEL st
    = (inr tt, st')
    /\ length (SetLogging.handlers st') = 2
    /\ SetLogging.log_files st' = ["/opt/backup/log.log"].
Proof.
  intros st.
  destruct (logging_setup_replaces_handlers (SetLogging.script_logging "/opt/backup")
              SetLogging.LOG_LEVEL st eq_refl eq_refl (fun _ => eq_refl))
    as (st' & E & Hh & _).
  exists st'. split; [exact E|].
  simpl in Hh. rewrite Hh. split; [reflexivity|].
  vm_compute in E. now injection E as <-.
Defined.

(** X28. With the script's sink options, [level] raises in three cases
    only, and never when both sinks are disabled (an invalid level is then
    accepted silently). An invalid level raises [ValueError] before
    anything is touched. With a valid level and file logging enabled, a
    log file that neither exists nor can be created raises the
    invalid-log-filepath exception, and a log file that exists but cannot
    be opened for writing makes [log.add] raise; in both cases the handlers
    have been removed by then: the logger is left with the stream handler
    alone, or with no handler at all when output is disabled, and no file
    has been created. *)
Theorem logging_failures :
  forall (self : SetLogging.t) (log_level : string) (st st' : SetLogging.Logger)
         (e : SetLogging.LogExn),
    let path := join (SetLogging.log_dir_path self) (SetLogging.log_filename self) in
    SetLogging.log_to_file_kwargs self = SetLogging.FILE_SINK_KWARGS ->
    SetLogging.level self log_level st = (inl e, st') ->
    SetLogging.log_to_output self || SetLogging.log_to_file self = true
    /\ ((e = SetLogging.ValueError log_level
         /\ mem log_level SetLogging.LOG_LEVELS = false
         /\ st' = st)
        \/ (mem log_level SetLogging.LOG_LEVELS = true
            /\ SetLogging.log_to_file self = true
            /\ mem path (SetLogging.unwritable st) = true
            /\ e = (if mem path (SetLogging.log_files st)
                    then SetLogging.SinkOSError path
                    else SetLogging.InvalidLogFilepath path)
            /\ SetLogging.handlers st'
               = (if SetLogging.log_to_output self
                  then [SetLogging.StreamSink log_level SetLogging.STREAM_FORMATTER]
                  else [])
            /\ SetLogging.log_files st' = SetLogging.log_files st)).
Proof.
  intros self log_level st st' e path _.
  unfold SetLogging.level, SetLogging._validate_log_level, SetLogging._create_log_file,
    SetLogging.add_file_sink.
  fold path.
  destruct (SetLogging.log_to_output self) eqn:Ho;
    destruct (SetLogging.log_to_file self) eqn:Hf; simpl negb; simpl andb; simpl orb; cbv iota;
    try discriminate;
    (destruct (mem log_level SetLogging.LOG_LEVELS) eqn:Hl;
     [|intros [= <- <-]; split; [reflexivity|left; now repeat split]]);
    try discriminate;
    cbn [SetLogging.log_files SetLogging.unwritable SetLogging.handlers
           SetLogging.intercepted app];
    destruct (mem path (SetLogging.log_files st)) eqn:Hm;
    cbn [SetLogging.log_files SetLogging.unwritable SetLogging.handlers
           SetLogging.intercepted app];
    (destruct (mem path (SetLogging.unwritable st)) eqn:Hu;
     cbn [SetLogging.log_files SetLogging.unwritable SetLogging.handlers
            SetLogging.intercepted app];
     try rewrite Hu; try discriminate);
    intros [= <- <-]; split; try reflexivity; right; now repeat split.
Qed.

Lemma logging_failures_witness :
  let st := {| SetLogging.handlers := [SetLogging.DefaultSink];
               SetLogging.intercepted := false;
               SetLogging.log_files := ["/opt/backup/log.log"];
               SetLogging.unwritable := ["/opt/backup/log.log"] |} in
  exists st',
    SetLogging.level (SetLogging.script_logging "/opt/backup") SetLogging.LOG_LEVEL st
    = (inl (SetLogging.SinkOSError "/opt/backup/log.log"), st')
    /\ SetLogging.handlers st' = [SetLogging.StreamSink "INFO" SetLogging.STREAM_FORMATTER].
Proof.
  intros st.
  destruct (SetLogging.level (SetLogging.script_logging "/opt/backup") SetLogging.LOG_LEVEL st)
    as [[e|u] st'] eqn:E.
  - destruct (logging_failures (SetLogging.script_logging "/opt/backup") _ _ _ _ eq_refl E)
      as [_ [(_ & H & _)|(_ & _ & _ & He & Hh & _)]].
    + discriminate H.
    + exists st'. split; [|exact Hh]. rewrite He. reflexivity.
  - vm_compute in E. discriminate E.
Defined.
